(** * eggholderEA: an evolutionary algorithm with fitness sharing

    A shallow embedding of [eggholderEA_div.py].  NumPy's float64 numbers are
    read as real numbers (exact arithmetic, no rounding, no NaN); an
    [(n,2)] array is a list of rows; the random generators are explicit
    inputs of every operator, constrained only by what their library
    functions promise about shape and range. *)

From Stdlib Require Import Floats.
From Stdlib Require Import Reals Lra Lia ZArith FunctionalExtensionality.
From stdpp Require Import base option list sorting gmap.

Open Scope R_scope.

(** ** NumPy and Python primitives *)

#[global] Instance Rlt_decision : RelDecision Rlt := Rlt_dec.
#[global] Instance Rle_decision : RelDecision Rle := Rle_dec.
#[global] Instance Req_decision : EqDecision R := Req_dec_T.
#[global] Instance R_inhabited : Inhabited R := populate 0.

(** One row of an [(n,2)] array. *)
Definition point : Type := R * R.

(** The arrays the objective function is called with: a flat pair of
    shape [(2,)] or a batch of shape [(n,2)]. *)
Inductive ndarray : Type :=
  | Row (p : point)
  | Rows (m : list point).

Definition np_size (x : ndarray) : nat :=
  match x with
  | Row _ => 2
  | Rows m => length m * 2
  end.

(** [np.reshape(x, (1, 2))]: only arrays of two elements can be reshaped. *)
Definition np_reshape_1_2 (x : ndarray) : option ndarray :=
  match x with
  | Row p => Some (Rows [p])
  | Rows [p] => Some (Rows [p])
  | Rows _ => None
  end.

(** [np.clip(x, lo, hi)] is [minimum(maximum(x, lo), hi)]. *)
Definition np_clip (x lo hi : R) : R := Rmin (Rmax x lo) hi.

Definition clip_row (p : point) (lo hi : R) : point :=
  (np_clip p.1 lo hi, np_clip p.2 lo hi).

Definition np_sign (x : R) : R :=
  if decide (0 < x) then 1 else if decide (x < 0) then -1 else 0.

(** [b ** e] on the reals.  For a positive base it is the real power; with
    exponent [0] it is [1]; the remaining cases ([0] to a negative power,
    a negative base) leave the reals in NumPy ([inf], [nan]) and are given
    the value [0] here: the optimizer never reaches them when [sigma > 0]. *)
Definition np_power (b e : R) : R :=
  if decide (0 < b) then Rpower b e
  else if decide (e = 0) then 1 else 0.

Definition np_sum (v : list R) : R := foldr Rplus 0 v.

Definition np_mean (v : list R) : R := np_sum v / INR (length v).

(** Running minimum of [np.argmin]/[np.min]: a later element replaces the
    current best only when it is strictly smaller, so the first occurrence
    of the minimum wins. *)
Fixpoint argmin_from (best : R) (bi i : nat) (v : list R) : nat :=
  match v with
  | [] => bi
  | x :: v' =>
      if decide (x < best) then argmin_from x i (S i) v'
      else argmin_from best bi (S i) v'
  end.

(** [np.argmin] raises [ValueError] on an empty sequence. *)
Definition np_argmin (v : list R) : option nat :=
  match v with
  | [] => None
  | x :: v' => Some (argmin_from x 0%nat 1%nat v')
  end.

Definition np_min (v : list R) : option R :=
  i ← np_argmin v; v !! i.

(** [np.where(mask)]: the indices of the true entries, ascending. *)
Definition np_where (mask : list bool) : list nat :=
  filter (λ i, mask !! i = Some true) (seq 0 (length mask)).

(** [a[ii, :]] for an index array [ii]; an index out of range raises. *)
Definition gather (a : list point) (ii : list nat) : option (list point) :=
  mapM (λ i, a !! i) ii.

(** [a[ii, :] = vals], row by row. *)
Definition scatter (a : list point) (ii : list nat) (vals : list point)
  : list point :=
  foldl (λ acc iv, <[iv.1 := iv.2]> acc) a (zip ii vals).

(** A [for] loop over a list of iterates whose body may raise. *)
Fixpoint for_each {A S : Type} (l : list A) (body : A → S → option S) (s : S)
  : option S :=
  match l with
  | [] => Some s
  | a :: l' => s' ← body a s; for_each l' body s'
  end.

Definition padd (p q : point) : point := (p.1 + q.1, p.2 + q.2).
Definition psub (p q : point) : point := (p.1 - q.1, p.2 - q.2).
Definition pmul (p q : point) : point := (p.1 * q.1, p.2 * q.2).
Definition pscale (c : R) (p : point) : point := (c * p.1, c * p.2).

(** ** The solver object *)

Record eggholderEA : Type := {
  alpha : R;            (* mutation probability *)
  lambdaa : nat;        (* population size *)
  mu : nat;             (* offspring size *)
  k : nat;              (* tournament selection *)
  fitness_alpha : R;    (* fitness sharing shape parameter *)
  intMax : R;           (* boundary of the domain *)
  sigma : R;            (* fitness sharing distance *)
  numIters : nat;       (* maximum number of iterations *)
  objf : ndarray → option (list R)
}.

(** [__init__]. *)
Definition init (fn : ndarray → option (list R)) : eggholderEA :=
  {| alpha := 0.05;
     lambdaa := 100;
     mu := 100 * 2;
     k := 3;
     fitness_alpha := 0.5;
     intMax := 500;
     sigma := 500 * 0.3;
     numIters := 20;
     objf := fn |}.

(** ** Shared fitness *)

(** [np.linalg.norm(individual - others, axis=1)]. *)
Definition calc_distance (individual : point) (others : list point) : list R :=
  map (λ o, sqrt ((individual.1 - o.1)² + (individual.2 - o.2)²)) others.

Definition calc_beta (self : eggholderEA) (x : nat) (population : list point)
  : option R :=
  ind ← population !! x;
  let distances := calc_distance ind population in
  Some (np_sum (map (λ d, np_power (1 - d / sigma self) (fitness_alpha self))
                    (filter (λ d, d < sigma self) distances))).

Definition wrap_fitness (self : eggholderEA) (x : nat) (population : list point)
  : option R :=
  beta ← calc_beta self x population;
  ind ← population !! x;
  f ← objf self (Row ind);
  let g := map (λ fi, fi * np_power beta (np_sign fi)) f in
  g !! 0%nat.

(** ** The demonstration objective *)

Definition eggholder (p : point) : R :=
  - p.2 * sin (sqrt (Rabs (p.1 + p.2))) - p.1 * sin (sqrt (Rabs (p.1 - p.2))).

Definition myfun (x : ndarray) : option (list R) :=
  x ← (if decide (np_size x = 2%nat) then np_reshape_1_2 x else Some x);
  match x with
  | Rows m => Some (map eggholder m)
  | Row _ => None        (* x[:, 0] on a one-dimensional array *)
  end.

(** ** Randomness

    [random.choices(range(n), k=k)] returns [k] indices below [n], drawn
    with replacement; [np.random.rand] returns numbers in [[0,1)];
    [np.random.randn] returns arbitrary reals. *)

Definition choices_ok (n k : nat) (ri : list nat) : Prop :=
  length ri = k ∧ Forall (λ i, (i < n)%nat) ri.

Definition unit_interval (r : R) : Prop := 0 <= r < 1.

Definition rand_ok (n : nat) (u : list R) : Prop :=
  length u = n ∧ Forall unit_interval u.

Definition rand2_ok (n : nat) (u : list point) : Prop :=
  length u = n ∧ Forall (λ p, unit_interval p.1 ∧ unit_interval p.2) u.

(** The draws of one generation, in the order the loop makes them. *)
Record draws : Type := {
  sel_choices : nat → list nat;   (* the [ii]-th [random.choices] of selection *)
  cross_rand : list point;        (* [np.random.rand(lambdaa, 2)] of crossover *)
  mut_rand : list R;              (* [np.random.rand(n)] of mutation *)
  mut_randn : list point          (* [np.random.randn(m, 2)] of mutation *)
}.

(** ** Operators *)

(** k-tournament selection.  [choices ii] is what the [ii]-th call of
    [random.choices] returned. *)
Definition selection (self : eggholderEA) (choices : nat → list nat)
    (population : list point) : option (list point) :=
  for_each (seq 0 (mu self))
    (λ ii selected,
       let ri := choices ii in
       g ← mapM (λ x, wrap_fitness self x population) ri;
       min ← np_argmin g;
       r ← ri !! min;
       row ← population !! r;
       Some (<[ii := row]> selected))
    (replicate (mu self) (0, 0)).

Definition lc (self : eggholderEA) (x y w : point) : point :=
  clip_row (padd x (pmul w (psub y x))) 0 (intMax self).

(** Box crossover.  [rand] is the outcome of [np.random.rand(lambdaa, 2)]. *)
Definition crossover (self : eggholderEA) (rand : list point)
    (selected : list point) : option (list point) :=
  let weights := map (λ r, (3 * r.1 - 1, 3 * r.2 - 1)) rand in
  for_each (seq 0 (lambdaa self))
    (λ ii offspring,
       x ← selected !! (2 * ii)%nat;
       y ← selected !! (2 * ii + 1)%nat;
       w ← weights !! ii;
       Some (<[ii := lc self x y w]> offspring))
    (replicate (lambdaa self) (0, 0)).

(** Arrays are objects on a heap; a variable holds a reference. *)
Abbreviation heap := (gmap nat (list point)).

(** Mutation.  [offspring] is a reference: the two indexed assignments
    write into the referenced array, and the reference itself is returned.
    [rand] is the outcome of [np.random.rand(np.size(offspring, 0))] and
    [randn] that of [np.random.randn(np.size(ii), 2)]; lists of another
    length are not outcomes of these calls. *)
Definition mutation (self : eggholderEA) (rand : list R) (randn : list point)
    (offspring : nat) (alpha : R) (h : heap) : option (nat * heap) :=
  a ← h !! offspring;
  guard (length rand = length a);;
  let ii := np_where (map (λ r, bool_decide (r <= alpha)) rand) in
  guard (length randn = length ii);;
  rows ← gather a ii;
  let h := <[offspring := scatter a ii (zip_with padd rows (map (pscale 10) randn))]> h in
  a ← h !! offspring;
  rows ← gather a ii;
  let h := <[offspring := scatter a ii (map (λ p, clip_row p 0 (intMax self)) rows)]> h in
  Some (offspring, h).

(** What the run shows: the populations handed to [plotFun], the
    progress lines, and the final line. *)
Inductive event : Type :=
  | Plot (population : list point) (bound : R)
  | Print (meanObj bestObj : R)
  | Done.

(** [self.intMax * np.random.rand(self.lambdaa, 2)]. *)
Definition initial_population (self : eggholderEA) (rand0 : list point)
  : list point :=
  map (pscale (intMax self)) rand0.

Section Elimination.

(** [np.argsort] with the default [kind]: which of two equal keys comes
    first is left to the sorting routine, so it is a parameter here. *)
Variable argsort : list R → list nat.

Definition elimination (self : eggholderEA) (joinedPopulation : list point)
    (keep : nat) : option (list point) :=
  fvals ← objf self (Rows joinedPopulation);
  st ← for_each (seq 0 keep)
    (λ i (st : list point * list point * list nat),
       let '(survivors, joinedPopulation, perm) := st in
       p0 ← perm !! 0%nat;
       row ← joinedPopulation !! p0;
       let survivors := <[i := row]> survivors in
       let joinedPopulation := delete p0 joinedPopulation in
       g ← mapM (λ x, cand ← joinedPopulation !! x;
                      wrap_fitness self 0 (cand :: take (i + 1) survivors))
                (seq 0 (length joinedPopulation));
       Some (survivors, joinedPopulation, argsort g))
    (replicate keep (0, 0), joinedPopulation, argsort fvals);
  Some st.1.1.

(** One pass of the loop body of [optimize]. *)
Definition generation (self : eggholderEA) (d : draws)
    (population : list point) : option (list point * list event) :=
  selected ← selection self (sel_choices d) population;
  offspring ← crossover self (cross_rand d) selected;
  let off := 0%nat in
  lh ← mutation self (mut_rand d) (mut_randn d) off (alpha self)
         {[ off := offspring ]};
  mutated ← lh.2 !! lh.1;
  let joinedPopulation := mutated ++ population in
  population ← elimination self joinedPopulation (lambdaa self);
  fvals ← objf self (Rows population);
  let meanObj := np_mean fvals in
  bestObj ← np_min fvals;
  Some (population, [Print meanObj bestObj; Plot population (intMax self)]).

(** [rand0] is the outcome of [np.random.rand(lambdaa, 2)]; [gens i] holds
    the draws of iteration [i]. *)
Definition optimize (self : eggholderEA) (rand0 : list point)
    (gens : nat → draws) : option (list event) :=
  let population := initial_population self rand0 in
  st ← for_each (seq 0 (numIters self))
    (λ i (st : list point * list event),
       r ← generation self (gens i) st.1;
       Some (r.1, st.2 ++ r.2))
    (population, [Plot population (intMax self)]);
  Some (st.2 ++ [Done]).

End Elimination.

(** ** Vocabulary of the properties *)

(** The interface of the objective: one value per row, the same value
    whether the row comes alone or in a batch. *)
Definition pointwise (fn : ndarray → option (list R)) (f : point → R) : Prop :=
  (∀ p, fn (Row p) = Some [f p]) ∧ (∀ m, fn (Rows m) = Some (map f m)).

(** A batch-and-row objective built from a function of one point. *)
Definition lift (f : point → R) (x : ndarray) : option (list R) :=
  match x with
  | Row p => Some [f p]
  | Rows m => Some (map f m)
  end.

(** A batch-only objective: it indexes [x[:, 0]] without reshaping. *)
Definition batch_only (f : point → R) (x : ndarray) : option (list R) :=
  match x with
  | Row _ => None
  | Rows m => Some (map f m)
  end.

(** The search domain [[0, B]] x [[0, B]]. *)
Definition in_box (B : R) (p : point) : Prop :=
  (0 <= p.1 <= B) ∧ (0 <= p.2 <= B).

(** [beta ** sign(f)] spelled out by the sign of [f]. *)
Definition sign_power (beta f : R) : R :=
  if decide (0 < f) then beta else if decide (f < 0) then / beta else 1.

Definition dist (p q : point) : R := sqrt ((p.1 - q.1)² + (p.2 - q.2)²).

(** One member's share of the niche count. *)
Definition sh (self : eggholderEA) (d : R) : R :=
  np_power (1 - d / sigma self) (fitness_alpha self).

(** The niche count as the specification words it: the sum of
    [(1 - d/sigma)^alpha] over the members closer than [sigma], the
    others contributing [0]. *)
Definition niche_count (self : eggholderEA) (ind : point) (ref : list point) : R :=
  np_sum (map (λ o, if decide (dist ind o < sigma self)
                    then sh self (dist ind o) else 0) ref).

(** The shared fitness of an individual against a reference set, for an
    objective worth [f] at each point. *)
Definition shared_fitness (self : eggholderEA) (f : point → R) (ind : point)
    (ref : list point) : R :=
  f ind * np_power (niche_count self ind ref) (np_sign (f ind)).

(** What [np.argsort] promises: the indices of the array, arranged so
    that the keys they point to ascend.  Nothing is promised about the
    order of indices whose keys are equal. *)
Definition argsort_ok (argsort : list R → list nat) : Prop :=
  ∀ v, argsort v ≡ₚ seq 0 (length v)
       ∧ StronglySorted (λ a b, v !!! a <= v !!! b) (argsort v).

(** A sort that meets the promise: insertion sort on the indices, which
    happens to keep equal keys in index order. *)
Fixpoint insert_by (v : list R) (a : nat) (l : list nat) : list nat :=
  match l with
  | [] => [a]
  | b :: l' =>
      if decide (v !!! a <= v !!! b) then a :: b :: l'
      else b :: insert_by v a l'
  end.

Definition stable_argsort (v : list R) : list nat :=
  foldr (insert_by v) [] (seq 0 (length v)).

(** The key by which survivor [i] is chosen: the raw objective value for
    the first, the shared fitness against the candidate itself and the
    survivors chosen before for the others. *)
Definition score (self : eggholderEA) (f : point → R) (survivors : list point)
    (i : nat) (cand : point) : R :=
  if decide (i = 0%nat) then f cand
  else shared_fitness self f cand (cand :: take i survivors).

(** The draws of one generation have the shapes and ranges their
    generators give them. *)
Definition draws_ok (self : eggholderEA) (d : draws) : Prop :=
  (∀ ii, (ii < mu self)%nat →
         choices_ok (lambdaa self) (k self) (sel_choices d ii))
  ∧ rand2_ok (lambdaa self) (cross_rand d)
  ∧ rand_ok (lambdaa self) (mut_rand d)
  ∧ length (mut_randn d)
    = length (np_where (map (λ r, bool_decide (r <= alpha self)) (mut_rand d))).

(** The populations a run reports, in order. *)
Definition plotted (events : list event) : list (list point) :=
  omap (λ e, match e with Plot population _ => Some population | _ => None end)
       events.

(** The progress lines a run prints, in order: the mean and the best
    objective value of each new population. *)
Definition printed (events : list event) : list (R * R) :=
  omap (λ e, match e with
             | Print meanObj bestObj => Some (meanObj, bestObj)
             | _ => None
             end)
       events.

(** A solver asked for a population of no rows, and one whose parent
    pool is smaller than twice its offspring. *)
Definition no_rows : eggholderEA :=
  {| alpha := 0.05; lambdaa := 0; mu := 0; k := 3;
     fitness_alpha := 0.5; intMax := 500; sigma := 150; numIters := 20;
     objf := myfun |}.

Definition few_parents : eggholderEA :=
  {| alpha := 0.05; lambdaa := 100; mu := 150; k := 3;
     fitness_alpha := 0.5; intMax := 500; sigma := 150; numIters := 20;
     objf := myfun |}.

(** Draws for a generation of the default solver in which no offspring
    is mutated. *)
Definition calm_draws : draws :=
  {| sel_choices := λ _, [0; 1; 2]%nat;
     cross_rand := replicate 100 (0.5, 0.5);
     mut_rand := replicate 100 0.5;
     mut_randn := [] |}.

(** A solver whose niche radius exceeds the diagonal of its domain. *)
Definition wide_niche : eggholderEA :=
  {| alpha := 0.05; lambdaa := 2; mu := 2 * 2; k := 3;
     fitness_alpha := 0.5; intMax := 500; sigma := 1000; numIters := 1;
     objf := lift (λ p, p.1 + p.2 + 1) |}.

(** ** NumPy's default sort

    [np.argsort] with the default [kind='quicksort'] runs the introsort of
    NumPy's [npysort/quicksort] on an index array ([aquicksort_]): ranges
    of more than seventeen entries are partitioned around a median of
    three, shorter ranges are sorted by insertion, and heapsort takes over
    when the recursion budget is spent.  It is not a stable sort.  Pointers
    into the index array are positions here. *)

Close Scope R_scope.

Section Introsort.

(** [lt a b] is [LT(v[a], v[b])]: the key at index [a] is smaller than the
    key at index [b]. *)
Variable lt : nat → nat → bool.

(** [INTP_SWAP(t[i], t[j])]. *)
Definition swap (t : list nat) (i j : nat) : list nat :=
  <[j := t !!! i]> (<[i := t !!! j]> t).

Definition swap_if_less (t : list nat) (i j : nat) : list nat :=
  if lt (t !!! i) (t !!! j) then swap t i j else t.

(** [do ++pi; while (LT(v[*pi], vp))]; [vp] is kept as the index of the
    pivot key. *)
Fixpoint scan_up (fuel : nat) (t : list nat) (vp pi : nat) : nat :=
  match fuel with
  | O => pi
  | S fuel =>
      let pi := S pi in
      if lt (t !!! pi) vp then scan_up fuel t vp pi else pi
  end.

(** [do --pj; while (LT(vp, v[*pj]))]. *)
Fixpoint scan_down (fuel : nat) (t : list nat) (vp pj : nat) : nat :=
  match fuel with
  | O => pj
  | S fuel =>
      let pj := pred pj in
      if lt vp (t !!! pj) then scan_down fuel t vp pj else pj
  end.

(** The [for (;;)] loop of the partition; returns the array and [pi]. *)
Fixpoint partition (fuel : nat) (t : list nat) (vp pi pj : nat)
  : list nat * nat :=
  match fuel with
  | O => (t, pi)
  | S fuel =>
      let pi := scan_up (length t) t vp pi in
      let pj := scan_down (length t) t vp pj in
      if decide (pj <= pi) then (t, pi)
      else partition fuel (swap t pi pj) vp pi pj
  end.

(** The inner [while] of the insertion sort, then [*pj = vi]. *)
Fixpoint shift_down (fuel : nat) (t : list nat) (vi pl pj : nat) : list nat :=
  match fuel with
  | O => <[pj := vi]> t
  | S fuel =>
      if bool_decide (pl < pj) && lt vi (t !!! (pj - 1))
      then shift_down fuel (<[pj := t !!! (pj - 1)]> t) vi pl (pj - 1)
      else <[pj := vi]> t
  end.

Definition insertion_sort (t : list nat) (pl pr : nat) : list nat :=
  foldl (λ t pi, shift_down (length t) t (t !!! pi) pl pi) t
        (seq (pl + 1) (pr - pl)).

(** The sift-down loop of the heapsort, then [a[i] = tmp]. *)
Fixpoint sift (fuel : nat) (t : list nat) (pl n tmp i j : nat) : list nat :=
  match fuel with
  | O => <[pl + i - 1 := tmp]> t
  | S fuel =>
      if decide (j <= n) then
        let j := if bool_decide (j < n)
                    && lt (t !!! (pl + j - 1)) (t !!! (pl + (j + 1) - 1))
                 then j + 1 else j in
        if lt tmp (t !!! (pl + j - 1))
        then sift fuel (<[pl + i - 1 := t !!! (pl + j - 1)]> t) pl n tmp j (j + j)
        else <[pl + i - 1 := tmp]> t
      else <[pl + i - 1 := tmp]> t
  end.

Definition SMALL_QUICKSORT : nat := 16.

Definition stack_entry : Type := nat * nat * Z.

(** The [while ((pr - pl) > SMALL_QUICKSORT)] loop: median of three,
    partition, push the larger part, go on with the smaller. *)
Fixpoint quick_partitions (fuel : nat) (t : list nat) (pl pr : nat) (cdepth : Z)
    (stack : list stack_entry) : list nat * nat * nat * list stack_entry :=
  match fuel with
  | O => (t, pl, pr, stack)
  | S fuel =>
      if decide (SMALL_QUICKSORT < pr - pl) then
        let pm := pl + (pr - pl) / 2 in
        let t := swap_if_less t pm pl in
        let t := swap_if_less t pr pm in
        let t := swap_if_less t pm pl in
        let vp := t !!! pm in
        let t := swap t pm (pr - 1) in
        let '(t, pi) := partition (length t) t vp pl (pr - 1) in
        let t := swap t pi (pr - 1) in
        let cdepth := (cdepth - 1)%Z in
        if decide (pi - pl < pr - pi)
        then quick_partitions fuel t pl (pi - 1) cdepth ((pi + 1, pr, cdepth) :: stack)
        else quick_partitions fuel t (pi + 1) pr cdepth ((pl, pi - 1, cdepth) :: stack)
      else (t, pl, pr, stack)
  end.

(** [aheapsort_] on the [n] entries of [t] from position [pl]; entry [x]
    of the one-based heap is [t[pl + x - 1]]. *)
Definition aheapsort (t : list nat) (pl n : nat) : list nat :=
  let t := foldl (λ t l, sift n t pl n (t !!! (pl + l - 1)) l (l + l)) t
                 (reverse (seq 1 (n / 2))) in
  foldl (λ t m,
           let tmp := t !!! (pl + m - 1) in
           let t := <[pl + m - 1 := t !!! pl]> t in
           sift n t pl (m - 1) tmp 1 2)
        t (reverse (seq 2 (n - 1))).

(** The outer [while (1)] loop: sort the current range, then pop the next
    one from the stack. *)
Fixpoint quick_ranges (fuel : nat) (t : list nat) (pl pr : nat) (cdepth : Z)
    (stack : list stack_entry) : list nat :=
  match fuel with
  | O => t
  | S fuel =>
      let '(t, stack) :=
        if decide (cdepth < 0)%Z then (aheapsort t pl (pr - pl + 1), stack)
        else
          let '(t, pl, pr, stack) :=
            quick_partitions (length t) t pl pr cdepth stack in
          (insertion_sort t pl pr, stack) in
      match stack with
      | [] => t
      | (pl, pr, cdepth) :: stack => quick_ranges fuel t pl pr cdepth stack
      end
  end.

Definition npy_get_msb (n : nat) : nat := Nat.log2 n.

Definition aquicksort (num : nat) : list nat :=
  quick_ranges (S num) (seq 0 num) 0 (num - 1)
               (2 * Z.of_nat (npy_get_msb num)) [].

End Introsort.

Open Scope R_scope.

Definition np_argsort (v : list R) : list nat :=
  aquicksort (λ a b, bool_decide (v !!! a < v !!! b)) (length v).

(** The same comparison on integer keys, which can be evaluated. *)
Definition ltZ (v : list Z) (a b : nat) : bool :=
  bool_decide (default 0%Z (v !! a) < default 0%Z (v !! b))%Z.

(** A pool of nineteen rows for the objective [f(x, y) = y]: the last row
    is the best, and rows 3 and 8 tie for second best. *)
Definition tie_pool : list point :=
  [(150, 5); (160, 9); (170, 9); (180, 1); (190, 9); (200, 9); (210, 9);
   (220, 9); (230, 1); (240, 9); (250, 9); (260, 9); (270, 9); (280, 9);
   (290, 9); (300, 9); (310, 9); (320, 9); (0, 0)].

Definition tie_keys : list Z :=
  [5; 9; 9; 1; 9; 9; 9; 9; 1; 9; 9; 9; 9; 9; 9; 9; 9; 9; 0]%Z.

(** ** The landscape behind the plots

    The two plotting functions evaluate the objective on a square grid
    over the domain and hand arrays to matplotlib.  The drawing itself is
    outside this development; what is modelled is the arrays the drawing
    calls receive. *)

(** A two-dimensional array: its shape and its elements, row after
    row. *)
Record array2 : Type := {
  nrows : nat;
  ncols : nat;
  elems : list R
}.

(** [A[i, j]]. *)
Definition at2 (A : array2) (i j : nat) : R :=
  elems A !!! (i * ncols A + j)%nat.

(** [ceil r], from the integer [up] just above a real. *)
Definition np_ceil (r : R) : Z := (1 - up (- r))%Z.

(** [np.arange(0, stop, step)] for a positive [step]: the
    [ceil(stop / step)] values [0, step, 2 * step, ...]. *)
Definition np_arange (stop step : R) : list R :=
  map (λ i, INR i * step) (seq 0 (Z.to_nat (np_ceil (stop / step)))).

(** [np.meshgrid(x, y)]: two arrays of shape [(len(y), len(x))], with
    [X[i, j] = x[j]] and [Y[i, j] = y[i]]. *)
Definition np_meshgrid (x y : list R) : array2 * array2 :=
  ({| nrows := length y; ncols := length x;
      elems := concat (map (λ _, x) y) |},
   {| nrows := length y; ncols := length x;
      elems := concat (map (λ yi, replicate (length x) yi) y) |}).

(** [A.flatten('F')]: column after column. *)
Definition flatten_F (A : array2) : list R :=
  concat (map (λ j, map (λ i, at2 A i j) (seq 0 (nrows A)))
              (seq 0 (ncols A))).

(** [A.T]. *)
Definition np_transpose (A : array2) : array2 :=
  {| nrows := ncols A; ncols := nrows A; elems := flatten_F A |}.

(** [np.transpose(np.vstack((a, b)))] for two flat arrays: the rows
    [(a[k], b[k])].  Arrays of different lengths cannot be stacked. *)
Definition np_vstack_T (a b : list R) : option (list point) :=
  guard (length a = length b);; Some (zip a b).

(** [np.reshape(v, (r, c))] for a flat array [v]. *)
Definition np_reshape (v : list R) (r c : nat) : option array2 :=
  guard (length v = (r * c)%nat);;
  Some {| nrows := r; ncols := c; elems := v |}.

(** [np.min(A, axis=0)], the minimum of each column, and
    [np.min(A, axis=1)], the minimum of each row.  A reduction along an
    axis of length zero raises. *)
Definition np_min_axis0 (A : array2) : option (list R) :=
  guard (0 < nrows A)%nat;;
  mapM (λ j, np_min (map (λ i, at2 A i j) (seq 0 (nrows A))))
       (seq 0 (ncols A)).

Definition np_min_axis1 (A : array2) : option (list R) :=
  guard (0 < ncols A)%nat;;
  mapM (λ i, np_min (map (λ j, at2 A i j) (seq 0 (ncols A))))
       (seq 0 (nrows A)).

(** The grid lines the two plotting functions share: [x], [y], the
    meshgrid [X], [Y] and the objective values [Z], reshaped to
    [(len(x), len(y))]. *)
Definition landscape (bound step : R) : option (array2 * array2 * array2) :=
  let x := np_arange bound step in
  let y := np_arange bound step in
  let '(X, Y) := np_meshgrid x y in
  pts ← np_vstack_T (flatten_F X) (flatten_F Y);
  Z ← myfun (Rows pts);
  Z ← np_reshape Z (length x) (length y);
  Some (X, Y, Z).

(** The lines under "Determine location of minimum". *)
Definition min_location (Z : array2) : option (nat * nat) :=
  rowMin ← np_min_axis0 Z;
  minj ← np_argmin rowMin;
  colMin ← np_min_axis1 Z;
  mini ← np_argmin colMin;
  Some (mini, minj).

(** What [plotPopulation2D] draws: the image [Z.T], the population as red
    dots, and a star at [(mini, minj)]. *)
Record figure2D : Type := {
  image : array2;
  dots : list point;
  star : nat * nat
}.

Definition plotPopulation2D (input : list point * R) : option figure2D :=
  let population := input.1 in
  xyz ← landscape input.2 1;
  let Z := xyz.2 in
  loc ← min_location Z;
  Some {| image := np_transpose Z; dots := population; star := loc |}.

(** What [plotPopulation3D] draws: the population as red dots one unit
    above the objective, and the surface given by [X], [Y] and [Z]. *)
Record figure3D : Type := {
  dots3 : list (R * R * R);
  surface : array2 * array2 * array2
}.

Definition plotPopulation3D (input : list point * R) : option figure3D :=
  let population := input.1 in
  xyz ← landscape input.2 0.5;
  h ← myfun (Rows population);
  Some {| dots3 := zip_with (λ p z, (p.1, p.2, z + 1)) population h;
          surface := xyz |}.

(** The arguments of the calls of [plotFun] in a run, in order. *)
Definition plot_inputs (events : list event) : list (list point * R) :=
  omap (λ e, match e with
             | Plot population bound => Some (population, bound)
             | _ => None
             end)
       events.

(** The script: [eggholderEA(myfun).optimize(plotPopulation2D)].  Its
    result is the list of figures drawn; it has none when the run or a
    plot fails. *)
Definition script (argsort : list R → list nat) (rand0 : list point)
    (gens : nat → draws) : option (list figure2D) :=
  let eggEA := init myfun in
  events ← optimize argsort eggEA rand0 gens;
  mapM plotPopulation2D (plot_inputs events).

(** A grid whose minimum value is taken in two cells. *)
Definition two_minima : array2 :=
  {| nrows := 2; ncols := 2; elems := [1; 0; 0; 1] |}.

(** ** Crossover in binary64

    NumPy carries out the arithmetic of [crossover] on float64 numbers.
    Here it is on Rocq's primitive binary64 floats, with every operation
    rounded as IEEE 754 prescribes, to tell which facts about the
    children depend on exact arithmetic. *)

#[local] Set Warnings "-inexact-float".

Abbreviation float64 := PrimFloat.float.

Definition point64 : Type := float64 * float64.

(** [np.clip(x, lo, hi)]: the larger of [x] and [lo], then the smaller of
    that and [hi]; a NaN on the left passes through. *)
Definition np_clip64 (x lo hi : float64) : float64 :=
  let m := if PrimFloat.is_nan x || PrimFloat.ltb lo x then x else lo in
  if PrimFloat.is_nan m || PrimFloat.ltb m hi then m else hi.

(** The lambda [lc] on one coordinate. *)
Definition lc64 (intMax x y w : float64) : float64 :=
  np_clip64 (x + w * (y - x))%float 0%float intMax.

(** [3 * np.random.rand(...) - 1] on one entry. *)
Definition weight64 (u : float64) : float64 := (3 * u - 1)%float.

Definition crossover64 (lambdaa : nat) (intMax : float64)
    (rand selected : list point64) : option (list point64) :=
  let weights := map (λ r : point64, (weight64 r.1, weight64 r.2)) rand in
  for_each (seq 0 lambdaa)
    (λ ii offspring,
       x ← selected !! (2 * ii)%nat;
       y ← selected !! (2 * ii + 1)%nat;
       w ← weights !! ii;
       Some (<[ii := (lc64 intMax x.1 y.1 w.1, lc64 intMax x.2 y.2 w.2)]>
               offspring))
    (replicate lambdaa (0%float, 0%float)).

(** A float that is a number: a zero or a finite value. *)
Definition finite64 (d : float64) : Prop :=
  match Prim2SF d with
  | S754_zero _ | S754_finite _ _ _ => True
  | _ => False
  end.

(** Two parents inside the domain and a draw whose weight is exactly
    [1]. *)
Definition rounding_parents : list point64 :=
  [(0.7, 0.7); (0.1, 0.1)]%float.

Definition rounding_draw : float64 := 0.6666666666666666%float.


(** * Properties *)

(** ** Objectives *)

Lemma lift_pointwise f : pointwise (lift f) f.
Proof. by split. Qed.

Lemma myfun_Row p : myfun (Row p) = Some [eggholder p].
Proof. reflexivity. Qed.

Lemma myfun_Rows m : myfun (Rows m) = Some (map eggholder m).
Proof.
  unfold myfun. destruct m as [|p [|q m]]; reflexivity.
Qed.

Lemma myfun_pointwise : pointwise myfun eggholder.
Proof. split; [apply myfun_Row | apply myfun_Rows]. Qed.

(** ** Arithmetic of the primitives *)

Lemma np_clip_bounds x lo hi : lo <= hi → lo <= np_clip x lo hi <= hi.
Proof.
  intros H. unfold np_clip, Rmin, Rmax.
  repeat destruct (Rle_dec _ _); lra.
Qed.

Lemma np_clip_id x lo hi : lo <= x <= hi → np_clip x lo hi = x.
Proof.
  intros H. unfold np_clip, Rmin, Rmax.
  repeat destruct (Rle_dec _ _); lra.
Qed.

Lemma clip_row_in_box B p : 0 <= B → in_box B (clip_row p 0 B).
Proof. intros H. split; apply np_clip_bounds; exact H. Qed.


Lemma np_sign_pos x : 0 < x → np_sign x = 1.
Proof. intros H. unfold np_sign. by rewrite decide_True. Qed.

Lemma np_sign_neg x : x < 0 → np_sign x = -1.
Proof.
  intros H. unfold np_sign.
  rewrite decide_False by lra. by rewrite decide_True.
Qed.

Lemma np_sign_zero : np_sign 0 = 0.
Proof. unfold np_sign. rewrite !decide_False by lra. reflexivity. Qed.

Lemma np_power_pos b e : 0 < b → 0 < np_power b e.
Proof.
  intros H. unfold np_power. rewrite decide_True by done.
  unfold Rpower. apply exp_pos.
Qed.

Lemma np_power_1_l e : np_power 1 e = 1.
Proof.
  unfold np_power. rewrite decide_True by lra.
  unfold Rpower. rewrite ln_1, Rmult_0_r. apply exp_0.
Qed.

Lemma np_power_1_r b : 0 < b → np_power b 1 = b.
Proof.
  intros H. unfold np_power. rewrite decide_True by done. by apply Rpower_1.
Qed.

Lemma np_power_0_r b : np_power b 0 = 1.
Proof.
  unfold np_power. case_decide.
  - by apply Rpower_O.
  - by rewrite decide_True.
Qed.

Lemma np_power_m1_r b : 0 < b → np_power b (-1) = / b.
Proof.
  intros H. unfold np_power. rewrite decide_True by done.
  replace (-1) with (- (1)) by lra.
  rewrite Rpower_Ropp, Rpower_1 by done. reflexivity.
Qed.

Lemma np_power_sign beta f :
  0 < beta → np_power beta (np_sign f) = sign_power beta f.
Proof.
  intros H. unfold sign_power, np_sign.
  repeat case_decide.
  - by apply np_power_1_r.
  - by apply np_power_m1_r.
  - apply np_power_0_r.
Qed.

Lemma np_sum_nonneg v : Forall (λ x, 0 <= x) v → 0 <= np_sum v.
Proof. induction 1; simpl; lra. Qed.

Lemma np_sum_lookup_le v i x :
  Forall (λ x, 0 <= x) v → v !! i = Some x → x <= np_sum v.
Proof.
  intros H. revert i. induction H as [|y v Hy Hv IH]; intros i Hi.
  - by rewrite lookup_nil in Hi.
  - destruct i as [|i]; simpl in *.
    + injection Hi as ->. pose proof (np_sum_nonneg v Hv). lra.
    + specialize (IH i Hi). lra.
Qed.

Lemma np_sum_filter (P : R → Prop) `{∀ d, Decision (P d)} (g : R → R) v :
  np_sum (map g (filter P v))
  = np_sum (map (λ d, if decide (P d) then g d else 0) v).
Proof.
  induction v as [|d v IH]; [reflexivity|].
  rewrite filter_cons. simpl. case_decide; simpl; rewrite IH; lra.
Qed.

(** ** Shared fitness *)

Lemma dist_self p : dist p p = 0.
Proof.
  unfold dist. replace ((p.1 - p.1)² + (p.2 - p.2)²) with 0.
  - apply sqrt_0.
  - unfold Rsqr. lra.
Qed.

Lemma dist_nonneg p q : 0 <= dist p q.
Proof. apply sqrt_pos. Qed.

Lemma calc_beta_niche_count self x population ind :
  population !! x = Some ind →
  calc_beta self x population = Some (niche_count self ind population).
Proof.
  intros Hx. unfold calc_beta. rewrite Hx. simpl. f_equal.
  rewrite (np_sum_filter (λ d, d < sigma self)).
  unfold niche_count, calc_distance. rewrite map_map. reflexivity.
Qed.

Lemma sh_pos self d : 0 < sigma self → d < sigma self → 0 < sh self d.
Proof.
  intros Hs Hd. apply np_power_pos.
  assert (d / sigma self < 1); [|lra].
  apply (Rmult_lt_reg_r (sigma self)); [done|].
  unfold Rdiv. rewrite Rmult_assoc, Rinv_l by lra. lra.
Qed.

Lemma sh_0 self : 0 < sigma self → sh self 0 = 1.
Proof.
  intros Hs. unfold sh. replace (1 - 0 / sigma self) with 1.
  - apply np_power_1_l.
  - unfold Rdiv. lra.
Qed.

Lemma niche_terms_nonneg self ind ref :
  0 < sigma self →
  Forall (λ x, 0 <= x)
    (map (λ o, if decide (dist ind o < sigma self)
               then sh self (dist ind o) else 0) ref).
Proof.
  intros Hs. apply Forall_map, Forall_forall. intros o _. simpl.
  case_decide; [|lra]. left. by apply sh_pos.
Qed.

Lemma niche_count_ge_1 self x population ind :
  0 < sigma self → population !! x = Some ind →
  1 <= niche_count self ind population.
Proof.
  intros Hs Hx. unfold niche_count.
  eapply np_sum_lookup_le; [by apply niche_terms_nonneg|].
  rewrite list_lookup_fmap, Hx. simpl.
  rewrite dist_self, decide_True by done. by rewrite sh_0.
Qed.

Lemma wrap_fitness_eq self x population ind f rest :
  population !! x = Some ind →
  objf self (Row ind) = Some (f :: rest) →
  wrap_fitness self x population
  = Some (f * np_power (niche_count self ind population) (np_sign f)).
Proof.
  intros Hx Hf. unfold wrap_fitness.
  rewrite (calc_beta_niche_count _ _ _ _ Hx). simpl.
  rewrite Hx. simpl. rewrite Hf. reflexivity.
Qed.

Lemma np_sum_single v i x :
  v !! i = Some x →
  (∀ j y, j ≠ i → v !! j = Some y → y = 0) →
  np_sum v = x.
Proof.
  revert i. induction v as [|y v IH]; intros i Hi H0.
  - by rewrite lookup_nil in Hi.
  - destruct i as [|i]; simpl in *.
    + injection Hi as ->.
      assert (np_sum v = 0) as ->; [|lra].
      clear IH. induction v as [|z v IHv]; [reflexivity|]. simpl.
      rewrite (H0 1%nat z) by done.
      rewrite IHv; [lra|]. intros [|j] w Hj Hw; [done|].
      by apply (H0 (S (S j))).
    + rewrite (H0 0%nat y) by done.
      rewrite (IH i); [lra | done |].
      intros j w Hj Hw. apply (H0 (S j)); [lia | done].
Qed.

Lemma sign_power_fix beta f :
  1 <= beta → f * sign_power beta f = f ↔ f = 0 ∨ beta = 1.
Proof.
  intros Hb. unfold sign_power. repeat case_decide.
  - split; [intros Hf; right; nra | intros [Hf| ->]; lra].
  - split.
    + intros Hf. right.
      assert (/ beta = 1) as Hi by nra.
      rewrite <- (Rinv_inv beta), Hi. lra.
    + intros [Hf| ->]; [lra|]. rewrite Rinv_1. lra.
  - split; [intros _; left; lra | intros _; lra].
Qed.

(** C3.  With [sigma > 0], the shared fitness of the individual at index
    [x] of a reference population is [f * beta ** sign f], where [f] is the
    first value the objective returns for it and [beta] sums
    [(1 - d/sigma) ** fitness_alpha] over the members closer than [sigma]
    (the others contribute nothing); the individual is a member, so
    [1 <= beta]; and for a reference population of size one the shared
    fitness is [f] itself. *)
Theorem wrap_fitness_shared self x population ind f rest :
  0 < sigma self →
  population !! x = Some ind →
  objf self (Row ind) = Some (f :: rest) →
  let beta := niche_count self ind population in
  calc_beta self x population = Some beta
  ∧ 1 <= beta
  ∧ wrap_fitness self x population = Some (f * np_power beta (np_sign f))
  ∧ np_power beta (np_sign f) = sign_power beta f
  ∧ (length population = 1%nat →
     beta = 1 ∧ wrap_fitness self x population = Some f).
Proof.
  intros Hs Hx Hf beta.
  assert (1 <= beta) as Hb by (by eapply niche_count_ge_1).
  split_and!.
  - by apply calc_beta_niche_count.
  - done.
  - by eapply wrap_fitness_eq.
  - apply np_power_sign. lra.
  - intros Hlen.
    destruct population as [|p [|q l]]; simplify_eq/=.
    destruct x as [|x]; simplify_eq/=.
    assert (beta = 1) as Hb1.
    { unfold beta, niche_count. simpl.
      rewrite dist_self, decide_True, sh_0 by done. lra. }
    split; [done|].
    rewrite (wrap_fitness_eq self 0 [ind] ind f rest) by done.
    fold beta. rewrite Hb1, np_power_1_l. f_equal. lra.
Qed.

Lemma wrap_fitness_shared_witness :
  let self := init myfun in
  0 < sigma self
  ∧ wrap_fitness self 0 [(0, 0)] = Some (eggholder (0, 0)).
Proof.
  assert (0 < sigma (init myfun)) as Hs by (simpl; lra).
  split; [exact Hs|].
  apply (wrap_fitness_shared (init myfun) 0 [(0, 0)] (0, 0)
           (eggholder (0, 0)) [] Hs eq_refl eq_refl).
  reflexivity.
Defined.

(** C7, as the code has it.  When every other member of the reference
    population is at distance at least [sigma], the niche count is [1] and
    the shared fitness is the raw objective value.  When every member is
    closer than [sigma], no member is filtered out: the niche count is the
    full sum of the shares, at least [1], and the shared fitness
    [f * beta ** sign f] equals the raw value only if [f = 0] or
    [beta = 1]. *)
Theorem shared_fitness_regimes self x population ind f rest :
  0 < sigma self →
  population !! x = Some ind →
  objf self (Row ind) = Some (f :: rest) →
  let beta := niche_count self ind population in
  ((∀ j o, j ≠ x → population !! j = Some o → sigma self <= dist ind o) →
     beta = 1 ∧ wrap_fitness self x population = Some f)
  ∧ ((∀ o, o ∈ population → dist ind o < sigma self) →
     beta = np_sum (map (λ o, sh self (dist ind o)) population)
     ∧ 1 <= beta
     ∧ wrap_fitness self x population = Some (f * sign_power beta f)
     ∧ (f * sign_power beta f = f ↔ f = 0 ∨ beta = 1)).
Proof.
  intros Hs Hx Hf beta. split.
  - intros Hfar.
    assert (beta = 1) as Hb1.
    { unfold beta, niche_count. apply (np_sum_single _ x).
      - rewrite list_lookup_fmap, Hx. simpl.
        rewrite dist_self, decide_True by done. by rewrite sh_0.
      - intros j y Hj. rewrite list_lookup_fmap.
        destruct (population !! j) as [o|] eqn:Ho; [|done]. simpl.
        intros [= <-]. rewrite decide_False; [done|].
        specialize (Hfar j o Hj Ho). lra. }
    split; [done|].
    rewrite (wrap_fitness_eq self x population ind f rest) by done.
    fold beta. rewrite Hb1, np_power_1_l. f_equal. lra.
  - intros Hnear.
    assert (1 <= beta) as Hb by (by eapply niche_count_ge_1).
    split_and!.
    + unfold beta, niche_count. f_equal. apply map_ext_in.
      intros o Ho. apply list_elem_of_In in Ho.
      by rewrite decide_True by (by apply Hnear).
    + done.
    + rewrite (wrap_fitness_eq self x population ind f rest) by done.
      fold beta. rewrite np_power_sign by lra. reflexivity.
    + by apply sign_power_fix.
Qed.

Lemma shared_fitness_regimes_witness :
  let self := init myfun in
  0 < sigma self
  ∧ wrap_fitness self 0 [(0, 0)] = Some (eggholder (0, 0)).
Proof.
  assert (0 < sigma (init myfun)) as Hs by (simpl; lra).
  split; [exact Hs|].
  apply (shared_fitness_regimes (init myfun) 0 [(0, 0)] (0, 0)
           (eggholder (0, 0)) [] Hs eq_refl eq_refl).
  intros [|j] o Hj Ho; [done | by destruct j].
Defined.

Lemma dist_3_4 : dist (0, 0) (3, 4) = 5.
Proof.
  unfold dist. simpl.
  replace ((0 - 3)² + (0 - 4)²) with (5 * 5) by (unfold Rsqr; lra).
  apply sqrt_square. lra.
Qed.

(** C7 fails in the wide-niche regime: with [sigma = 1000], beyond the
    diagonal of the [500] x [500] domain, two individuals [5] apart and an
    objective worth [1] at the first, the shared fitness of the first is
    not [1]. *)
Lemma wide_niche_counterexample :
  sqrt ((intMax wide_niche)² + (intMax wide_niche)²) < sigma wide_niche
  ∧ Forall (in_box (intMax wide_niche)) [(0, 0); (3, 4)]
  ∧ (∀ p q, p ∈ [(0, 0); (3, 4)] → q ∈ [(0, 0); (3, 4)] →
            dist p q < sigma wide_niche)
  ∧ objf wide_niche (Row (0, 0)) = Some [1]
  ∧ ∃ g, wrap_fitness wide_niche 0 [(0, 0); (3, 4)] = Some g ∧ g ≠ 1.
Proof.
  assert (dist (3, 4) (0, 0) = 5) as H43.
  { unfold dist. simpl.
    replace ((3 - 0)² + (4 - 0)²) with (5 * 5) by (unfold Rsqr; lra).
    apply sqrt_square. lra. }
  split_and!.
  - simpl. replace 1000 with (sqrt (1000 * 1000)) by (apply sqrt_square; lra).
    apply sqrt_lt_1_alt. unfold Rsqr. lra.
  - repeat constructor; simpl; lra.
  - intros p q Hp Hq. simpl.
    set_unfold in Hp. set_unfold in Hq.
    destruct Hp as [->|[->|[]]], Hq as [->|[->|[]]];
      rewrite ?dist_self, ?dist_3_4, ?H43; lra.
  - simpl. do 2 f_equal. lra.
  - eexists. split.
    + apply (wrap_fitness_eq wide_niche 0 _ (0, 0) 1 []); [done|].
      simpl. do 2 f_equal. lra.
    + rewrite np_sign_pos by lra.
      assert (1 < niche_count wide_niche (0, 0) [(0, 0); (3, 4)]) as Hb.
      { unfold niche_count. simpl map.
        rewrite dist_self, dist_3_4.
        rewrite !decide_True by (simpl; lra).
        rewrite sh_0 by (simpl; lra).
        assert (0 < sh wide_niche 5) by (apply sh_pos; simpl; lra).
        simpl. lra. }
      rewrite np_power_1_r by lra. lra.
Qed.

Lemma wrap_fitness_batch_only self f x population :
  objf self = batch_only f → wrap_fitness self x population = None.
Proof.
  intros Hf. unfold wrap_fitness, calc_beta.
  destruct (population !! x) as [ind|]; [|done]. simpl.
  rewrite Hf. reflexivity.
Qed.

Lemma selection_batch_only self f choices population :
  objf self = batch_only f →
  (0 < mu self)%nat →
  choices 0%nat ≠ [] →
  selection self choices population = None.
Proof.
  intros Hf Hmu Hne. unfold selection.
  destruct (mu self) as [|m]; [lia|].
  cbn [seq for_each].
  destruct (choices 0%nat) as [|x ri]; [done|].
  cbn [mapM]. by rewrite (wrap_fitness_batch_only self f).
Qed.

Lemma elimination_batch_only argsort self f pool keep :
  objf self = batch_only f →
  (0 < keep)%nat →
  (2 <= length pool)%nat →
  elimination argsort self pool keep = None.
Proof.
  intros Hf Hkeep Hpool. unfold elimination. rewrite Hf.
  cbn [batch_only mbind option_bind].
  destruct keep as [|keep]; [lia|].
  cbn [seq for_each].
  destruct (argsort (map f pool) !! 0%nat) as [p0|]; [|done].
  cbn [mbind option_bind].
  destruct (pool !! p0) as [row|] eqn:Hrow; [|done].
  cbn [mbind option_bind].
  assert (length (delete p0 pool) = (length pool - 1)%nat) as Hlen
    by (by apply length_delete).
  destruct (delete p0 pool) as [|cand rest]; [simpl in Hlen; lia|].
  cbn [length seq mapM lookup list_lookup mbind option_bind].
  by rewrite (wrap_fitness_batch_only self f).
Qed.

(** C8.  [wrap_fitness] hands the objective the single flat row
    [population[x, :]] and keeps the first element of what comes back: it
    returns a value exactly when the objective accepts that row and returns
    a non-empty array.  An objective that accepts batches only makes it
    fail, and selection and elimination with it; [myfun] accepts the flat
    row by reshaping it to a batch of one. *)
Theorem wrap_fitness_flat_row argsort self x population :
  (∀ g, wrap_fitness self x population = Some g ↔
        ∃ ind beta f rest,
          population !! x = Some ind
          ∧ calc_beta self x population = Some beta
          ∧ objf self (Row ind) = Some (f :: rest)
          ∧ g = f * np_power beta (np_sign f))
  ∧ (∀ f, objf self = batch_only f →
          wrap_fitness self x population = None
          ∧ (∀ choices, (0 < mu self)%nat → choices 0%nat ≠ [] →
                        selection self choices population = None)
          ∧ (∀ keep, (0 < keep)%nat → (2 <= length population)%nat →
                     elimination argsort self population keep = None))
  ∧ (∀ p, myfun (Row p) = myfun (Rows [p])
          ∧ myfun (Row p) = Some [eggholder p]).
Proof.
  split_and!.
  - intros g. unfold wrap_fitness, calc_beta. split.
    + destruct (population !! x) as [ind|] eqn:Hx; [|done]. simpl.
      destruct (objf self (Row ind)) as [[|f rest]|] eqn:Hf; [done| |done].
      simpl. intros [= <-]. by eexists ind, _, f, rest.
    + intros (ind & beta & f & rest & Hx & Hb & Hf & ->).
      rewrite Hx in *. simpl in *. injection Hb as ->.
      rewrite Hf. reflexivity.
  - intros f Hf. split_and!.
    + by eapply wrap_fitness_batch_only.
    + intros choices. by eapply selection_batch_only.
    + intros keep. by eapply elimination_batch_only.
  - intros p. split; reflexivity.
Qed.

(** ** Loops and indexed assignment *)

Lemma for_each_app {A S} (l1 l2 : list A) (body : A → S → option S) s :
  for_each (l1 ++ l2) body s = s' ← for_each l1 body s; for_each l2 body s'.
Proof.
  revert s. induction l1 as [|a l1 IH]; intros s; simpl.
  - reflexivity.
  - destruct (body a s) as [s'|]; simpl; [apply IH | reflexivity].
Qed.

(** A loop that assigns [out[i] = val i] for [i] in [range(n)]. *)
Lemma for_each_fill {A} (val : nat → option A) (body : nat → list A → option (list A))
    (n : nat) (a : list A) :
  (∀ i s, body i s = v ← val i; Some (<[i:=v]> s)) →
  length a = n →
  ∀ m, (m <= n)%nat →
  (∀ i, (i < m)%nat → is_Some (val i)) →
  ∃ out, for_each (seq 0 m) body a = Some out
         ∧ length out = n
         ∧ (∀ i, (i < m)%nat → out !! i = val i)
         ∧ (∀ i, (m <= i)%nat → out !! i = a !! i).
Proof.
  intros Hbody Hlen m. induction m as [|m IH]; intros Hm Hval.
  - exists a. split_and!; [done | done | intros; lia | done].
  - destruct IH as (out & Hout & Hl & Hlt & Hge); [lia | intros; apply Hval; lia |].
    destruct (Hval m) as [v Hv]; [lia|].
    exists (<[m:=v]> out). rewrite seq_S, for_each_app, Hout. simpl.
    rewrite Hbody, Hv. simpl. split_and!.
    + reflexivity.
    + by rewrite length_insert.
    + intros i Hi. destruct (decide (i = m)) as [->|Hne].
      * rewrite list_lookup_insert_eq by lia. done.
      * rewrite list_lookup_insert_ne by done. apply Hlt. lia.
    + intros i Hi. rewrite list_lookup_insert_ne by lia. apply Hge. lia.
Qed.

(** Conversely, a loop of this shape that ends has assigned every slot. *)
Lemma for_each_fill_inv {A} (val : nat → option A)
    (body : nat → list A → option (list A)) (a out : list A) (m : nat) :
  (∀ i s, body i s = v ← val i; Some (<[i:=v]> s)) →
  for_each (seq 0 m) body a = Some out →
  ∀ i, (i < m)%nat → is_Some (val i).
Proof.
  intros Hbody. revert out. induction m as [|m IH]; intros out Hout i Hi; [lia|].
  rewrite seq_S, for_each_app in Hout.
  destruct (for_each (seq 0 m) body a) as [s|] eqn:Hs; [|done].
  simpl in Hout. rewrite Hbody in Hout.
  destruct (val m) as [v|] eqn:Hv; [|done].
  destruct (decide (i = m)) as [->|Hne]; [by rewrite Hv|].
  eapply IH; [done | lia].
Qed.

Lemma np_where_spec mask i : i ∈ np_where mask ↔ mask !! i = Some true.
Proof.
  unfold np_where. rewrite list_elem_of_filter, elem_of_seq. split.
  - by intros [H _].
  - intros H. split; [done|].
    apply lookup_lt_Some in H. lia.
Qed.

Lemma np_where_NoDup mask : NoDup (np_where mask).
Proof. apply NoDup_filter, NoDup_seq. Qed.

Lemma np_where_all mask :
  Forall (λ b, b = true) mask → np_where mask = seq 0 (length mask).
Proof.
  intros H. unfold np_where.
  assert (∀ l : list nat, Forall (λ i, mask !! i = Some true) l →
                          filter (λ i, mask !! i = Some true) l = l) as Hf.
  { induction 1 as [|i l Hi Hl IH]; [done|].
    rewrite filter_cons, decide_True by done. by rewrite IH. }
  apply Hf, Forall_forall. intros i Hi%elem_of_seq.
  destruct (lookup_lt_is_Some_2 mask i) as [b Hb]; [lia|].
  rewrite Hb. f_equal.
  exact (Forall_lookup_1 (λ b, b = true) mask i b H Hb).
Qed.

Lemma np_where_none mask :
  Forall (λ b, b = false) mask → np_where mask = [].
Proof.
  intros H. apply elem_of_nil_inv. intros i Hi%np_where_spec.
  by pose proof (Forall_lookup_1 (λ b, b = false) mask i true H Hi).
Qed.

Lemma scatter_length a ii vals : length (scatter a ii vals) = length a.
Proof.
  unfold scatter. generalize (zip ii vals). intros l. revert a.
  induction l as [|iv l IH]; intros a; simpl; [done|].
  by rewrite IH, length_insert.
Qed.

Lemma scatter_lookup_notin a ii vals i :
  i ∉ ii → scatter a ii vals !! i = a !! i.
Proof.
  unfold scatter. revert a vals.
  induction ii as [|j ii IH]; intros a vals Hi; [done|].
  destruct vals as [|v vals]; [done|]. simpl.
  apply not_elem_of_cons in Hi as [Hne Hi].
  rewrite IH by done. by apply list_lookup_insert_ne.
Qed.

Lemma scatter_lookup_in a ii vals j i v :
  NoDup ii → ii !! j = Some i → vals !! j = Some v → (i < length a)%nat →
  scatter a ii vals !! i = Some v.
Proof.
  unfold scatter. revert a vals j.
  induction ii as [|i0 ii IH]; intros a vals j Hnd Hj Hv Hi; [done|].
  destruct vals as [|v0 vals]; [done|]. simpl.
  apply NoDup_cons in Hnd as [Hnotin Hnd].
  destruct j as [|j]; simpl in *.
  - simplify_eq. fold (scatter (<[i:=v]> a) ii vals).
    rewrite scatter_lookup_notin by done.
    by apply list_lookup_insert_eq.
  - eapply IH; [done | done | done | by rewrite length_insert].
Qed.

Lemma gather_Some a ii :
  Forall (λ i, (i < length a)%nat) ii →
  ∃ rows, gather a ii = Some rows
          ∧ length rows = length ii
          ∧ ∀ j i, ii !! j = Some i → rows !! j = a !! i.
Proof.
  intros H. unfold gather.
  destruct (mapM (λ i, a !! i) ii) as [rows|] eqn:Hg.
  - exists rows. apply mapM_Some in Hg. split_and!; [done | |].
    + symmetry. by eapply Forall2_length.
    + intros j i Hj.
      destruct (Forall2_lookup_l _ _ _ _ _ Hg Hj) as (r & Hr & Hri).
      by rewrite Hr, Hri.
  - exfalso. apply eq_None_not_Some in Hg. apply Hg, mapM_is_Some.
    eapply Forall_impl; [exact H|]. intros i Hi. simpl.
    by apply lookup_lt_is_Some_2.
Qed.

(** ** Mutation *)

Lemma mask_lookup_true alpha (rand : list R) i :
  map (λ r, bool_decide (r <= alpha)) rand !! i = Some true
  ↔ ∃ r, rand !! i = Some r ∧ r <= alpha.
Proof.
  rewrite list_lookup_fmap. destruct (rand !! i) as [r|]; simpl.
  - split.
    + intros [= H%bool_decide_eq_true]. by exists r.
    + intros (r' & [= <-] & H). f_equal. by apply bool_decide_eq_true.
  - split; [done | by intros (r & ? & _)].
Qed.

(** What the two indexed assignments of [mutation] leave in the array. *)
Lemma mutation_spec self rand randn l alpha h a :
  h !! l = Some a →
  length rand = length a →
  length randn = length (np_where (map (λ r, bool_decide (r <= alpha)) rand)) →
  ∃ a', mutation self rand randn l alpha h = Some (l, <[l := a']> h)
        ∧ length a' = length a
        ∧ (∀ j i z,
             np_where (map (λ r, bool_decide (r <= alpha)) rand) !! j = Some i →
             randn !! j = Some z →
             ∃ p, a !! i = Some p
                  ∧ a' !! i = Some (clip_row (padd p (pscale 10 z)) 0 (intMax self)))
        ∧ (∀ i, i ∉ np_where (map (λ r, bool_decide (r <= alpha)) rand) →
                a' !! i = a !! i).
Proof.
  intros Hl Hrand Hrandn.
  set (ii := np_where (map (λ r, bool_decide (r <= alpha)) rand)) in *.
  assert (Forall (λ i, (i < length a)%nat) ii) as Hii.
  { apply Forall_forall. intros i Hi%np_where_spec.
    apply lookup_lt_Some in Hi. rewrite length_map in Hi. lia. }
  assert (NoDup ii) as Hnd by apply np_where_NoDup.
  destruct (gather_Some a ii Hii) as (rows & Hrows & Hrlen & Hrget).
  set (a1 := scatter a ii (zip_with padd rows (map (pscale 10) randn))).
  assert (length a1 = length a) as Hlen1 by apply scatter_length.
  assert (Forall (λ i, (i < length a1)%nat) ii) as Hii1 by (by rewrite Hlen1).
  destruct (gather_Some a1 ii Hii1) as (rows1 & Hrows1 & Hrlen1 & Hrget1).
  set (a2 := scatter a1 ii (map (λ p, clip_row p 0 (intMax self)) rows1)).
  exists a2. split_and!.
  - unfold mutation. rewrite Hl. simpl.
    rewrite option_guard_True by done. simpl.
    fold ii. rewrite option_guard_True by done. simpl.
    rewrite Hrows. cbn [mbind option_bind].
    rewrite lookup_insert_eq. cbn [mbind option_bind].
    fold a1. rewrite Hrows1. cbn [mbind option_bind].
    by rewrite insert_insert_eq.
  - unfold a2. by rewrite scatter_length.
  - intros j i z Hj Hz.
    pose proof (Forall_lookup_1 _ ii j i Hii Hj) as Hi. simpl in Hi.
    destruct (lookup_lt_is_Some_2 a i Hi) as [p Hp].
    exists p. split; [done|].
    assert (a1 !! i = Some (padd p (pscale 10 z))) as Ha1.
    { unfold a1. eapply scatter_lookup_in; [done | done | | done].
      rewrite lookup_zip_with, (Hrget j i Hj), Hp. simpl.
      rewrite list_lookup_fmap, Hz. reflexivity. }
    unfold a2. eapply scatter_lookup_in; [done | done | | lia].
    rewrite list_lookup_fmap, (Hrget1 j i Hj), Ha1. reflexivity.
  - intros i Hi. unfold a2, a1. by rewrite !scatter_lookup_notin.
Qed.

Lemma for_each_inv {A S} (P : S → Prop) (l : list A) (body : A → S → option S) :
  (∀ a s s', a ∈ l → P s → body a s = Some s' → P s') →
  ∀ s s', P s → for_each l body s = Some s' → P s'.
Proof.
  induction l as [|a l IH]; intros Hstep s s' Hs Hrun; simpl in Hrun.
  - by injection Hrun as <-.
  - destruct (body a s) as [s1|] eqn:Hb; [|done]. simpl in Hrun.
    eapply (IH (λ a0 s0 s0' Ha0, Hstep a0 s0 s0' (list_elem_of_further _ _ _ Ha0)));
      [|exact Hrun].
    eapply Hstep; [apply list_elem_of_here | exact Hs | exact Hb].
Qed.

(** C6, as the code has it.  Row [i] is mutated exactly when its draw
    [rand[i]] is at most [alpha]; a mutated row gets one row of noise,
    scaled by [10], added to both coordinates and is clipped, and every other
    row keeps its value.  So with [alpha = 1] every row is perturbed, and
    with [alpha = 0] the array is returned unchanged provided no draw is
    exactly [0]. *)
Theorem mutation_by_draw self rand randn l alpha h a :
  h !! l = Some a →
  length rand = length a →
  length randn = length (np_where (map (λ r, bool_decide (r <= alpha)) rand)) →
  ∃ a', mutation self rand randn l alpha h = Some (l, <[l := a']> h)
        ∧ length a' = length a
        ∧ (alpha = 0 → Forall (λ r, 0 < r) rand → a' = a)
        ∧ (alpha = 1 → Forall unit_interval rand →
           ∀ i p, a !! i = Some p →
                  ∃ z, randn !! i = Some z
                       ∧ a' !! i = Some (clip_row (padd p (pscale 10 z)) 0 (intMax self)))
        ∧ (∀ i r p, rand !! i = Some r → a !! i = Some p →
             (r <= alpha →
              ∃ z, z ∈ randn
                   ∧ a' !! i = Some (clip_row (padd p (pscale 10 z)) 0 (intMax self)))
             ∧ (alpha < r → a' !! i = Some p)).
Proof.
  intros Hl Hrand Hrandn.
  destruct (mutation_spec self rand randn l alpha h a Hl Hrand Hrandn)
    as (a' & Hrun & Hlen & Hin & Hout).
  exists a'. split_and!; [done | done | | |].
  - intros -> Hpos. apply list_eq. intros i. apply Hout.
    rewrite np_where_none; [apply not_elem_of_nil|].
    apply Forall_map. eapply Forall_impl; [exact Hpos|].
    intros r Hr. simpl. apply bool_decide_eq_false. lra.
  - intros -> Hunit i p Hp.
    assert (np_where (map (λ r, bool_decide (r <= 1)) rand)
            = seq 0 (length rand)) as Hall.
    { rewrite np_where_all; [by rewrite length_map|].
      apply Forall_map. eapply Forall_impl; [exact Hunit|].
      intros r [_ Hr]. simpl. apply bool_decide_eq_true. lra. }
    rewrite Hall in *. rewrite length_seq in Hrandn.
    assert ((i < length a)%nat) as Hi by (by eapply lookup_lt_Some).
    destruct (lookup_lt_is_Some_2 randn i) as [z Hz]; [lia|].
    exists z. split; [done|].
    destruct (Hin i i z) as (p' & Hp' & Ha'); [by apply lookup_seq_lt; lia | done |].
    by simplify_eq.
  - intros i r p Hr Hp. split.
    + intros Hle.
      assert (i ∈ np_where (map (λ r, bool_decide (r <= alpha)) rand)) as Hi.
      { apply np_where_spec, mask_lookup_true. by exists r. }
      apply list_elem_of_lookup in Hi as [j Hj].
      destruct (lookup_lt_is_Some_2 randn j) as [z Hz].
      { rewrite Hrandn. by eapply lookup_lt_Some. }
      exists z. split; [by eapply list_elem_of_lookup_2|].
      destruct (Hin j i z Hj Hz) as (p' & Hp' & Ha'). by simplify_eq.
    + intros Hlt. rewrite Hout; [done|].
      intros (r' & Hr' & Hle)%np_where_spec%mask_lookup_true.
      simplify_eq. lra.
Qed.

Lemma mutation_by_draw_witness :
  ∃ a', mutation (init myfun) [0.5] [] 0%nat 0 {[ 0%nat := [(1, 1)] ]}
        = Some (0%nat, <[0%nat := a']> {[ 0%nat := [(1, 1)] ]})
        ∧ a' = [(1, 1)].
Proof.
  assert (np_where (map (λ r, bool_decide (r <= 0)) [0.5]) = []) as Hnone.
  { apply np_where_none. repeat constructor.
    apply bool_decide_eq_false. lra. }
  destruct (mutation_by_draw (init myfun) [0.5] [] 0%nat 0
              {[ 0%nat := [(1, 1)] ]} [(1, 1)])
    as (a' & Hrun & _ & Hzero & _).
  - apply lookup_singleton_eq.
  - reflexivity.
  - by rewrite Hnone.
  - exists a'. split; [exact Hrun|].
    apply Hzero; [reflexivity|]. repeat constructor. lra.
Defined.

(** C6 fails when a draw is exactly [0]: [0 <= 0], so with [alpha = 0]
    the row is mutated all the same. *)
Lemma mutation_zero_alpha_counterexample :
  unit_interval 0
  ∧ mutation (init myfun) [0] [(1, 1)] 0%nat 0 {[ 0%nat := [(1, 1)] ]}
    = Some (0%nat, {[ 0%nat := [(11, 11)] ]})
  ∧ [(11, 11)] ≠ [((1, 1) : point)].
Proof.
  assert (np_where (map (λ r, bool_decide (r <= 0)) [0]) = [0%nat]) as Hall.
  { rewrite np_where_all; [reflexivity|]. repeat constructor.
    apply bool_decide_eq_true. lra. }
  split_and!.
  - unfold unit_interval. lra.
  - destruct (mutation_spec (init myfun) [0] [(1, 1)] 0%nat 0
                {[ 0%nat := [(1, 1)] ]} [(1, 1)])
      as (a' & Hrun & Hlen & Hin & _).
    + apply lookup_singleton_eq.
    + reflexivity.
    + by rewrite Hall.
    + rewrite Hrun, insert_singleton_eq. do 3 f_equal.
      rewrite Hall in Hin.
      destruct (Hin 0%nat 0%nat (1, 1) eq_refl eq_refl) as (p & [= <-] & Ha').
      destruct a' as [|q [|q' a']]; simplify_eq/=.
      unfold clip_row, padd, pscale. simpl.
      rewrite !np_clip_id by lra. do 2 f_equal; lra.
  - intros [= H _]. lra.
Qed.

(** C9.  [mutation] returns the very reference it was given; the heap
    holds no new object afterwards and every other object is as before.
    The referenced array itself has been overwritten: every row whose draw
    is at most [alpha] has a noise row of its own, the [j]-th such row the
    [j]-th noise row, and now holds its old value plus ten times that
    noise, clipped; the rows whose draw exceeds [alpha] hold the values
    they held. *)
Theorem mutation_in_place self rand randn offspring alpha h a :
  h !! offspring = Some a →
  length rand = length a →
  length randn = length (np_where (map (λ r, bool_decide (r <= alpha)) rand)) →
  ∃ h', mutation self rand randn offspring alpha h = Some (offspring, h')
        ∧ dom h' = dom h
        ∧ (∀ l, l ≠ offspring → h' !! l = h !! l)
        ∧ ∃ a', h' !! offspring = Some a'
                ∧ length a' = length a
                ∧ (∀ i r, rand !! i = Some r → alpha < r → a' !! i = a !! i)
                ∧ (∀ i r, rand !! i = Some r → r <= alpha →
                     ∃ j z,
                       np_where (map (λ r, bool_decide (r <= alpha)) rand) !! j
                       = Some i
                       ∧ randn !! j = Some z)
                ∧ (∀ j i z,
                     np_where (map (λ r, bool_decide (r <= alpha)) rand) !! j
                     = Some i →
                     randn !! j = Some z →
                     ∃ p, a !! i = Some p
                          ∧ a' !! i
                            = Some (clip_row (padd p (pscale 10 z)) 0
                                             (intMax self))).
Proof.
  intros Hl Hrand Hrandn.
  destruct (mutation_spec self rand randn offspring alpha h a Hl Hrand Hrandn)
    as (a' & Hrun & Hlen & Hin & Hout).
  exists (<[offspring := a']> h). split_and!.
  - exact Hrun.
  - by apply dom_insert_lookup_L.
  - intros l Hne. by rewrite lookup_insert_ne.
  - exists a'. split_and!; [apply lookup_insert_eq | done | | |].
    + intros i r Hr Hlt. apply Hout.
      intros (r' & Hr' & Hle)%np_where_spec%mask_lookup_true.
      simplify_eq. lra.
    + intros i r Hr Hle.
      assert (i ∈ np_where (map (λ r, bool_decide (r <= alpha)) rand)) as Hi.
      { apply np_where_spec, mask_lookup_true. by exists r. }
      apply list_elem_of_lookup in Hi as [j Hj].
      destruct (lookup_lt_is_Some_2 randn j) as [z Hz].
      { rewrite Hrandn. by eapply lookup_lt_Some. }
      by exists j, z.
    + exact Hin.
Qed.

Lemma mutation_in_place_witness :
  ∃ h', mutation (init myfun) [0] [(1, 1)] 0%nat 0.05 {[ 0%nat := [(1, 1)] ]}
        = Some (0%nat, h')
        ∧ dom h' = dom ({[ 0%nat := [(1, 1)] ]} : heap)
        ∧ h' !! 0%nat = Some [(11, 11)].
Proof.
  assert (np_where (map (λ r, bool_decide (r <= 0.05)) [0]) = [0%nat]) as Hall.
  { rewrite np_where_all; [reflexivity|]. repeat constructor.
    apply bool_decide_eq_true. lra. }
  destruct (mutation_in_place (init myfun) [0] [(1, 1)] 0%nat 0.05
              {[ 0%nat := [(1, 1)] ]} [(1, 1)])
    as (h' & Hrun & Hdom & _ & a' & Ha' & Hlen & _ & _ & Hin).
  - apply lookup_singleton_eq.
  - reflexivity.
  - by rewrite Hall.
  - exists h'. split_and!; [done | done |].
    etrans; [exact Ha'|]. f_equal. rewrite Hall in Hin.
    destruct (Hin 0%nat 0%nat (1, 1) eq_refl eq_refl) as (p & Hp & Hrow).
    injection Hp as <-.
    destruct a' as [|q [|q' a']]; simplify_eq/=.
    unfold clip_row, padd, pscale. simpl.
    rewrite !np_clip_id by lra. do 2 f_equal; lra.
Defined.

(** ** Crossover *)

Lemma crossover_spec self rand selected :
  length rand = lambdaa self →
  (2 * lambdaa self <= length selected)%nat →
  ∃ offspring,
    crossover self rand selected = Some offspring
    ∧ length offspring = lambdaa self
    ∧ ∀ i, (i < lambdaa self)%nat →
        ∃ p1 p2 u,
          selected !! (2 * i)%nat = Some p1
          ∧ selected !! (2 * i + 1)%nat = Some p2
          ∧ rand !! i = Some u
          ∧ offspring !! i = Some (lc self p1 p2 (3 * u.1 - 1, 3 * u.2 - 1)).
Proof.
  intros Hrand Hsel. unfold crossover.
  set (val := λ ii : nat,
         x ← selected !! (2 * ii)%nat;
         y ← selected !! (2 * ii + 1)%nat;
         w ← map (λ r : point, (3 * r.1 - 1, 3 * r.2 - 1)) rand !! ii;
         Some (lc self x y w)).
  assert (∀ i, (i < lambdaa self)%nat →
            ∃ p1 p2 u, selected !! (2 * i)%nat = Some p1
                       ∧ selected !! (2 * i + 1)%nat = Some p2
                       ∧ rand !! i = Some u
                       ∧ val i = Some (lc self p1 p2 (3 * u.1 - 1, 3 * u.2 - 1)))
    as Hval.
  { intros i Hi.
    destruct (lookup_lt_is_Some_2 selected (2 * i)) as [p1 Hp1]; [lia|].
    destruct (lookup_lt_is_Some_2 selected (2 * i + 1)) as [p2 Hp2]; [lia|].
    destruct (lookup_lt_is_Some_2 rand i) as [u Hu]; [lia|].
    exists p1, p2, u. split_and!; [done..|].
    unfold val. rewrite Hp1, Hp2, list_lookup_fmap, Hu. reflexivity. }
  destruct (for_each_fill val
              (λ ii offspring,
                 x ← selected !! (2 * ii)%nat;
                 y ← selected !! (2 * ii + 1)%nat;
                 w ← map (λ r : point, (3 * r.1 - 1, 3 * r.2 - 1)) rand !! ii;
                 Some (<[ii := lc self x y w]> offspring))
              (lambdaa self) (replicate (lambdaa self) (0, 0)))
    with (m := lambdaa self) as (out & Hout & Hlen & Hlt & _).
  - intros i s. unfold val.
    destruct (selected !! (2 * i)%nat); [|done].
    destruct (selected !! (2 * i + 1)%nat); [|done].
    by destruct (map _ rand !! i).
  - apply length_replicate.
  - lia.
  - intros i Hi. destruct (Hval i Hi) as (p1 & p2 & u & _ & _ & _ & ->). eauto.
  - exists out. split_and!; [done | done |].
    intros i Hi. destruct (Hval i Hi) as (p1 & p2 & u & H1 & H2 & Hu & Hv).
    exists p1, p2, u. split_and!; [done..|]. by rewrite Hlt.
Qed.

(** Comparison and addition on binary64, through their specification. *)

Lemma SFcompare_zero_l s1 s2 t :
  SFcompare (S754_zero s1) t = SFcompare (S754_zero s2) t.
Proof. by destruct t. Qed.

Lemma SFcompare_zero_r s1 s2 t :
  SFcompare t (S754_zero s1) = SFcompare t (S754_zero s2).
Proof. by destruct t. Qed.

Lemma SFcompare_refl a : a ≠ S754_nan → SFcompare a a = Some Eq.
Proof.
  destruct a as [s|s| |s m e]; simpl; intros Hn; try done.
  - by destruct s.
  - rewrite Z.compare_refl, Pos.compare_cont_refl. by destruct s.
Qed.

Lemma SFcompare_Eq_sym a b : SFcompare a b = Some Eq → SFcompare b a = Some Eq.
Proof.
  destruct a as [sa|sa| |sa ma ea], b as [sb|sb| |sb mb eb]; simpl;
    try done; try (by destruct sa); try (by destruct sb);
    try (by destruct sa, sb).
  destruct sa, sb; try done; destruct (ea ?= eb)%Z eqn:He; try done;
    apply Z.compare_eq in He; subst eb; rewrite Z.compare_refl;
    intros [= Hm].
  - destruct (Pos.compare_cont Eq ma mb) eqn:Hc; try done.
    apply Pos.compare_eq in Hc. subst mb. by rewrite Pos.compare_cont_refl.
  - apply Pos.compare_eq in Hm. subst mb. by rewrite Pos.compare_cont_refl.
Qed.

(** In binary64 the weight [0] gives back the first parent: [0 * d] is a
    zero for a finite [d], adding a zero changes no number, and clipping
    leaves a number inside the bounds alone.  The result may be [+0] where
    the parent is [-0]; the two compare equal. *)
Lemma lc64_zero_weight (B x y : float64) :
  PrimFloat.leb 0 x = true →
  PrimFloat.leb x B = true →
  finite64 (y - x)%float →
  PrimFloat.eqb (lc64 B x y 0) x = true.
Proof.
  intros H0 HB Hd.
  rewrite leb_spec in H0, HB. unfold SFleb in H0, HB.
  change (Prim2SF 0) with (S754_zero false) in H0.
  assert (Prim2SF x ≠ S754_nan) as Hx.
  { intros Hn. rewrite Hn in H0. done. }
  pose proof (SFcompare_refl _ Hx) as Hxx.
  unfold lc64, np_clip64.
  set (s := (x + 0 * (y - x))%float).
  assert (∀ t, SFcompare (Prim2SF s) t = SFcompare (Prim2SF x) t
               ∧ SFcompare t (Prim2SF s) = SFcompare t (Prim2SF x)) as HS.
  { intros t. unfold s. rewrite add_spec, mul_spec.
    change (Prim2SF 0) with (S754_zero false).
    unfold finite64 in Hd.
    destruct (Prim2SF (y - x)) as [sd|sd| |sd md ed]; try done;
      cbn [SF64mul SFmul];
      (destruct (Prim2SF x) as [sx|sx| |sx mx ex]; [|done|done|done]);
      destruct sx, sd; cbn; split;
        first [apply SFcompare_zero_l | apply SFcompare_zero_r | done]. }
  assert (PrimFloat.is_nan s = false) as Hns.
  { unfold PrimFloat.is_nan. rewrite FloatAxioms.eqb_spec. unfold SFeqb.
    rewrite (proj1 (HS _)), (proj2 (HS _)), Hxx. done. }
  cbv zeta. rewrite Hns. cbn [orb].
  rewrite (ltb_spec 0 s).
  set (m := if SFltb (Prim2SF 0) (Prim2SF s) then s else 0%float).
  assert (∀ t, SFcompare (Prim2SF m) t = SFcompare (Prim2SF x) t
               ∧ SFcompare t (Prim2SF m) = SFcompare t (Prim2SF x)) as HM.
  { intros t. unfold m, SFltb.
    change (Prim2SF 0) with (S754_zero false). rewrite (proj2 (HS _)).
    destruct (SFcompare (S754_zero false) (Prim2SF x)) as [[| |]|] eqn:Hc;
      [|apply HS|done|done].
    change (Prim2SF 0) with (S754_zero false).
    destruct (Prim2SF x) as [sx|sx| |sx mx ex]; simpl in Hc;
      try done; by destruct sx. }
  assert (PrimFloat.is_nan m = false) as Hnm.
  { unfold PrimFloat.is_nan. rewrite FloatAxioms.eqb_spec. unfold SFeqb.
    rewrite (proj1 (HM _)), (proj2 (HM _)), Hxx. done. }
  rewrite Hnm. cbn [orb].
  rewrite (ltb_spec m B). unfold SFltb. rewrite (proj1 (HM _)).
  rewrite FloatAxioms.eqb_spec. unfold SFeqb.
  destruct (SFcompare (Prim2SF x) (Prim2SF B)) as [[| |]|] eqn:Hc; try done.
  - by rewrite (SFcompare_Eq_sym _ _ Hc).
  - by rewrite (proj1 (HM _)), Hxx.
Qed.

(** C5, as the code has it.  A parent pool of [2 * lambdaa] rows is
    consumed as the consecutive pairs [(selected[2i], selected[2i+1])];
    child [i] is [clip(p1 + w * (p2 - p1), 0, intMax)] coordinate by
    coordinate, with [w = 3 * rand[i] - 1].  For a first parent inside the
    domain the weight [(0,0)] gives back the first parent, and it does so
    in binary64 as well, whatever the rounding.  The weight [(1,1)] gives
    [clip(p1 + (p2 - p1), 0, intMax)]; that this is the second parent is
    not stated, because in binary64 the sum [p1 + (p2 - p1)] is rounded
    and need not be [p2]. *)
Theorem crossover_pairs self rand selected :
  length rand = lambdaa self →
  length selected = (2 * lambdaa self)%nat →
  (∃ offspring,
     crossover self rand selected = Some offspring
     ∧ length offspring = lambdaa self
     ∧ ∀ i, (i < lambdaa self)%nat →
         ∃ p1 p2 u,
           selected !! (2 * i)%nat = Some p1
           ∧ selected !! (2 * i + 1)%nat = Some p2
           ∧ rand !! i = Some u
           ∧ let w : point := (3 * u.1 - 1, 3 * u.2 - 1) in
             offspring !! i
             = Some (np_clip (p1.1 + w.1 * (p2.1 - p1.1)) 0 (intMax self),
                     np_clip (p1.2 + w.2 * (p2.2 - p1.2)) 0 (intMax self))
             ∧ (w = (0, 0) → in_box (intMax self) p1 →
                offspring !! i = Some p1)
             ∧ (w = (1, 1) →
                offspring !! i
                = Some (np_clip (p1.1 + (p2.1 - p1.1)) 0 (intMax self),
                        np_clip (p1.2 + (p2.2 - p1.2)) 0 (intMax self))))
  ∧ (∀ B x y : float64,
       PrimFloat.leb 0 x = true →
       PrimFloat.leb x B = true →
       finite64 (y - x)%float →
       PrimFloat.eqb (lc64 B x y 0) x = true).
Proof.
  intros Hrand Hsel. split; [|apply lc64_zero_weight].
  destruct (crossover_spec self rand selected Hrand) as (out & Hout & Hlen & Hrows);
    [lia|].
  exists out. split_and!; [done | done |].
  intros i Hi. destruct (Hrows i Hi) as (p1 & p2 & u & H1 & H2 & Hu & Hv).
  exists p1, p2, u. split_and!; [done..|]. simpl. split_and!.
  - exact Hv.
  - intros [= Hw1 Hw2] [Hb1 Hb2]. etrans; [exact Hv|]. f_equal.
    unfold lc, clip_row, padd, pmul, psub. simpl. rewrite Hw1, Hw2.
    destruct p1 as [a b], p2 as [c d]. simpl in Hb1, Hb2 |- *.
    f_equal; (rewrite np_clip_id by lra); lra.
  - intros [= Hw1 Hw2]. etrans; [exact Hv|]. f_equal.
    unfold lc, clip_row, padd, pmul, psub. simpl. rewrite Hw1, Hw2.
    by rewrite !Rmult_1_l.
Qed.

Lemma crossover_pairs_witness :
  let self := wide_niche in
  (∃ offspring,
     crossover self [(0, 0); (0, 0)] [(1, 1); (2, 2); (3, 3); (4, 4)]
     = Some offspring
     ∧ length offspring = 2%nat)
  ∧ PrimFloat.eqb (lc64 500 0.7 0.1 0) 0.7 = true.
Proof.
  destruct (crossover_pairs wide_niche [(0, 0); (0, 0)]
              [(1, 1); (2, 2); (3, 3); (4, 4)] eq_refl eq_refl)
    as [(offspring & Hrun & Hlen & _) Hfloat].
  split.
  - exists offspring. by split.
  - apply Hfloat; [reflexivity | reflexivity | by vm_compute].
Defined.

(** C5 fails on the second parent.  The draw [0.6666666666666666] lies in
    [[0, 1)] and its weight [3 * u - 1] is exactly [1] in binary64.  With
    parents [0.7] and [0.1], both inside the domain, the child is
    [0.7 + 1 * (0.1 - 0.7)], which rounds to [0.09999999999999998], not to
    [0.1]: the second parent is not reproduced. *)
Lemma crossover_rounding_counterexample :
  PrimFloat.leb 0 rounding_draw = true
  ∧ PrimFloat.ltb rounding_draw 1 = true
  ∧ weight64 rounding_draw = 1%float
  ∧ rounding_parents = [(0.7, 0.7); (0.1, 0.1)]%float
  ∧ PrimFloat.leb 0 0.1 = true
  ∧ PrimFloat.leb 0.7 500 = true
  ∧ crossover64 1 500 [(rounding_draw, rounding_draw)] rounding_parents
    = Some [(0.09999999999999998, 0.09999999999999998)%float]
  ∧ PrimFloat.eqb 0.09999999999999998 0.1 = false.
Proof. vm_compute. by split_and!. Qed.

(** ** The initial population *)

Lemma optimize_first_event argsort self rand0 gens events :
  optimize argsort self rand0 gens = Some events →
  head events = Some (Plot (initial_population self rand0) (intMax self)).
Proof.
  unfold optimize. intros Hrun.
  destruct (for_each _ _ _) as [st|] eqn:Hloop; [|done].
  injection Hrun as <-.
  assert (head st.2 = Some (Plot (initial_population self rand0) (intMax self)))
    as Hhead.
  { revert Hloop.
    apply (for_each_inv
             (λ s : list point * list event,
                head s.2 = Some (Plot (initial_population self rand0)
                                      (intMax self))));
      [|reflexivity].
    intros i s s' _ Hs Hbody. simpl in Hbody.
    destruct (generation argsort self (gens i) s.1) as [r|]; [|done].
    injection Hbody as <-. simpl.
    destruct (s.2); [done | exact Hs]. }
  destruct (st.2); [done | exact Hhead].
Qed.

(** C10.  With a positive bound, every coordinate of the initial
    population [intMax * rand] lies in [[0, intMax)): none equals the
    bound.  This is the population a run reports first. *)
Theorem initial_population_half_open argsort self rand0 gens :
  0 < intMax self →
  rand2_ok (lambdaa self) rand0 →
  length (initial_population self rand0) = lambdaa self
  ∧ Forall (λ p, (0 <= p.1 < intMax self) ∧ (0 <= p.2 < intMax self))
           (initial_population self rand0)
  ∧ ∀ events, optimize argsort self rand0 gens = Some events →
              head events
              = Some (Plot (initial_population self rand0) (intMax self)).
Proof.
  intros HB [Hlen Hu]. unfold initial_population. split_and!.
  - by rewrite length_map.
  - apply Forall_map. eapply Forall_impl; [exact Hu|].
    intros [a b] [[Ha1 Ha2] [Hb1 Hb2]]. simpl in *. nra.
  - intros events. apply optimize_first_event.
Qed.

(** ** Tournament selection *)

Lemma argmin_from_spec (v pre : list R) best bi :
  pre !! bi = Some best →
  (∀ j y, pre !! j = Some y → best <= y) →
  (∀ j y, (j < bi)%nat → pre !! j = Some y → best < y) →
  ∃ m, (pre ++ v) !! argmin_from best bi (length pre) v = Some m
       ∧ (∀ j y, (pre ++ v) !! j = Some y → m <= y)
       ∧ (∀ j y, (j < argmin_from best bi (length pre) v)%nat →
                 (pre ++ v) !! j = Some y → m < y).
Proof.
  revert pre best bi. induction v as [|x v IH]; intros pre best bi Hbi Hmin Hfirst.
  - simpl. rewrite app_nil_r. eauto.
  - simpl. replace (pre ++ x :: v) with ((pre ++ [x]) ++ v)
      by (by rewrite <- app_assoc).
    replace (S (length pre)) with (length (pre ++ [x]))
      by (rewrite length_app; simpl; lia).
    case_decide as Hlt.
    + apply IH.
      * by rewrite lookup_app_r, Nat.sub_diag.
      * intros j y Hj. apply lookup_app_Some in Hj as [Hj|[_ Hj]].
        -- specialize (Hmin j y Hj). lra.
        -- apply list_lookup_singleton_Some in Hj as [_ <-]. lra.
      * intros j y Hj Hy. rewrite lookup_app_l in Hy by done.
        specialize (Hmin j y Hy). lra.
    + apply IH.
      * rewrite lookup_app_l; [done|]. by eapply lookup_lt_Some.
      * intros j y Hj. apply lookup_app_Some in Hj as [Hj|[_ Hj]].
        -- by eapply Hmin.
        -- apply list_lookup_singleton_Some in Hj as [_ <-]. lra.
      * intros j y Hj Hy.
        assert ((bi < length pre)%nat) by (by eapply lookup_lt_Some).
        rewrite lookup_app_l in Hy by lia. by eapply Hfirst.
Qed.

(** [np.argmin] returns the first index that holds the minimum. *)
Lemma np_argmin_spec v :
  v ≠ [] →
  ∃ i m, np_argmin v = Some i
         ∧ v !! i = Some m
         ∧ (∀ j y, v !! j = Some y → m <= y)
         ∧ (∀ j y, (j < i)%nat → v !! j = Some y → m < y).
Proof.
  destruct v as [|x v]; [done|]. intros _.
  destruct (argmin_from_spec v [x] x 0) as (m & Hm & Hmin & Hfirst).
  - reflexivity.
  - intros [|j] y Hj; simplify_eq/=. lra.
  - intros j y Hj. lia.
  - exists (argmin_from x 0 1 v), m. by split_and!.
Qed.

Lemma wrap_fitness_pointwise self f x population ind :
  pointwise (objf self) f →
  population !! x = Some ind →
  wrap_fitness self x population = Some (shared_fitness self f ind population).
Proof.
  intros [Hrow _] Hx. by eapply wrap_fitness_eq.
Qed.

Lemma mapM_lookup_Some {A B} (f : A → option B) (g : A → B) (l : list A) :
  (∀ x, x ∈ l → f x = Some (g x)) → mapM f l = Some (map g l).
Proof.
  intros H. apply mapM_Some. induction l as [|a l IH]; simpl; constructor.
  - apply H, list_elem_of_here.
  - apply IH. intros x Hx. by apply H, list_elem_of_further.
Qed.

(** One tournament: the fitness list of the sampled indices and the
    winner [population[ri[np.argmin(g)]]]. *)
Lemma tournament_spec self f population ri :
  pointwise (objf self) f →
  ri ≠ [] →
  Forall (λ i, (i < length population)%nat) ri →
  ∃ m r row,
    mapM (λ x, wrap_fitness self x population) ri
    = Some (map (λ x, shared_fitness self f (population !!! x) population) ri)
    ∧ np_argmin (map (λ x, shared_fitness self f (population !!! x) population) ri)
      = Some m
    ∧ ri !! m = Some r
    ∧ population !! r = Some row
    ∧ (∀ j r' row', ri !! j = Some r' → population !! r' = Some row' →
         shared_fitness self f row population
         <= shared_fitness self f row' population
         ∧ ((j < m)%nat →
            shared_fitness self f row population
            < shared_fitness self f row' population)).
Proof.
  intros Hf Hne Hri.
  set (g := map (λ x, shared_fitness self f (population !!! x) population) ri).
  destruct (np_argmin_spec g) as (m & gm & Harg & Hm & Hmin & Hfirst).
  { unfold g. by destruct ri. }
  unfold g in Hm. rewrite list_lookup_fmap in Hm.
  destruct (ri !! m) as [r|] eqn:Hr; [|done]. simpl in Hm.
  pose proof (Forall_lookup_1 _ _ _ _ Hri Hr) as Hlt. simpl in Hlt.
  destruct (lookup_lt_is_Some_2 population r Hlt) as [row Hrow].
  rewrite (list_lookup_total_correct _ _ _ Hrow) in Hm. injection Hm as <-.
  exists m, r, row. split_and!; [|done..|].
  - apply mapM_lookup_Some. intros x Hx.
    pose proof (proj1 (Forall_forall _ _) Hri x Hx) as Hxlt. simpl in Hxlt.
    destruct (lookup_lt_is_Some_2 population x Hxlt) as [p Hp].
    rewrite (list_lookup_total_correct _ _ _ Hp).
    by apply wrap_fitness_pointwise.
  - intros j r' row' Hj Hrow'.
    assert (g !! j = Some (shared_fitness self f row' population)) as Hg.
    { unfold g. rewrite list_lookup_fmap, Hj. simpl.
      by rewrite (list_lookup_total_correct _ _ _ Hrow'). }
    split; [by eapply Hmin | intros Hjm; by eapply Hfirst].
Qed.

Lemma selection_spec self f choices population :
  pointwise (objf self) f →
  (0 < k self)%nat →
  (∀ ii, (ii < mu self)%nat →
         choices_ok (length population) (k self) (choices ii)) →
  ∃ selected,
    selection self choices population = Some selected
    ∧ length selected = mu self
    ∧ ∀ ii, (ii < mu self)%nat →
        ∃ m r row,
          choices ii !! m = Some r
          ∧ population !! r = Some row
          ∧ selected !! ii = Some row
          ∧ (∀ j r' row', choices ii !! j = Some r' →
               population !! r' = Some row' →
               shared_fitness self f row population
               <= shared_fitness self f row' population
               ∧ ((j < m)%nat →
                  shared_fitness self f row population
                  < shared_fitness self f row' population)).
Proof.
  intros Hf Hk Hch. unfold selection.
  set (val := λ ii : nat,
         g ← mapM (λ x, wrap_fitness self x population) (choices ii);
         min ← np_argmin g;
         r ← choices ii !! min;
         population !! r).
  assert (∀ ii, (ii < mu self)%nat →
            ∃ m r row,
              val ii = Some row
              ∧ choices ii !! m = Some r
              ∧ population !! r = Some row
              ∧ (∀ j r' row', choices ii !! j = Some r' →
                   population !! r' = Some row' →
                   shared_fitness self f row population
                   <= shared_fitness self f row' population
                   ∧ ((j < m)%nat →
                      shared_fitness self f row population
                      < shared_fitness self f row' population))) as Hval.
  { intros ii Hii. destruct (Hch ii Hii) as [Hlen Hri].
    destruct (tournament_spec self f population (choices ii) Hf)
      as (m & r & row & Hg & Harg & Hr & Hrow & Hmin); [|done|].
    { intros Hnil. rewrite Hnil in Hlen. simpl in Hlen. lia. }
    exists m, r, row. split_and!; [|done..].
    unfold val. rewrite Hg. cbn [mbind option_bind].
    rewrite Harg. cbn [mbind option_bind]. by rewrite Hr. }
  destruct (for_each_fill val
              (λ ii selected,
                 let ri := choices ii in
                 g ← mapM (λ x, wrap_fitness self x population) ri;
                 min ← np_argmin g;
                 r ← ri !! min;
                 row ← population !! r;
                 Some (<[ii := row]> selected))
              (mu self) (replicate (mu self) (0, 0)))
    with (m := mu self) as (out & Hout & Hlen & Hlt & _).
  - intros i s. unfold val. simpl.
    destruct (mapM _ (choices i)) as [g|]; [|done]. simpl.
    destruct (np_argmin g) as [min|]; [|done]. simpl.
    by destruct (choices i !! min).
  - apply length_replicate.
  - lia.
  - intros i Hi. destruct (Hval i Hi) as (m & r & row & -> & _). eauto.
  - exists out. split_and!; [done | done |].
    intros ii Hii. destruct (Hval ii Hii) as (m & r & row & Hv & Hr & Hrow & Hmin).
    exists m, r, row. split_and!; [done | done | | done].
    by rewrite Hlt.
Qed.

(** C2, as the code has it.  Each of the [mu] tournaments takes the [k]
    indices [random.choices] returned, all of them members of the
    population but not necessarily distinct, and appends the sampled
    individual whose shared fitness against the whole population is
    smallest, the first such sample in case of a tie. *)
Theorem selection_tournaments self f choices population :
  pointwise (objf self) f →
  (0 < k self)%nat →
  (∀ ii, (ii < mu self)%nat →
         choices_ok (length population) (k self) (choices ii)) →
  ∃ selected,
    selection self choices population = Some selected
    ∧ length selected = mu self
    ∧ ∀ ii, (ii < mu self)%nat →
        ∃ m r row,
          choices ii !! m = Some r
          ∧ population !! r = Some row
          ∧ selected !! ii = Some row
          ∧ (∀ j r' row', choices ii !! j = Some r' →
               population !! r' = Some row' →
               shared_fitness self f row population
               <= shared_fitness self f row' population
               ∧ ((j < m)%nat →
                  shared_fitness self f row population
                  < shared_fitness self f row' population)).
Proof. apply selection_spec. Qed.

Lemma selection_tournaments_witness :
  ∃ selected,
    selection (init myfun) (λ _, [0; 1; 2]%nat)
      (initial_population (init myfun) (replicate 100 (0.5, 0.5)))
    = Some selected
    ∧ length selected = 200%nat.
Proof.
  destruct (selection_tournaments (init myfun) eggholder (λ _, [0; 1; 2]%nat)
              (initial_population (init myfun) (replicate 100 (0.5, 0.5))))
    as (selected & Hrun & Hlen & _).
  - apply myfun_pointwise.
  - simpl. lia.
  - intros ii _. split; [reflexivity|].
    unfold initial_population. rewrite length_map, length_replicate.
    repeat constructor; lia.
  - exists selected. by split.
Defined.

(** C2 fails on distinctness: [random.choices] samples with replacement,
    so a tournament may draw the same index three times, and selection runs
    on such a draw. *)
Lemma selection_repeated_index_counterexample :
  let self := init myfun in
  let population := initial_population self (replicate 100 (0.5, 0.5)) in
  let choices := λ _ : nat, [7; 7; 7]%nat in
  (∀ ii, choices_ok (length population) (k self) (choices ii))
  ∧ ¬ NoDup (choices 0%nat)
  ∧ ∃ selected, selection self choices population = Some selected
                ∧ selected !! 0%nat = population !! 7%nat.
Proof.
  intros self population choices.
  assert (∀ ii, choices_ok (length population) (k self) (choices ii)) as Hok.
  { intros ii. split; [reflexivity|].
    unfold population, initial_population.
    rewrite length_map, length_replicate. repeat constructor; lia. }
  split_and!.
  - exact Hok.
  - intros Hnd. apply NoDup_cons in Hnd as [Hnotin _].
    apply Hnotin. apply list_elem_of_here.
  - destruct (selection_spec self eggholder choices population)
      as (selected & Hrun & Hlen & Hsel).
    + apply myfun_pointwise.
    + simpl. lia.
    + intros ii _. apply Hok.
    + exists selected. split; [exact Hrun|].
      assert ((0 < mu self)%nat) as Hmu by (simpl; lia).
      destruct (Hsel 0%nat Hmu) as (m & r & row & Hr & Hrow & Hs & _).
      assert (r = 7%nat) as ->.
      { apply list_elem_of_lookup_2 in Hr. unfold choices in Hr.
        set_unfold in Hr. by destruct Hr as [?|[?|[?|[]]]]. }
      by rewrite Hs, Hrow.
Qed.

(** ** Sorting by index *)

Lemma argsort_ok_length argsort v :
  argsort_ok argsort → length (argsort v) = length v.
Proof.
  intros H. destruct (H v) as [Hp _].
  by rewrite (Permutation_length Hp), length_seq.
Qed.

(** The first index [np.argsort] returns points to a minimum. *)
Lemma argsort_head argsort v :
  argsort_ok argsort → v ≠ [] →
  ∃ a x, argsort v !! 0%nat = Some a
         ∧ v !! a = Some x
         ∧ ∀ j y, v !! j = Some y → x <= y.
Proof.
  intros Hok Hne. destruct (Hok v) as [Hp Hs].
  pose proof (argsort_ok_length argsort v Hok) as Hlen.
  destruct (argsort v) as [|a perm] eqn:Hperm.
  { destruct v; [done | simpl in Hlen; lia]. }
  assert (a ∈ seq 0 (length v)) as Ha
    by (rewrite <- Hp; apply list_elem_of_here).
  apply elem_of_seq in Ha.
  destruct (lookup_lt_is_Some_2 v a) as [x Hx]; [lia|].
  exists a, x. split_and!; [done | done |].
  intros j y Hj.
  assert (j ∈ a :: perm) as Hin.
  { rewrite Hp. apply elem_of_seq. apply lookup_lt_Some in Hj. lia. }
  apply StronglySorted_inv in Hs as [_ Hall].
  rewrite <- (list_lookup_total_correct _ _ _ Hx).
  rewrite <- (list_lookup_total_correct _ _ _ Hj).
  apply elem_of_cons in Hin as [->|Hin]; [lra|].
  by apply (proj1 (Forall_forall _ _) Hall).
Qed.

Lemma insert_by_perm v a l : insert_by v a l ≡ₚ a :: l.
Proof.
  induction l as [|b l IH]; simpl; [done|].
  case_decide; [done|]. rewrite IH. apply Permutation_swap.
Qed.

Lemma insert_by_sorted v a l :
  StronglySorted (λ a b, v !!! a <= v !!! b) l →
  StronglySorted (λ a b, v !!! a <= v !!! b) (insert_by v a l).
Proof.
  induction 1 as [|b l Hl IH Hb]; simpl.
  - repeat constructor.
  - case_decide as Hab.
    + constructor; [by constructor|].
      constructor; [done|].
      eapply Forall_impl; [exact Hb|]. intros c Hc. simpl in *. lra.
    + constructor; [done|].
      rewrite insert_by_perm. constructor; [lra | done].
Qed.

Lemma stable_argsort_ok : argsort_ok stable_argsort.
Proof.
  intros v. unfold stable_argsort. generalize (seq 0 (length v)). intros l.
  split.
  - induction l as [|a l IH]; simpl; [done|].
    by rewrite insert_by_perm, IH.
  - induction l as [|a l IH]; simpl; [constructor|].
    by apply insert_by_sorted.
Qed.

(** ** Elimination *)

Lemma for_each_seq_inv {St} (P : nat → St → Prop) (body : nat → St → option St)
    (n : nat) (s : St) :
  P 0%nat s →
  (∀ i s, (i < n)%nat → P i s → ∃ s', body i s = Some s' ∧ P (S i) s') →
  ∃ s', for_each (seq 0 n) body s = Some s' ∧ P n s'.
Proof.
  intros H0 Hstep. induction n as [|n IH].
  - exists s. by split.
  - destruct IH as (s1 & Hrun & Hs1).
    { intros i s0 Hi. apply Hstep. lia. }
    destruct (Hstep n s1) as (s2 & Hbody & Hs2); [lia | done |].
    exists s2. split; [|done].
    rewrite seq_S, for_each_app, Hrun. simpl. by rewrite Hbody.
Qed.

Lemma mapM_seq_lookup {A B} (F : A → option B) (l : list A) :
  mapM (λ x, l !! x ≫= F) (seq 0 (length l)) = mapM F l.
Proof.
  assert (∀ pre, mapM (λ x, (pre ++ l) !! x ≫= F) (seq (length pre) (length l))
                 = mapM F l) as H; [|apply (H [])].
  induction l as [|a l IH]; intros pre; [done|]. simpl.
  rewrite lookup_app_r, Nat.sub_diag by done. simpl.
  specialize (IH (pre ++ [a])).
  rewrite <- app_assoc, length_app in IH. simpl in IH.
  rewrite Nat.add_1_r in IH. by rewrite IH.
Qed.

Lemma elimination_scores self f (joined survivors : list point) i :
  pointwise (objf self) f →
  mapM (λ x, cand ← joined !! x;
             wrap_fitness self 0 (cand :: take (i + 1) survivors))
       (seq 0 (length joined))
  = Some (map (score self f survivors (i + 1)) joined).
Proof.
  intros Hf. rewrite (mapM_seq_lookup
    (λ cand, wrap_fitness self 0 (cand :: take (i + 1) survivors))).
  apply mapM_lookup_Some. intros cand _.
  unfold score. rewrite decide_False by lia.
  by apply wrap_fitness_pointwise.
Qed.

Lemma map_lookup_total_seq (l : list point) :
  map (λ s, l !!! s) (seq 0 (length l)) = l.
Proof.
  apply list_eq. intros i. rewrite list_lookup_fmap.
  destruct (l !! i) as [x|] eqn:Hi.
  - rewrite lookup_seq_lt by (by eapply lookup_lt_Some). simpl.
    by rewrite (list_lookup_total_correct _ _ _ Hi).
  - rewrite lookup_seq_ge; [done|]. by apply lookup_ge_None.
Qed.

Lemma score_take self f s1 s2 j c :
  take j s1 = take j s2 → score self f s1 j c = score self f s2 j c.
Proof. intros H. unfold score. by rewrite H. Qed.

(** The state of the elimination loop after [i] rounds, for a pool
    [pool]: [slots] lists the pool slots taken so far and [rem] those
    that remain, in the order [joinedPopulation] holds them. *)
Lemma elimination_loop argsort self f pool keep :
  argsort_ok argsort →
  pointwise (objf self) f →
  (keep <= length pool)%nat →
  ∃ st slots rem,
    for_each (seq 0 keep)
      (λ i (st : list point * list point * list nat),
         let '(survivors, joinedPopulation, perm) := st in
         p0 ← perm !! 0%nat;
         row ← joinedPopulation !! p0;
         let survivors := <[i := row]> survivors in
         let joinedPopulation := delete p0 joinedPopulation in
         g ← mapM (λ x, cand ← joinedPopulation !! x;
                        wrap_fitness self 0 (cand :: take (i + 1) survivors))
                  (seq 0 (length joinedPopulation));
         Some (survivors, joinedPopulation, argsort g))
      (replicate keep (0, 0), pool, argsort (map f pool)) = Some st
    ∧ length slots = keep
    ∧ slots ++ rem ≡ₚ seq 0 (length pool)
    ∧ length st.1.1 = keep
    ∧ ∀ j s, slots !! j = Some s →
        st.1.1 !! j = Some (pool !!! s)
        ∧ ∀ s', (s' < length pool)%nat → s' ∉ take j slots →
            score self f st.1.1 j (pool !!! s)
            <= score self f st.1.1 j (pool !!! s').
Proof.
  intros Hok Hf Hkeep.
  set (Inv := λ (i : nat) (st : list point * list point * list nat),
    ∃ slots rem : list nat,
      length slots = i
      ∧ slots ++ rem ≡ₚ seq 0 (length pool)
      ∧ st.1.2 = map (λ s, pool !!! s) rem
      ∧ length st.1.1 = keep
      ∧ st.2 = argsort (map (score self f st.1.1 i) st.1.2)
      ∧ ∀ j s, slots !! j = Some s →
          st.1.1 !! j = Some (pool !!! s)
          ∧ ∀ s', (s' < length pool)%nat → s' ∉ take j slots →
              score self f st.1.1 j (pool !!! s)
              <= score self f st.1.1 j (pool !!! s')).
  match goal with |- ∃ st _ _, for_each _ ?b ?s0 = _ ∧ _ =>
    destruct (for_each_seq_inv Inv b keep s0) as (st & Hrun & Hinv) end.
  - exists [], (seq 0 (length pool)). simpl. split_and!.
    + done.
    + done.
    + by rewrite map_lookup_total_seq.
    + apply length_replicate.
    + reflexivity.
    + intros j s Hj. by rewrite lookup_nil in Hj.
  - intros i [[survivors joined] perm] Hi
      (slots & rem & Hlen & Hperm & Hjoined & Hsurv & Hp & Hopt).
    simpl in Hjoined, Hsurv, Hp, Hopt.
    assert (length rem = (length pool - i)%nat) as Hrem.
    { apply Permutation_length in Hperm.
      rewrite length_app, length_seq in Hperm. lia. }
    set (keys := map (score self f survivors i) joined) in *.
    destruct (argsort_head argsort keys Hok) as (p0 & x & Hp0 & Hx & Hmin).
    { unfold keys. rewrite Hjoined. destruct rem; [simpl in Hrem; lia | done]. }
    unfold keys in Hx. rewrite list_lookup_fmap in Hx.
    destruct (joined !! p0) as [row|] eqn:Hrow; [|done].
    simpl in Hx. injection Hx as <-.
    assert (∃ s, rem !! p0 = Some s ∧ row = pool !!! s) as (s & Hs & Hrs).
    { rewrite Hjoined, list_lookup_fmap in Hrow.
      destruct (rem !! p0) as [s|]; [|done].
      exists s. split; [done|]. by injection Hrow as <-. }
    eexists. split.
    { rewrite Hp, Hp0. cbn [mbind option_bind]. rewrite Hrow.
      cbn [mbind option_bind].
      rewrite (elimination_scores self f _ _ i Hf). reflexivity. }
    exists (slots ++ [s]), (delete p0 rem). simpl. split_and!.
    + rewrite length_app. simpl. lia.
    + rewrite <- Hperm, <- app_assoc. simpl.
      apply Permutation_app_head. symmetry. by apply delete_Permutation.
    + rewrite Hjoined. symmetry. apply list_fmap_delete.
    + by rewrite length_insert.
    + by rewrite Nat.add_1_r.
    + intros j s0 Hj.
      assert (take j (<[i := row]> survivors) = take j survivors) as Htake.
      { apply take_insert_ge. apply lookup_lt_Some in Hj.
        rewrite length_app in Hj. simpl in Hj. lia. }
      apply lookup_app_Some in Hj as [Hj|[Hge Hj]].
      * destruct (Hopt j s0 Hj) as [Hsj Hbest].
        assert ((j < i)%nat) by (rewrite <- Hlen; by eapply lookup_lt_Some).
        split.
        -- by rewrite list_lookup_insert_ne by lia.
        -- intros s' Hs' Hnotin.
           rewrite take_app_le in Hnotin by lia.
           rewrite (score_take self f _ survivors j (pool !!! s0) Htake),
             (score_take self f _ survivors j (pool !!! s') Htake).
           by apply Hbest.
      * apply list_lookup_singleton_Some in Hj as [Hj0 <-].
        assert (j = i) as -> by lia.
        split.
        -- rewrite list_lookup_insert_eq by lia. by rewrite Hrs.
        -- intros s' Hs' Hnotin.
           rewrite <- Hlen, take_app_length in Hnotin.
           rewrite (score_take self f _ survivors i (pool !!! s) Htake),
             (score_take self f _ survivors i (pool !!! s') Htake).
           assert (s' ∈ rem) as Hin.
           { assert (s' ∈ slots ++ rem) as Hin
               by (rewrite Hperm; apply elem_of_seq; lia).
             apply elem_of_app in Hin as [Hin|Hin]; [done | done]. }
           apply list_elem_of_lookup in Hin as [x' Hx'].
           rewrite Hrs in Hmin. apply (Hmin x').
           unfold keys. rewrite Hjoined, !list_lookup_fmap, Hx'. reflexivity.
  - destruct Hinv as (slots & rem & Hlen & Hperm & _ & Hsurv & _ & Hopt).
    exists st, slots, rem. by split_and!.
Qed.

Lemma elimination_spec argsort self f pool keep :
  argsort_ok argsort →
  pointwise (objf self) f →
  (keep <= length pool)%nat →
  ∃ survivors slots,
    elimination argsort self pool keep = Some survivors
    ∧ length survivors = keep
    ∧ length slots = keep
    ∧ NoDup slots
    ∧ ∀ i s, slots !! i = Some s →
        ∃ row, pool !! s = Some row
               ∧ survivors !! i = Some row
               ∧ ∀ s' row', pool !! s' = Some row' → s' ∉ take i slots →
                   score self f survivors i row
                   <= score self f survivors i row'.
Proof.
  intros Hok Hf Hkeep.
  destruct (elimination_loop argsort self f pool keep Hok Hf Hkeep)
    as (st & slots & rem & Hrun & Hlen & Hperm & Hsurv & Hopt).
  exists st.1.1, slots. split_and!; [|done|done| |].
  - unfold elimination. rewrite (proj2 Hf).
    exact (f_equal
             (λ o : option (list point * list point * list nat),
                o ≫= λ st0, Some st0.1.1) Hrun).
  - assert (NoDup (slots ++ rem)) as Hnd
      by (rewrite Hperm; apply NoDup_seq).
    by apply NoDup_app in Hnd as [Hnd _].
  - intros i s Hi. destruct (Hopt i s Hi) as [Hrow Hbest].
    assert ((s < length pool)%nat) as Hs.
    { assert (s ∈ slots ++ rem) as Hin
        by (apply elem_of_app; left; by eapply list_elem_of_lookup_2).
      rewrite Hperm in Hin. apply elem_of_seq in Hin. lia. }
    destruct (lookup_lt_is_Some_2 pool s Hs) as [row Hr].
    rewrite (list_lookup_total_correct _ _ _ Hr) in Hrow, Hbest.
    exists row. split_and!; [done | done |].
    intros s' row' Hs' Hnotin.
    rewrite <- (list_lookup_total_correct _ _ _ Hs').
    apply Hbest; [by eapply lookup_lt_Some | done].
Qed.

(** C1, as the code has it.  For a pool of at least [keep] rows,
    elimination returns [keep] survivors taken from [keep] distinct pool
    slots; the first has a minimum raw objective value over the pool, and
    survivor [i >= 1] has a minimum shared fitness, computed against the
    candidate itself and the survivors chosen before it, over the pool
    slots not yet taken.  Which of several minimal candidates is taken is
    decided by the order [np.argsort] gives to equal keys. *)
Theorem elimination_greedy argsort self f pool keep :
  argsort_ok argsort →
  pointwise (objf self) f →
  (keep <= length pool)%nat →
  ∃ survivors slots,
    elimination argsort self pool keep = Some survivors
    ∧ length survivors = keep
    ∧ length slots = keep
    ∧ NoDup slots
    ∧ ∀ i s, slots !! i = Some s →
        ∃ row, pool !! s = Some row
               ∧ survivors !! i = Some row
               ∧ (i = 0%nat →
                  ∀ s' row', pool !! s' = Some row' → f row <= f row')
               ∧ ((1 <= i)%nat →
                  ∀ s' row', pool !! s' = Some row' → s' ∉ take i slots →
                    shared_fitness self f row (row :: take i survivors)
                    <= shared_fitness self f row' (row' :: take i survivors)).
Proof.
  intros Hok Hf Hkeep.
  destruct (elimination_spec argsort self f pool keep Hok Hf Hkeep)
    as (survivors & slots & Hrun & Hlen & Hslots & Hnd & Hopt).
  exists survivors, slots. split_and!; [done..|].
  intros i s Hi. destruct (Hopt i s Hi) as (row & Hrow & Hsurv & Hbest).
  exists row. split_and!; [done | done | |].
  - intros -> s' row' Hs'.
    specialize (Hbest s' row' Hs' (not_elem_of_nil _)).
    unfold score in Hbest. by rewrite !decide_True in Hbest.
  - intros Hi1 s' row' Hs' Hnotin.
    specialize (Hbest s' row' Hs' Hnotin).
    unfold score in Hbest. by rewrite !decide_False in Hbest by lia.
Qed.

Lemma elimination_greedy_witness :
  ∃ survivors,
    elimination stable_argsort (init myfun) [(1, 2); (3, 4); (5, 6)] 2
    = Some survivors
    ∧ length survivors = 2%nat.
Proof.
  destruct (elimination_greedy stable_argsort (init myfun) eggholder
              [(1, 2); (3, 4); (5, 6)] 2)
    as (survivors & slots & Hrun & Hlen & _).
  - apply stable_argsort_ok.
  - apply myfun_pointwise.
  - simpl. lia.
  - exists survivors. by split.
Defined.

(** ** The domain is never left *)

Lemma in_box_origin B : 0 <= B → in_box B (0, 0).
Proof. intros H. unfold in_box. simpl. lra. Qed.

Lemma Forall_in_box_insert B (l : list point) i p :
  Forall (in_box B) l → in_box B p → Forall (in_box B) (<[i:=p]> l).
Proof. intros Hl Hp. by apply Forall_insert. Qed.

Lemma selection_in_box self choices population selected :
  0 <= intMax self →
  Forall (in_box (intMax self)) population →
  selection self choices population = Some selected →
  Forall (in_box (intMax self)) selected.
Proof.
  intros HB Hpop. unfold selection.
  apply (for_each_inv (Forall (in_box (intMax self)))).
  - intros ii s s' _ Hs Hbody. simpl in Hbody.
    destruct (mapM _ (choices ii)) as [g|]; [|done]. simpl in Hbody.
    destruct (np_argmin g) as [m|]; [|done]. simpl in Hbody.
    destruct (choices ii !! m) as [r|]; [|done]. simpl in Hbody.
    destruct (population !! r) as [row|] eqn:Hrow; [|done].
    injection Hbody as <-. apply Forall_in_box_insert; [done|].
    by eapply (Forall_lookup_1 _ population).
  - apply Forall_replicate. by apply in_box_origin.
Qed.

Lemma crossover_in_box self rand selected offspring :
  0 <= intMax self →
  crossover self rand selected = Some offspring →
  Forall (in_box (intMax self)) offspring.
Proof.
  intros HB. unfold crossover.
  apply (for_each_inv (Forall (in_box (intMax self)))).
  - intros ii s s' _ Hs Hbody. cbv beta in Hbody.
    destruct (selected !! (2 * ii)%nat) as [x|]; [|done].
    destruct (selected !! (2 * ii + 1)%nat) as [y|]; [|done].
    cbn [mbind option_bind] in Hbody.
    destruct (_ !! ii) as [w|]; [|done].
    injection Hbody as <-. apply Forall_in_box_insert; [done|].
    by apply clip_row_in_box.
  - apply Forall_replicate. by apply in_box_origin.
Qed.

Lemma mutation_Some_inv self rand randn l alpha h lh :
  mutation self rand randn l alpha h = Some lh →
  ∃ a, h !! l = Some a
       ∧ length rand = length a
       ∧ length randn
         = length (np_where (map (λ r, bool_decide (r <= alpha)) rand)).
Proof.
  unfold mutation. intros Hrun.
  destruct (h !! l) as [a|]; [|done]. cbn [mbind option_bind] in Hrun.
  exists a. split; [done|].
  rewrite option_guard_decide in Hrun.
  destruct (decide (length rand = length a)) as [H1|H1]; [|done].
  rewrite option_guard_decide in Hrun.
  by destruct (decide (length randn = _)) as [H2|H2].
Qed.

Lemma mutation_in_box self rand randn l alpha h a lh :
  0 <= intMax self →
  h !! l = Some a →
  Forall (in_box (intMax self)) a →
  mutation self rand randn l alpha h = Some lh →
  ∃ a', lh.2 !! lh.1 = Some a'
        ∧ length a' = length a
        ∧ Forall (in_box (intMax self)) a'.
Proof.
  intros HB Hl Ha Hrun.
  destruct (mutation_Some_inv _ _ _ _ _ _ _ Hrun) as (a0 & Hl0 & Hrand & Hrandn).
  rewrite Hl in Hl0. injection Hl0 as <-.
  destruct (mutation_spec self rand randn l alpha h a Hl Hrand Hrandn)
    as (a' & Hrun' & Hlen & Hin & Hout).
  rewrite Hrun in Hrun'. injection Hrun' as ->.
  exists a'. simpl. split_and!; [apply lookup_insert_eq | done |].
  apply Forall_lookup. intros i p Hp.
  destruct (decide (i ∈ np_where (map (λ r, bool_decide (r <= alpha)) rand)))
    as [Hi|Hi].
  - apply list_elem_of_lookup in Hi as [j Hj].
    destruct (lookup_lt_is_Some_2 randn j) as [z Hz].
    { rewrite Hrandn. by eapply lookup_lt_Some. }
    destruct (Hin j i z Hj Hz) as (p0 & _ & Hp').
    rewrite Hp in Hp'. injection Hp' as ->. by apply clip_row_in_box.
  - rewrite (Hout i Hi) in Hp. by eapply (Forall_lookup_1 _ a).
Qed.

Lemma elimination_in_box argsort self pool keep survivors :
  0 <= intMax self →
  Forall (in_box (intMax self)) pool →
  elimination argsort self pool keep = Some survivors →
  Forall (in_box (intMax self)) survivors.
Proof.
  intros HB Hpool. unfold elimination. intros Hrun.
  destruct (objf self (Rows pool)) as [fvals|]; [|done]. simpl in Hrun.
  destruct (for_each _ _ _) as [st|] eqn:Hloop; [|done].
  injection Hrun as <-.
  enough (Forall (in_box (intMax self)) st.1.1
          ∧ Forall (in_box (intMax self)) st.1.2) as [H _]; [done|].
  revert Hloop.
  apply (for_each_inv
           (λ st : list point * list point * list nat,
              Forall (in_box (intMax self)) st.1.1
              ∧ Forall (in_box (intMax self)) st.1.2)).
  - intros i [[surv joined] perm] s' _ [Hs Hj] Hbody. simpl in *.
    destruct (perm !! 0%nat) as [p0|]; [|done]. simpl in Hbody.
    destruct (joined !! p0) as [row|] eqn:Hrow; [|done]. simpl in Hbody.
    destruct (mapM _ _) as [g|]; [|done]. injection Hbody as <-. simpl.
    split.
    + apply Forall_in_box_insert; [done|].
      by eapply (Forall_lookup_1 _ joined).
    + by apply Forall_delete.
  - simpl. split; [|done]. apply Forall_replicate. by apply in_box_origin.
Qed.

Lemma initial_population_in_box self rand0 :
  0 <= intMax self →
  Forall (λ p, unit_interval p.1 ∧ unit_interval p.2) rand0 →
  Forall (in_box (intMax self)) (initial_population self rand0).
Proof.
  intros HB Hu. unfold initial_population. apply Forall_map.
  eapply Forall_impl; [exact Hu|].
  intros [a b] [[Ha1 Ha2] [Hb1 Hb2]]. unfold in_box. simpl in *. nra.
Qed.

Lemma generation_in_box argsort self d population r :
  0 <= intMax self →
  Forall (in_box (intMax self)) population →
  generation argsort self d population = Some r →
  Forall (in_box (intMax self)) r.1
  ∧ plotted r.2 = [r.1].
Proof.
  intros HB Hpop. unfold generation. intros Hrun.
  destruct (selection _ _ _) as [selected|] eqn:Hsel; [|done].
  simpl in Hrun.
  destruct (crossover _ _ _) as [offspring|] eqn:Hcross; [|done].
  simpl in Hrun.
  destruct (mutation _ _ _ _ _ _) as [lh|] eqn:Hmut; [|done].
  simpl in Hrun.
  destruct (mutation_in_box self _ _ _ _ _ offspring lh HB
              (lookup_singleton_eq _ _)
              (crossover_in_box _ _ _ _ HB Hcross) Hmut)
    as (mutated & Hm & _ & Hmbox).
  rewrite Hm in Hrun. simpl in Hrun.
  destruct (elimination _ _ _ _) as [pop'|] eqn:Helim; [|done].
  simpl in Hrun.
  destruct (objf self (Rows pop')) as [fvals|]; [|done]. simpl in Hrun.
  destruct (np_min fvals) as [best|]; [|done].
  injection Hrun as <-. simpl. split; [|done].
  eapply elimination_in_box; [done | | exact Helim].
  by apply Forall_app.
Qed.


Lemma plotted_app e1 e2 : plotted (e1 ++ e2) = plotted e1 ++ plotted e2.
Proof. apply omap_app. Qed.

Lemma optimize_in_box argsort self rand0 gens events :
  0 <= intMax self →
  Forall (λ p, unit_interval p.1 ∧ unit_interval p.2) rand0 →
  optimize argsort self rand0 gens = Some events →
  Forall (Forall (in_box (intMax self))) (plotted events).
Proof.
  intros HB Hu. unfold optimize. intros Hrun.
  destruct (for_each _ _ _) as [st|] eqn:Hloop; [|done].
  injection Hrun as <-.
  pose proof (initial_population_in_box self rand0 HB Hu) as H0.
  rewrite plotted_app. simpl. rewrite app_nil_r.
  enough (Forall (in_box (intMax self)) st.1
          ∧ Forall (Forall (in_box (intMax self))) (plotted st.2)) as [_ H];
    [done|].
  revert Hloop.
  apply (for_each_inv
           (λ st : list point * list event,
              Forall (in_box (intMax self)) st.1
              ∧ Forall (Forall (in_box (intMax self))) (plotted st.2))).
  - intros i s s' _ [Hs Hp] Hbody. cbv beta in Hbody.
    destruct (generation argsort self (gens i) s.1) as [r|] eqn:Hgen; [|done].
    injection Hbody as <-. simpl.
    destruct (generation_in_box argsort self (gens i) s.1 r HB Hs Hgen)
      as [Hr Hplot].
    split; [done|]. rewrite plotted_app, Hplot.
    apply Forall_app. split; [done|]. by constructor.
  - simpl. split; [done|]. by constructor.
Qed.

Lemma np_min_is_Some v : v ≠ [] → is_Some (np_min v).
Proof.
  intros Hne. destruct (np_argmin_spec v Hne) as (i & m & Hi & Hm & _).
  unfold np_min. rewrite Hi. simpl. by rewrite Hm.
Qed.

Lemma generation_total argsort self f d population :
  argsort_ok argsort →
  pointwise (objf self) f →
  (0 < lambdaa self)%nat →
  (0 < k self)%nat →
  mu self = (lambdaa self * 2)%nat →
  draws_ok self d →
  length population = lambdaa self →
  ∃ r, generation argsort self d population = Some r
       ∧ length r.1 = lambdaa self
       ∧ plotted r.2 = [r.1].
Proof.
  intros Hok Hf Hlam Hk Hmu (Hch & [Hcr _] & [Hmr _] & Hmn) Hpop.
  unfold generation.
  destruct (selection_spec self f (sel_choices d) population Hf Hk)
    as (selected & -> & Hsel & _).
  { intros ii Hii. rewrite Hpop. by apply Hch. }
  cbn [mbind option_bind].
  destruct (crossover_spec self (cross_rand d) selected Hcr)
    as (offspring & -> & Hoff & _); [lia|].
  cbn [mbind option_bind].
  destruct (mutation_spec self (mut_rand d) (mut_randn d) 0%nat (alpha self)
              {[ 0%nat := offspring ]} offspring)
    as (mutated & -> & Hmlen & _);
    [apply lookup_singleton_eq | lia | done |].
  cbn [mbind option_bind fst snd]. rewrite lookup_insert_eq.
  cbn [mbind option_bind].
  destruct (elimination_spec argsort self f (mutated ++ population)
              (lambdaa self) Hok Hf)
    as (survivors & slots & -> & Hlen & _).
  { rewrite length_app. lia. }
  cbn [mbind option_bind]. rewrite (proj2 Hf). cbn [mbind option_bind].
  destruct (np_min_is_Some (map f survivors)) as [best ->].
  { destruct survivors; [simpl in Hlen; lia | done]. }
  eexists. split; [reflexivity|]. by split.
Qed.

Lemma optimize_total argsort self f rand0 gens :
  argsort_ok argsort →
  pointwise (objf self) f →
  (0 < lambdaa self)%nat →
  (0 < k self)%nat →
  mu self = (lambdaa self * 2)%nat →
  length rand0 = lambdaa self →
  (∀ i, (i < numIters self)%nat → draws_ok self (gens i)) →
  ∃ events, optimize argsort self rand0 gens = Some events
            ∧ length (plotted events) = S (numIters self)
            ∧ Forall (λ population, length population = lambdaa self)
                     (plotted events).
Proof.
  intros Hok Hf Hlam Hk Hmu Hr0 Hd. unfold optimize.
  match goal with |- ∃ _, for_each _ ?b ?s0 ≫= _ = _ ∧ _ =>
    destruct (for_each_seq_inv
                (λ (i : nat) (st : list point * list event),
                   length st.1 = lambdaa self
                   ∧ length (plotted st.2) = S i
                   ∧ Forall (λ population, length population = lambdaa self)
                            (plotted st.2))
                b (numIters self) s0) as (st & -> & Hlen & Hcount & Hall)
  end.
  - simpl. unfold initial_population. rewrite length_map.
    split_and!; [done | done |]. constructor; [|done].
    by rewrite length_map.
  - intros i s Hi (Hlen & Hcount & Hall).
    destruct (generation_total argsort self f (gens i) s.1 Hok Hf Hlam Hk Hmu
                (Hd i Hi) Hlen) as (r & -> & Hr & Hplot).
    eexists. split; [reflexivity|]. simpl. rewrite plotted_app, Hplot.
    split_and!; [done | |].
    + rewrite length_app. simpl. lia.
    + apply Forall_app. split; [done|]. by constructor.
  - eexists. split; [reflexivity|].
    rewrite plotted_app. simpl. rewrite app_nil_r. by split.
Qed.

(** C4.  Whatever the draws, every population a run reports (the initial
    one and the one after each generation) has all its coordinates in
    [[0, intMax]]; each operator keeps the population inside the domain:
    selection and elimination copy rows, crossover clips every child, and
    mutation clips the rows it changes.  With draws of the shapes the
    generators give, the run does complete and reports [numIters + 1]
    populations. *)
Theorem boundary_invariant argsort self rand0 gens :
  0 <= intMax self →
  Forall (λ p, unit_interval p.1 ∧ unit_interval p.2) rand0 →
  (∀ events, optimize argsort self rand0 gens = Some events →
     Forall (Forall (in_box (intMax self))) (plotted events))
  ∧ (∀ choices population selected,
       Forall (in_box (intMax self)) population →
       selection self choices population = Some selected →
       Forall (in_box (intMax self)) selected)
  ∧ (∀ rand selected offspring,
       crossover self rand selected = Some offspring →
       Forall (in_box (intMax self)) offspring)
  ∧ (∀ rand randn l alpha h a lh,
       h !! l = Some a →
       Forall (in_box (intMax self)) a →
       mutation self rand randn l alpha h = Some lh →
       ∃ a', lh.2 !! lh.1 = Some a' ∧ Forall (in_box (intMax self)) a')
  ∧ (∀ pool keep survivors,
       Forall (in_box (intMax self)) pool →
       elimination argsort self pool keep = Some survivors →
       Forall (in_box (intMax self)) survivors)
  ∧ (∀ f, argsort_ok argsort →
          pointwise (objf self) f →
          (0 < lambdaa self)%nat →
          (0 < k self)%nat →
          mu self = (lambdaa self * 2)%nat →
          length rand0 = lambdaa self →
          (∀ i, (i < numIters self)%nat → draws_ok self (gens i)) →
          ∃ events, optimize argsort self rand0 gens = Some events
                    ∧ length (plotted events) = S (numIters self)).
Proof.
  intros HB Hu. split_and!.
  - intros events. by apply optimize_in_box.
  - intros choices population selected. by apply selection_in_box.
  - intros rand selected offspring. by apply crossover_in_box.
  - intros rand randn l alpha h a lh Hl Ha Hrun.
    destruct (mutation_in_box self rand randn l alpha h a lh HB Hl Ha Hrun)
      as (a' & Ha' & _ & Hbox).
    by exists a'.
  - intros pool keep survivors. by apply elimination_in_box.
  - intros f Hok Hf Hlam Hk Hmu Hr0 Hd.
    destruct (optimize_total argsort self f rand0 gens Hok Hf Hlam Hk Hmu Hr0 Hd)
      as (events & Hrun & Hcount & _).
    by exists events.
Qed.

Lemma half_unit : unit_interval 0.5.
Proof. unfold unit_interval. lra. Qed.

Lemma calm_draws_ok : draws_ok (init myfun) calm_draws.
Proof.
  split_and!.
  - intros ii _. split; [reflexivity|]. repeat constructor; simpl; lia.
  - split; [apply length_replicate|].
    apply Forall_replicate. split; apply half_unit.
  - split; [apply length_replicate|]. apply Forall_replicate, half_unit.
  - change (length (@nil point)
            = length (np_where (map (λ r, bool_decide (r <= 0.05))
                                    (replicate 100 0.5)))).
    rewrite np_where_none; [done|].
    apply Forall_map, Forall_replicate.
    apply bool_decide_eq_false. lra.
Qed.

Lemma boundary_invariant_witness :
  ∃ events,
    optimize stable_argsort (init myfun) (replicate 100 (0.5, 0.5))
      (λ _, calm_draws) = Some events
    ∧ length (plotted events) = 21%nat
    ∧ Forall (Forall (in_box 500)) (plotted events).
Proof.
  assert (0 <= intMax (init myfun)) as HB by (simpl; lra).
  assert (Forall (λ p : point, unit_interval p.1 ∧ unit_interval p.2)
            (replicate 100 (0.5, 0.5))) as Hu.
  { apply Forall_replicate. split; apply half_unit. }
  destruct (boundary_invariant stable_argsort (init myfun)
              (replicate 100 (0.5, 0.5)) (λ _, calm_draws) HB Hu)
    as (Hbox & _ & _ & _ & _ & Htotal).
  destruct (Htotal eggholder) as (events & Hrun & Hcount).
  - apply stable_argsort_ok.
  - apply myfun_pointwise.
  - simpl. lia.
  - simpl. lia.
  - reflexivity.
  - apply length_replicate.
  - intros i _. apply calm_draws_ok.
  - exists events. split_and!; [done | done |]. by apply Hbox.
Defined.

Lemma initial_population_half_open_witness :
  Forall (λ p : point, (0 <= p.1 < 500) ∧ (0 <= p.2 < 500))
    (initial_population (init myfun) (replicate 100 (0.5, 0.5))).
Proof.
  assert (0 < intMax (init myfun)) as HB by (simpl; lra).
  assert (rand2_ok (lambdaa (init myfun)) (replicate 100 (0.5, 0.5))) as Hu.
  { split; [apply length_replicate|].
    apply Forall_replicate. split; apply half_unit. }
  apply (initial_population_half_open stable_argsort (init myfun)
           (replicate 100 (0.5, 0.5)) (λ _, calm_draws) HB Hu).
Defined.

(** ** Ties in elimination *)

Lemma lookup_total_IZR (vz : list Z) a :
  map IZR vz !!! a = IZR (default 0%Z (vz !! a)).
Proof.
  rewrite list_lookup_total_alt, list_lookup_fmap.
  by destruct (vz !! a).
Qed.

(** On integer keys the sort can be run on the integers. *)
Lemma np_argsort_IZR (vz : list Z) :
  np_argsort (map IZR vz) = aquicksort (ltZ vz) (length vz).
Proof.
  unfold np_argsort. rewrite length_map. f_equal.
  apply functional_extensionality. intros a.
  apply functional_extensionality. intros b.
  unfold ltZ. rewrite !lookup_total_IZR.
  apply bool_decide_ext. split; [apply lt_IZR | apply IZR_lt].
Qed.

Lemma dist_ge_fst (c : point) : 0 <= c.1 → c.1 <= dist c (0, 0).
Proof.
  intros Hc. unfold dist. simpl.
  rewrite <- (sqrt_Rsqr c.1) at 1 by done.
  apply sqrt_le_1_alt.
  pose proof (Rle_0_sqr (c.2 - 0)). unfold Rsqr in *. nra.
Qed.

(** A candidate at least [sigma] away from the only survivor has its raw
    value as shared fitness. *)
Lemma shared_fitness_far self f c s0 :
  0 < sigma self → sigma self <= dist c s0 →
  shared_fitness self f c [c; s0] = f c.
Proof.
  intros Hs Hfar. unfold shared_fitness.
  assert (niche_count self c [c; s0] = 1) as ->.
  { unfold niche_count. simpl.
    rewrite dist_self, decide_True, sh_0 by done.
    rewrite decide_False by lra. lra. }
  rewrite np_power_1_l. lra.
Qed.

(** One round of the elimination loop. *)
Lemma elimination_step (argsort : list R → list nat) self f i
    (survivors joined : list point) (perm : list nat) p0 row :
  pointwise (objf self) f →
  perm !! 0%nat = Some p0 →
  joined !! p0 = Some row →
  (p0 ← perm !! 0%nat;
   row ← joined !! p0;
   let survivors := <[i := row]> survivors in
   let joinedPopulation := delete p0 joined in
   g ← mapM (λ x, cand ← joinedPopulation !! x;
                  wrap_fitness self 0 (cand :: take (i + 1) survivors))
            (seq 0 (length joinedPopulation));
   Some (survivors, joinedPopulation, argsort g))
  = Some (<[i := row]> survivors, delete p0 joined,
          argsort (map (score self f (<[i := row]> survivors) (i + 1))
                       (delete p0 joined))).
Proof.
  intros Hf Hp Hrow. rewrite Hp. cbn [mbind option_bind].
  rewrite Hrow. cbn [mbind option_bind].
  by rewrite (elimination_scores self f _ _ i Hf).
Qed.

Lemma tie_pool_keys : map snd tie_pool = map IZR tie_keys.
Proof. reflexivity. Qed.

Lemma tie_pool_scores :
  map (score (init (lift snd)) snd [(0, 0); (0, 0)] 1) (delete 18%nat tie_pool)
  = map IZR (delete 18%nat tie_keys).
Proof.
  assert (∀ c : point, 150 <= c.1 →
            score (init (lift snd)) snd [(0, 0); (0, 0)] 1 c = c.2) as Hfar.
  { intros c Hc. unfold score. rewrite decide_False by lia.
    change (take 1 [(0, 0); (0, 0)]) with [((0, 0) : point)].
    apply (shared_fitness_far (init (lift snd)) snd); [simpl; lra|].
    pose proof (dist_ge_fst c). simpl in *. lra. }
  cbn [delete list_delete tie_pool tie_keys map].
  rewrite !Hfar by (simpl; lra). reflexivity.
Qed.

Lemma for_each_two {St} (body : nat → St → option St) (s s1 s2 : St) :
  body 0%nat s = Some s1 →
  body 1%nat s1 = Some s2 →
  for_each (seq 0 2) body s = Some s2.
Proof. intros H0 H1. simpl. rewrite H0. simpl. by rewrite H1. Qed.

(** Elimination with [keep = 2], round by round. *)
Lemma elimination_two_rounds (argsort : list R → list nat) self f
    (pool : list point) p0 row0 p1 row1 :
  pointwise (objf self) f →
  argsort (map f pool) !! 0%nat = Some p0 →
  pool !! p0 = Some row0 →
  argsort (map (score self f [row0; (0, 0)] 1) (delete p0 pool)) !! 0%nat
  = Some p1 →
  delete p0 pool !! p1 = Some row1 →
  elimination argsort self pool 2 = Some [row0; row1].
Proof.
  intros Hf H0 Hr0 H1 Hr1.
  pose proof (elimination_step argsort self f 0 (replicate 2 (0, 0)) pool
                (argsort (map f pool)) p0 row0 Hf H0 Hr0) as E0.
  pose proof (elimination_step argsort self f 1 [row0; (0, 0)] (delete p0 pool)
                (argsort (map (score self f [row0; (0, 0)] 1) (delete p0 pool)))
                p1 row1 Hf H1 Hr1) as E1.
  unfold elimination. rewrite (proj2 Hf). cbn [mbind option_bind].
  erewrite for_each_two; [|exact E0|exact E1]. reflexivity.
Qed.

Lemma tie_perm_first :
  np_argsort (map snd tie_pool) !! 0%nat = Some 18%nat.
Proof.
  rewrite tie_pool_keys, np_argsort_IZR. vm_compute. reflexivity.
Qed.

Lemma tie_perm_second :
  np_argsort (map (score (init (lift snd)) snd [(0, 0); (0, 0)] 1)
                  (delete 18%nat tie_pool)) !! 0%nat
  = Some 8%nat.
Proof.
  rewrite tie_pool_scores, np_argsort_IZR. vm_compute. reflexivity.
Qed.

(** C1 fails on the tie rule.  The objective is [f(x, y) = y] and the
    niche radius the default [150].  Row 18 of the pool is the best and
    becomes the first survivor; every other row is at least [150] away from
    it, so its shared fitness is its raw value, and rows 3 and 8 tie for
    the minimum [1].  NumPy's quicksort moves the middle index 8 to the
    front of the index array before it partitions, and the second survivor
    is row 8, not row 3, the first occurrence. *)
Lemma elimination_tie_counterexample :
  let self := init (lift snd) in
  elimination np_argsort self tie_pool 2 = Some [(0, 0); (230, 1)]
  ∧ tie_pool !! 3%nat = Some (180, 1)
  ∧ tie_pool !! 8%nat = Some (230, 1)
  ∧ shared_fitness self snd (180, 1) [(180, 1); (0, 0)] = 1
  ∧ shared_fitness self snd (230, 1) [(230, 1); (0, 0)] = 1
  ∧ np_argsort (map snd (delete 18%nat tie_pool))
    = [8; 3; 0; 1; 4; 5; 6; 7; 16; 9; 10; 11; 12; 13; 14; 15; 2; 17]%nat.
Proof.
  intros self.
  assert (pointwise (objf self) snd) as Hf by apply lift_pointwise.
  split_and!; [|reflexivity|reflexivity| | |].
  - exact (elimination_two_rounds np_argsort self snd tie_pool
             18 (0, 0) 8 (230, 1) Hf tie_perm_first eq_refl
             tie_perm_second eq_refl).
  - apply (shared_fitness_far self snd); [simpl; lra|].
    pose proof (dist_ge_fst (180, 1)). simpl in *. lra.
  - apply (shared_fitness_far self snd); [simpl; lra|].
    pose proof (dist_ge_fst (230, 1)). simpl in *. lra.
  - change (map snd (delete 18%nat tie_pool))
      with (map IZR (delete 18%nat tie_keys)).
    rewrite np_argsort_IZR. vm_compute. reflexivity.
Qed.

(** * Further properties of the operators *)

(** ** Distances *)






(** ** Bounds on the shared fitness *)




Lemma np_sum_app v1 v2 : np_sum (v1 ++ v2) = np_sum v1 + np_sum v2.
Proof.
  unfold np_sum. induction v1 as [|x v1 IH]; simpl; [lra|].
  rewrite IH. lra.
Qed.

Lemma niche_count_app self ind l1 l2 :
  niche_count self ind (l1 ++ l2)
  = niche_count self ind l1 + niche_count self ind l2.
Proof. unfold niche_count. by rewrite map_app, np_sum_app. Qed.

Lemma niche_count_nonneg self ind ref :
  0 < sigma self → 0 <= niche_count self ind ref.
Proof. intros Hs. by apply np_sum_nonneg, niche_terms_nonneg. Qed.

Lemma niche_count_far self ind ref :
  (∀ o, o ∈ ref → sigma self <= dist ind o) → niche_count self ind ref = 0.
Proof.
  intros Hfar. induction ref as [|o ref IH]; [reflexivity|].
  change (o :: ref) with ([o] ++ ref). rewrite niche_count_app, IH.
  - unfold niche_count. simpl. rewrite decide_False; [lra|].
    pose proof (Hfar o (list_elem_of_here _ _)). lra.
  - intros o' Ho'. by apply Hfar, list_elem_of_further.
Qed.

(** The factor [beta ** sign f] moves [f] away from the minimum, the more
    so the larger [beta] is. *)
Lemma sign_power_mono f b1 b2 :
  1 <= b1 → b1 <= b2 → f * sign_power b1 f <= f * sign_power b2 f.
Proof.
  intros H1 H12. unfold sign_power. repeat case_decide.
  - nra.
  - assert (/ b2 <= / b1) by (apply Rinv_le_contravar; lra). nra.
  - lra.
Qed.




(** X3.  Crowding never helps: when rows are appended to the reference
    population, the shared fitness of an individual does not decrease, and
    it does not change at all when every appended row is at distance
    [sigma] or more. *)
Theorem wrap_fitness_crowding self x population extra ind f rest :
  0 < sigma self →
  population !! x = Some ind →
  objf self (Row ind) = Some (f :: rest) →
  ∃ g g',
    wrap_fitness self x population = Some g
    ∧ wrap_fitness self x (population ++ extra) = Some g'
    ∧ g <= g'
    ∧ ((∀ o, o ∈ extra → sigma self <= dist ind o) → g' = g).
Proof.
  intros Hs Hx Hf.
  assert ((population ++ extra) !! x = Some ind) as Hx'
    by (by apply lookup_app_l_Some).
  pose proof (niche_count_ge_1 self x population ind Hs Hx) as Hb1.
  pose proof (niche_count_nonneg self ind extra Hs) as He.
  exists (f * sign_power (niche_count self ind population) f),
         (f * sign_power (niche_count self ind (population ++ extra)) f).
  split_and!.
  - rewrite (wrap_fitness_eq self x population ind f rest) by done.
    by rewrite np_power_sign by lra.
  - rewrite (wrap_fitness_eq self x _ ind f rest) by done.
    rewrite np_power_sign; [done|]. rewrite niche_count_app. lra.
  - apply sign_power_mono; [done|]. rewrite niche_count_app. lra.
  - intros Hfar. rewrite niche_count_app, (niche_count_far self ind extra Hfar).
    by rewrite Rplus_0_r.
Qed.

Lemma wrap_fitness_crowding_witness :
  ∃ g g',
    wrap_fitness (init myfun) 0 [(0, 0)] = Some g
    ∧ wrap_fitness (init myfun) 0 ([(0, 0)] ++ [(3, 4)]) = Some g'
    ∧ g <= g'.
Proof.
  assert (0 < sigma (init myfun)) as Hs by (simpl; lra).
  destruct (wrap_fitness_crowding (init myfun) 0 [(0, 0)] [(3, 4)] (0, 0)
              (eggholder (0, 0)) [] Hs eq_refl eq_refl)
    as (g & g' & Hg & Hg' & Hle & _).
  by exists g, g'.
Defined.

Lemma np_power_0_1 : np_power 0 1 = 0.
Proof.
  unfold np_power. rewrite !decide_False by lra. reflexivity.
Qed.

(** X4.  Edge cases of the niche count.  An index beyond the population
    makes [calc_beta] and [wrap_fitness] fail.  With [sigma <= 0] no
    distance is below [sigma], the sum is empty and the niche count is [0],
    not [1]: a positive objective value is then shared to [0] instead of
    being kept, and an objective value [0] stays [0]. *)
Theorem calc_beta_degenerate self x population :
  ((length population <= x)%nat →
     calc_beta self x population = None
     ∧ wrap_fitness self x population = None)
  ∧ (sigma self <= 0 →
     ∀ ind, population !! x = Some ind →
       calc_beta self x population = Some 0
       ∧ ∀ f rest, objf self (Row ind) = Some (f :: rest) → 0 <= f →
           wrap_fitness self x population = Some 0).
Proof.
  split.
  - intros Hx%lookup_ge_None. unfold wrap_fitness, calc_beta.
    by rewrite Hx.
  - intros Hs ind Hx.
    assert (niche_count self ind population = 0) as H0.
    { apply niche_count_far. intros o _. pose proof (dist_nonneg ind o). lra. }
    split.
    + by rewrite (calc_beta_niche_count self x population ind Hx), H0.
    + intros f rest Hf Hpos.
      rewrite (wrap_fitness_eq self x population ind f rest Hx Hf), H0.
      f_equal. destruct (decide (0 < f)) as [Hlt|Hnlt].
      * rewrite np_sign_pos, np_power_0_1 by done. lra.
      * assert (f = 0) as -> by lra. lra.
Qed.

(** ** Crossover: parents consumed and the range of a child *)

Lemma crossover_Some_inv self rand selected offspring :
  crossover self rand selected = Some offspring →
  ∀ i, (i < lambdaa self)%nat →
    is_Some (selected !! (2 * i)%nat)
    ∧ is_Some (selected !! (2 * i + 1)%nat)
    ∧ is_Some (rand !! i).
Proof.
  unfold crossover. intros Hrun i Hi.
  set (val := λ ii : nat,
         x ← selected !! (2 * ii)%nat;
         y ← selected !! (2 * ii + 1)%nat;
         w ← map (λ r : R * R, (3 * r.1 - 1, 3 * r.2 - 1)) rand !! ii;
         Some (lc self x y w)).
  assert (is_Some (val i)) as [v Hv].
  { eapply (for_each_fill_inv val); [|exact Hrun|exact Hi].
    intros j s. unfold val.
    destruct (selected !! (2 * j)%nat); [|done].
    destruct (selected !! (2 * j + 1)%nat); [|done].
    cbn [mbind option_bind]. by destruct (_ !! j). }
  unfold val in Hv.
  destruct (selected !! (2 * i)%nat); [|done].
  destruct (selected !! (2 * i + 1)%nat); [|done].
  cbn [mbind option_bind] in Hv.
  split_and!; [done | done |]. apply lookup_lt_is_Some_2.
  match type of Hv with
  | ?o ≫= _ = _ => destruct o as [w|] eqn:Hw; [|done]
  end.
  apply lookup_lt_Some in Hw. by rewrite length_map in Hw.
Qed.

Lemma crossover_Some_pairs self rand selected offspring :
  crossover self rand selected = Some offspring →
  (2 * lambdaa self <= length selected)%nat.
Proof.
  intros Hrun. destruct (lambdaa self) as [|n] eqn:Hn; [lia|].
  destruct (crossover_Some_inv self rand selected offspring Hrun n)
    as (_ & [p Hp] & _); [lia|].
  apply lookup_lt_Some in Hp. lia.
Qed.


(** X5.  [crossover] reads the parents [selected[2i]] and
    [selected[2i+1]] for every [i < lambdaa]: it returns offspring exactly
    when [selected] has at least [2 * lambdaa] rows (otherwise an index is
    out of bounds), and rows of [selected] beyond the first [2 * lambdaa]
    play no part in the result. *)
Theorem crossover_succeeds_iff self rand selected :
  length rand = lambdaa self →
  (is_Some (crossover self rand selected)
   ↔ (2 * lambdaa self <= length selected)%nat)
  ∧ crossover self rand (take (2 * lambdaa self) selected)
    = crossover self rand selected.
Proof.
  intros Hrand. split.
  - split.
    + intros [offspring Hrun]. by eapply crossover_Some_pairs.
    + intros Hlen.
      destruct (crossover_spec self rand selected Hrand Hlen) as (out & -> & _).
      done.
  - destruct (decide (2 * lambdaa self <= length selected)%nat) as [Hlen|Hlen];
      [|by rewrite take_ge by lia].
    destruct (crossover_spec self rand selected Hrand Hlen)
      as (out & -> & Hl & Hrows).
    destruct (crossover_spec self rand (take (2 * lambdaa self) selected) Hrand)
      as (out' & -> & Hl' & Hrows'); [rewrite length_take; lia|].
    f_equal. apply list_eq. intros i.
    destruct (decide (i < lambdaa self)%nat) as [Hi|Hi].
    + destruct (Hrows i Hi) as (p1 & p2 & u & H1 & H2 & Hu & ->).
      destruct (Hrows' i Hi) as (p1' & p2' & u' & H1' & H2' & Hu' & ->).
      rewrite lookup_take_lt in H1' by lia.
      rewrite lookup_take_lt in H2' by lia.
      by simplify_eq.
    + rewrite !lookup_ge_None_2 by lia. done.
Qed.

Lemma crossover_succeeds_iff_witness :
  is_Some (crossover wide_niche [(0, 0); (0, 0)]
             [(1, 1); (2, 2); (3, 3); (4, 4); (5, 5)])
  ∧ ¬ is_Some (crossover wide_niche [(0, 0); (0, 0)] [(1, 1); (2, 2); (3, 3)]).
Proof.
  split.
  - apply (crossover_succeeds_iff wide_niche [(0, 0); (0, 0)]
             [(1, 1); (2, 2); (3, 3); (4, 4); (5, 5)] eq_refl).
    simpl. lia.
  - intros H.
    apply (crossover_succeeds_iff wide_niche [(0, 0); (0, 0)]
             [(1, 1); (2, 2); (3, 3)] eq_refl) in H.
    simpl in H. lia.
Defined.





(** ** Selection copies rows of the population *)

Lemma for_each_seq_post {St} (P : nat → St → Prop) (body : nat → St → option St)
    (n : nat) (s s' : St) :
  P 0%nat s →
  (∀ i s s', (i < n)%nat → P i s → body i s = Some s' → P (S i) s') →
  for_each (seq 0 n) body s = Some s' → P n s'.
Proof.
  intros H0 Hstep. revert s'. induction n as [|n IH]; intros s' Hrun.
  - simpl in Hrun. by injection Hrun as <-.
  - rewrite seq_S, for_each_app in Hrun.
    destruct (for_each (seq 0 n) body s) as [s1|] eqn:H1; [|done].
    simpl in Hrun.
    destruct (body n s1) as [s2|] eqn:H2; [|done]. injection Hrun as <-.
    eapply Hstep; [lia | | exact H2].
    apply IH; [|done]. intros i t t' Hi. apply Hstep. lia.
Qed.

Lemma selection_Some_spec self choices population selected :
  selection self choices population = Some selected →
  length selected = mu self
  ∧ ∀ ii row, (ii < mu self)%nat → selected !! ii = Some row →
      ∃ r, r ∈ choices ii ∧ population !! r = Some row.
Proof.
  unfold selection.
  apply (for_each_seq_post
           (λ (i : nat) (s : list point),
              length s = mu self
              ∧ ∀ ii row, (ii < i)%nat → s !! ii = Some row →
                  ∃ r, r ∈ choices ii ∧ population !! r = Some row)).
  - split; [apply length_replicate | intros; lia].
  - intros i s s' Hi [Hlen Hrows] Hbody. cbv zeta in Hbody.
    destruct (mapM _ (choices i)) as [g|]; [|done].
    cbn [mbind option_bind] in Hbody.
    destruct (np_argmin g) as [m|]; [|done].
    cbn [mbind option_bind] in Hbody.
    destruct (choices i !! m) as [r|] eqn:Hr; [|done].
    cbn [mbind option_bind] in Hbody.
    destruct (population !! r) as [row|] eqn:Hrow; [|done].
    injection Hbody as <-. split; [by rewrite length_insert|].
    intros ii row' Hii Hlook.
    destruct (decide (ii = i)) as [->|Hne].
    + rewrite list_lookup_insert_eq in Hlook by lia. injection Hlook as <-.
      exists r. split; [by eapply list_elem_of_lookup_2 | done].
    + rewrite list_lookup_insert_ne in Hlook by done.
      apply (Hrows ii row'); [lia | done].
Qed.

(** X7.  Whatever the objective and the draws, a selection that returns
    has filled [mu] rows, and row [ii] is a copy of the population row at
    one of the indices sampled for tournament [ii]: selection never
    returns a point that is not in the population. *)
Theorem selection_members self choices population selected :
  selection self choices population = Some selected →
  length selected = mu self
  ∧ (∀ ii row, selected !! ii = Some row →
       ∃ r, r ∈ choices ii ∧ population !! r = Some row)
  ∧ ∀ row, row ∈ selected → row ∈ population.
Proof.
  intros Hrun.
  destruct (selection_Some_spec self choices population selected Hrun)
    as [Hlen Hrows].
  assert (∀ ii row, selected !! ii = Some row →
            ∃ r, r ∈ choices ii ∧ population !! r = Some row) as Hall.
  { intros ii row Hrow. apply Hrows; [|done].
    rewrite <- Hlen. by eapply lookup_lt_Some. }
  split_and!; [done | done |].
  intros row [ii Hrow]%list_elem_of_lookup.
  destruct (Hall ii row Hrow) as (r & _ & Hr).
  by eapply list_elem_of_lookup_2.
Qed.

Lemma selection_members_witness :
  ∃ selected,
    selection (init myfun) (λ _, [0; 1; 2]%nat)
      (initial_population (init myfun) (replicate 100 (0.5, 0.5)))
    = Some selected
    ∧ ∀ row, row ∈ selected →
        row ∈ initial_population (init myfun) (replicate 100 (0.5, 0.5)).
Proof.
  destruct (selection_spec (init myfun) eggholder (λ _, [0; 1; 2]%nat)
              (initial_population (init myfun) (replicate 100 (0.5, 0.5))))
    as (selected & Hrun & _).
  - apply myfun_pointwise.
  - simpl. lia.
  - intros ii _. split; [reflexivity|].
    unfold initial_population. rewrite length_map, length_replicate.
    repeat constructor; lia.
  - exists selected. split; [exact Hrun|].
    apply (selection_members _ _ _ _ Hrun).
Defined.

(** X8.  Selection needs something to choose from: with [mu > 0] it
    fails on an empty population, and it fails when a tournament has no
    entrant ([k = 0]), because the minimum of an empty list is asked
    for. *)
Theorem selection_needs_candidates self choices population :
  (0 < mu self)%nat →
  population = [] ∨ choices 0%nat = [] →
  selection self choices population = None.
Proof.
  intros Hmu Hcase. unfold selection.
  destruct (mu self) as [|m]; [lia|].
  cbn [seq for_each].
  destruct (choices 0%nat) as [|x ri] eqn:Hri.
  - reflexivity.
  - destruct Hcase as [->|Hnil]; [|done].
    cbn [mapM]. unfold wrap_fitness, calc_beta. by rewrite lookup_nil.
Qed.

Lemma selection_needs_candidates_witness :
  selection (init myfun) (λ _, [0; 1; 2]%nat) [] = None.
Proof.
  apply selection_needs_candidates; [simpl; lia | by left].
Defined.

(** ** Elimination moves rows, it does not make any *)

Lemma elimination_Some_inv argsort self pool keep survivors :
  elimination argsort self pool keep = Some survivors →
  length survivors = keep
  ∧ ∃ discarded, survivors ++ discarded ≡ₚ pool.
Proof.
  unfold elimination. intros Hrun.
  destruct (objf self (Rows pool)) as [fvals|]; [|done].
  cbn [mbind option_bind] in Hrun.
  destruct (for_each _ _ _) as [st|] eqn:Hloop; [|done].
  injection Hrun as <-.
  enough (length st.1.1 = keep ∧ take keep st.1.1 ++ st.1.2 ≡ₚ pool)
    as [Hlen Hperm].
  { split; [done|]. exists st.1.2. by rewrite take_ge in Hperm by lia. }
  revert Hloop.
  apply (for_each_seq_post
           (λ (i : nat) (st : list point * list point * list nat),
              length st.1.1 = keep ∧ take i st.1.1 ++ st.1.2 ≡ₚ pool)).
  - split; [apply length_replicate | done].
  - intros i [[surv joined] perm] s' Hi [Hlen Hperm] Hbody. simpl in *.
    destruct (perm !! 0%nat) as [p0|]; [|done]. simpl in Hbody.
    destruct (joined !! p0) as [row|] eqn:Hrow; [|done]. simpl in Hbody.
    destruct (mapM _ _) as [g|]; [|done]. injection Hbody as <-. simpl.
    split; [by rewrite length_insert|].
    rewrite (take_S_r _ _ row) by (apply list_lookup_insert_eq; lia).
    rewrite take_insert_ge by lia.
    rewrite <- Hperm, <- app_assoc. apply Permutation_app_head. simpl.
    symmetry. by apply delete_Permutation.
Qed.

(** X9.  Whatever the objective and whatever order [np.argsort] returns,
    an elimination that returns has [keep] survivors which, together with
    the rows it discarded, are the pool rearranged: no row is invented and
    none is taken twice.  So [keep] is at most the pool size, and keeping
    as many rows as the pool has returns the pool in another order. *)
Theorem elimination_conserves argsort self pool keep survivors :
  elimination argsort self pool keep = Some survivors →
  length survivors = keep
  ∧ (keep <= length pool)%nat
  ∧ (∃ discarded, survivors ++ discarded ≡ₚ pool
                  ∧ length discarded = (length pool - keep)%nat)
  ∧ survivors ⊆+ pool
  ∧ (keep = length pool → survivors ≡ₚ pool).
Proof.
  intros Hrun.
  destruct (elimination_Some_inv argsort self pool keep survivors Hrun)
    as (Hlen & discarded & Hperm).
  pose proof (Permutation_length Hperm) as Hl. rewrite length_app in Hl.
  assert (survivors ⊆+ pool) as Hsub.
  { rewrite <- Hperm. by apply submseteq_inserts_r. }
  split_and!; [done | lia | | done |].
  - exists discarded. split; [done | lia].
  - intros Hk. apply submseteq_length_Permutation; [done | lia].
Qed.

Lemma elimination_conserves_witness :
  ∃ survivors,
    elimination stable_argsort (init myfun) [(1, 2); (3, 4); (5, 6)] 2
    = Some survivors
    ∧ survivors ⊆+ [(1, 2); (3, 4); (5, 6)].
Proof.
  destruct (elimination_spec stable_argsort (init myfun) eggholder
              [(1, 2); (3, 4); (5, 6)] 2)
    as (survivors & slots & Hrun & _).
  - apply stable_argsort_ok.
  - apply myfun_pointwise.
  - simpl. lia.
  - exists survivors. split; [exact Hrun|].
    apply (elimination_conserves _ _ _ _ _ Hrun).
Defined.

(** X10.  With an objective that returns one value per row and an
    [np.argsort] that returns a sorting permutation, elimination returns
    survivors exactly when it is asked to keep no more rows than the pool
    has; asked for more, it runs out of rows and fails. *)
Theorem elimination_succeeds_iff argsort self f pool keep :
  argsort_ok argsort →
  pointwise (objf self) f →
  is_Some (elimination argsort self pool keep) ↔ (keep <= length pool)%nat.
Proof.
  intros Hok Hf. split.
  - intros [survivors Hrun].
    destruct (elimination_Some_inv argsort self pool keep survivors Hrun)
      as (Hlen & discarded & Hperm).
    apply Permutation_length in Hperm. rewrite length_app in Hperm. lia.
  - intros Hkeep.
    destruct (elimination_spec argsort self f pool keep Hok Hf Hkeep)
      as (survivors & slots & -> & _).
    done.
Qed.

Lemma elimination_succeeds_iff_witness :
  is_Some (elimination stable_argsort (init myfun) [(1, 2); (3, 4); (5, 6)] 3)
  ∧ ¬ is_Some (elimination stable_argsort (init myfun)
                 [(1, 2); (3, 4); (5, 6)] 4).
Proof.
  split.
  - apply (elimination_succeeds_iff stable_argsort (init myfun) eggholder
             [(1, 2); (3, 4); (5, 6)] 3 stable_argsort_ok myfun_pointwise).
    simpl. lia.
  - intros H.
    apply (elimination_succeeds_iff stable_argsort (init myfun) eggholder
             [(1, 2); (3, 4); (5, 6)] 4 stable_argsort_ok myfun_pointwise) in H.
    simpl in H. lia.
Defined.

(** ** What a run reports *)

Lemma np_min_spec v b : np_min v = Some b → b ∈ v ∧ ∀ y, y ∈ v → b <= y.
Proof.
  intros Hmin. destruct (decide (v = [])) as [->|Hne]; [done|].
  destruct (np_argmin_spec v Hne) as (i & m & Hi & Hm & Hle & _).
  unfold np_min in Hmin. rewrite Hi in Hmin. simpl in Hmin.
  rewrite Hm in Hmin. injection Hmin as <-. split.
  - by eapply list_elem_of_lookup_2.
  - intros y [j Hj]%list_elem_of_lookup. by eapply Hle.
Qed.

Lemma np_sum_ge v b : (∀ y, y ∈ v → b <= y) → INR (length v) * b <= np_sum v.
Proof.
  induction v as [|x v IH]; intros Hb; [simpl; lra|].
  cbn [length]. rewrite S_INR. change (np_sum (x :: v)) with (x + np_sum v).
  pose proof (Hb x (list_elem_of_here _ _)).
  assert (INR (length v) * b <= np_sum v)
    by (apply IH; intros y Hy; by apply Hb, list_elem_of_further).
  lra.
Qed.


Lemma INR_length_pos {A} (v : list A) : v ≠ [] → 0 < INR (length v).
Proof.
  intros Hne. destruct v as [|x v]; [done|].
  cbn [length]. rewrite S_INR. pose proof (pos_INR (length v)). lra.
Qed.

Lemma np_mean_ge v b : v ≠ [] → (∀ y, y ∈ v → b <= y) → b <= np_mean v.
Proof.
  intros Hne Hb. pose proof (INR_length_pos v Hne) as Hn.
  pose proof (np_sum_ge v b Hb). unfold np_mean.
  apply (Rmult_le_reg_r (INR (length v))); [done|].
  unfold Rdiv. rewrite Rmult_assoc, Rinv_l by lra. lra.
Qed.


Lemma generation_Some_inv argsort self d population r :
  generation argsort self d population = Some r →
  ∃ selected offspring mutated fvals bestObj,
    selection self (sel_choices d) population = Some selected
    ∧ crossover self (cross_rand d) selected = Some offspring
    ∧ elimination argsort self (mutated ++ population) (lambdaa self)
      = Some r.1
    ∧ objf self (Rows r.1) = Some fvals
    ∧ np_min fvals = Some bestObj
    ∧ r.2 = [Print (np_mean fvals) bestObj; Plot r.1 (intMax self)].
Proof.
  unfold generation. intros Hrun.
  destruct (selection _ _ _) as [selected|] eqn:Hsel; [|done].
  cbn [mbind option_bind] in Hrun.
  destruct (crossover _ _ _) as [offspring|] eqn:Hcross; [|done].
  cbn [mbind option_bind] in Hrun.
  destruct (mutation _ _ _ _ _ _) as [lh|]; [|done].
  cbn [mbind option_bind] in Hrun.
  destruct (lh.2 !! lh.1) as [mutated|]; [|done].
  cbn [mbind option_bind] in Hrun.
  destruct (elimination _ _ _ _) as [pop'|] eqn:Helim; [|done].
  cbn [mbind option_bind] in Hrun.
  destruct (objf self (Rows pop')) as [fvals|] eqn:Hf; [|done].
  cbn [mbind option_bind] in Hrun.
  destruct (np_min fvals) as [best|] eqn:Hbest; [|done].
  cbn [mbind option_bind] in Hrun. injection Hrun as <-.
  by exists selected, offspring, mutated, fvals, best.
Qed.

(** The two events of a generation: its population has [lambdaa] rows,
    and the printed best is at most the printed mean. *)
Lemma generation_report argsort self d population r :
  generation argsort self d population = Some r →
  ∃ meanObj bestObj,
    r.2 = [Print meanObj bestObj; Plot r.1 (intMax self)]
    ∧ length r.1 = lambdaa self
    ∧ bestObj <= meanObj.
Proof.
  intros Hrun.
  destruct (generation_Some_inv argsort self d population r Hrun)
    as (selected & offspring & mutated & fvals & best
        & _ & _ & Helim & Hf & Hbest & Hev).
  exists (np_mean fvals), best. split_and!; [done | |].
  - by destruct (elimination_Some_inv _ _ _ _ _ Helim).
  - destruct (np_min_spec fvals best Hbest) as [Hin Hle].
    apply np_mean_ge; [|done]. intros ->. by apply elem_of_nil in Hin.
Qed.

Lemma optimize_Some_inv argsort self rand0 gens events :
  optimize argsort self rand0 gens = Some events →
  ∃ st,
    for_each (seq 0 (numIters self))
      (λ i (st : list point * list event),
         r ← generation argsort self (gens i) st.1;
         Some (r.1, st.2 ++ r.2))
      (initial_population self rand0,
       [Plot (initial_population self rand0) (intMax self)]) = Some st
    ∧ events = st.2 ++ [Done].
Proof.
  unfold optimize. intros Hrun.
  destruct (for_each _ _ _) as [st|]; [|done].
  injection Hrun as <-. by exists st.
Qed.



(** ** The best value never gets worse *)

Lemma printed_app e1 e2 : printed (e1 ++ e2) = printed e1 ++ printed e2.
Proof. apply omap_app. Qed.

(** The best value of the population a generation returns: some row has
    it, no row of the new population and no row of the old one is
    better. *)
Lemma generation_best argsort self f d population r :
  argsort_ok argsort →
  pointwise (objf self) f →
  generation argsort self d population = Some r →
  ∃ m b,
    r.2 = [Print m b; Plot r.1 (intMax self)]
    ∧ m = np_mean (map f r.1)
    ∧ (∃ p, p ∈ r.1 ∧ f p = b)
    ∧ (∀ p, p ∈ r.1 → b <= f p)
    ∧ (∀ p, p ∈ population → b <= f p).
Proof.
  intros Hok Hf Hrun.
  destruct (generation_Some_inv argsort self d population r Hrun)
    as (selected & offspring & mutated & fvals & best
        & _ & _ & Helim & Hfv & Hbest & Hev).
  rewrite (proj2 Hf) in Hfv. injection Hfv as <-.
  destruct (np_min_spec _ _ Hbest) as [Hin Hle].
  apply list_elem_of_fmap in Hin as (pb & -> & Hpb).
  assert (∀ p, p ∈ r.1 → f pb <= f p) as Hnew.
  { intros p Hp. apply Hle. by apply list_elem_of_fmap_2. }
  exists (np_mean (map f r.1)), (f pb).
  split_and!; [done | done | by exists pb | done |].
  intros q Hq.
  destruct (elimination_Some_inv _ _ _ _ _ Helim) as (Hlen & discarded & Hperm).
  apply Permutation_length in Hperm. rewrite length_app in Hperm.
  destruct (elimination_spec argsort self f (mutated ++ population)
              (lambdaa self) Hok Hf)
    as (surv & slots & Hrun' & _ & Hsl & _ & Hopt); [lia|].
  rewrite Helim in Hrun'. injection Hrun' as <-.
  assert ((0 < length r.1)%nat) as Hpos.
  { apply list_elem_of_lookup in Hpb as [j Hj]. apply lookup_lt_Some in Hj. lia. }
  destruct (lookup_lt_is_Some_2 slots 0) as [s Hs]; [lia|].
  destruct (Hopt 0%nat s Hs) as (row & _ & Hrow & Hmin).
  assert (q ∈ mutated ++ population) as [j Hj]%list_elem_of_lookup
    by (apply elem_of_app; by right).
  specialize (Hmin j q Hj (not_elem_of_nil _)).
  unfold score in Hmin. rewrite !decide_True in Hmin by done.
  etrans; [|exact Hmin]. apply Hnew. by eapply list_elem_of_lookup_2.
Qed.

(** X12.  The loop is elitist.  With an objective that returns one value
    per row and an [np.argsort] that returns a sorting permutation, the
    row with the best raw value of offspring and population together is
    always the first survivor; so the best values on the progress lines
    never increase from one line to a later one, and each of them is at
    most the objective value of every row of the initial population. *)
Theorem optimize_elitist argsort self f rand0 gens events :
  argsort_ok argsort →
  pointwise (objf self) f →
  optimize argsort self rand0 gens = Some events →
  (∀ i j (s1 s2 : R * R), (i <= j)%nat →
     printed events !! i = Some s1 → printed events !! j = Some s2 →
     s2.2 <= s1.2)
  ∧ (∀ (s : R * R) p0, s ∈ printed events →
       p0 ∈ initial_population self rand0 → s.2 <= f p0).
Proof.
  intros Hok Hf Hrun.
  destruct (optimize_Some_inv argsort self rand0 gens events Hrun)
    as (st & Hloop & ->).
  rewrite printed_app. simpl. rewrite app_nil_r.
  set (P0 := initial_population self rand0) in *.
  enough ((∀ i j (s1 s2 : R * R), (i <= j)%nat →
             printed st.2 !! i = Some s1 → printed st.2 !! j = Some s2 →
             s2.2 <= s1.2)
          ∧ (∀ s : R * R, s ∈ printed st.2 → ∃ p, p ∈ st.1 ∧ f p <= s.2)
          ∧ (∀ p0, p0 ∈ P0 → ∃ p, p ∈ st.1 ∧ f p <= f p0)
          ∧ (∀ (s : R * R) p0, s ∈ printed st.2 → p0 ∈ P0 → s.2 <= f p0))
    as (H1 & _ & _ & H4); [by split|].
  revert Hloop.
  apply (for_each_inv
           (λ st : list point * list event,
              (∀ i j (s1 s2 : R * R), (i <= j)%nat →
                 printed st.2 !! i = Some s1 → printed st.2 !! j = Some s2 →
                 s2.2 <= s1.2)
              ∧ (∀ s : R * R, s ∈ printed st.2 → ∃ p, p ∈ st.1 ∧ f p <= s.2)
              ∧ (∀ p0, p0 ∈ P0 → ∃ p, p ∈ st.1 ∧ f p <= f p0)
              ∧ (∀ (s : R * R) p0, s ∈ printed st.2 → p0 ∈ P0 →
                   s.2 <= f p0))).
  - intros i s s' _ (H1 & H2 & H3 & H4) Hbody. cbv beta in Hbody.
    destruct (generation argsort self (gens i) s.1) as [r|] eqn:Hgen; [|done].
    injection Hbody as <-.
    destruct (generation_best argsort self f (gens i) s.1 r Hok Hf Hgen)
      as (m & b & Hev & _ & (pb & Hpb & Hfb) & _ & Hold).
    cbn [fst snd]. rewrite printed_app, Hev.
    change (printed [Print m b; Plot r.1 (intMax self)]) with [(m, b)].
    assert (∀ s1 : R * R, s1 ∈ printed s.2 → b <= s1.2) as Hb.
    { intros s1 Hs1. destruct (H2 s1 Hs1) as (p & Hp & Hle).
      specialize (Hold p Hp). lra. }
    split_and!.
    + intros i0 j s1 s2 Hij
        [[Hi Hs1]|[Hi <-]]%lookup_snoc_Some [[Hj Hs2]|[Hj <-]]%lookup_snoc_Some.
      * exact (H1 i0 j s1 s2 Hij Hs1 Hs2).
      * simpl. apply Hb. by eapply list_elem_of_lookup_2.
      * exfalso. lia.
      * simpl. lra.
    + intros s0 [Hs0|Hs0]%elem_of_app.
      * exists pb. split; [done|]. specialize (Hb s0 Hs0). lra.
      * apply list_elem_of_singleton in Hs0 as ->. exists pb. split; [done|].
        simpl. lra.
    + intros p0 Hp0. destruct (H3 p0 Hp0) as (p & Hp & Hle).
      exists pb. split; [done|]. specialize (Hold p Hp). lra.
    + intros s0 p0 [Hs0|Hs0]%elem_of_app Hp0.
      * by apply H4.
      * apply list_elem_of_singleton in Hs0 as ->. simpl.
        destruct (H3 p0 Hp0) as (p & Hp & Hle). specialize (Hold p Hp). lra.
  - simpl. split_and!.
    + intros i j s1 s2 _ Hi. by rewrite lookup_nil in Hi.
    + intros s0 Hs0. by apply elem_of_nil in Hs0.
    + intros p0 Hp0. exists p0. split; [done | lra].
    + intros s0 p0 Hs0. by apply elem_of_nil in Hs0.
Qed.

Lemma optimize_elitist_witness :
  ∃ events,
    optimize stable_argsort (init myfun) (replicate 100 (0.5, 0.5))
      (λ _, calm_draws) = Some events
    ∧ ∀ s : R * R, s ∈ printed events → s.2 <= eggholder (250, 250).
Proof.
  destruct (optimize_total stable_argsort (init myfun) eggholder
              (replicate 100 (0.5, 0.5)) (λ _, calm_draws))
    as (events & Hrun & _).
  - apply stable_argsort_ok.
  - apply myfun_pointwise.
  - simpl. lia.
  - simpl. lia.
  - reflexivity.
  - apply length_replicate.
  - intros i _. apply calm_draws_ok.
  - exists events. split; [exact Hrun|].
    destruct (optimize_elitist stable_argsort (init myfun) eggholder _ _ _
                stable_argsort_ok myfun_pointwise Hrun) as [_ Hinit].
    intros s Hs.
    replace (250, 250) with (pscale (intMax (init myfun)) (0.5, 0.5))
      by (unfold pscale; simpl; f_equal; lra).
    apply Hinit; [done|].
    unfold initial_population. apply list_elem_of_fmap_2.
    apply elem_of_replicate. split; [done | lia].
Defined.

(** ** Sizes a run cannot work with *)

Lemma optimize_first_fails argsort self rand0 gens :
  (0 < numIters self)%nat →
  generation argsort self (gens 0%nat) (initial_population self rand0) = None →
  optimize argsort self rand0 gens = None.
Proof.
  intros Hn Hgen. unfold optimize.
  destruct (numIters self) as [|n]; [lia|].
  cbn [seq for_each fst]. by rewrite Hgen.
Qed.

Lemma generation_no_rows argsort self f d population :
  pointwise (objf self) f →
  lambdaa self = 0%nat →
  generation argsort self d population = None.
Proof.
  intros Hf H0.
  destruct (generation argsort self d population) as [r|] eqn:Hrun; [|done].
  exfalso.
  destruct (generation_Some_inv argsort self d population r Hrun)
    as (selected & offspring & mutated & fvals & best
        & _ & _ & Helim & Hfv & Hbest & _).
  destruct (elimination_Some_inv _ _ _ _ _ Helim) as [Hlen _].
  rewrite H0 in Hlen. apply nil_length_inv in Hlen.
  rewrite Hlen, (proj2 Hf) in Hfv. injection Hfv as <-. done.
Qed.

Lemma generation_few_parents argsort self d population :
  (mu self < 2 * lambdaa self)%nat →
  generation argsort self d population = None.
Proof.
  intros Hmu.
  destruct (generation argsort self d population) as [r|] eqn:Hrun; [|done].
  exfalso.
  destruct (generation_Some_inv argsort self d population r Hrun)
    as (selected & offspring & mutated & fvals & best & Hsel & Hcross & _).
  destruct (selection_Some_spec _ _ _ _ Hsel) as [Hlen _].
  pose proof (crossover_Some_pairs _ _ _ _ Hcross). lia.
Qed.

(** X13.  A solver with [lambdaa = 0] cannot complete a run of one or
    more iterations: the population elimination returns is empty, and the
    minimum of its (empty) array of objective values is asked for. *)
Theorem optimize_no_rows argsort self f rand0 gens :
  pointwise (objf self) f →
  lambdaa self = 0%nat →
  (0 < numIters self)%nat →
  optimize argsort self rand0 gens = None.
Proof.
  intros Hf H0 Hn. apply optimize_first_fails; [done|].
  by eapply generation_no_rows.
Qed.

Lemma optimize_no_rows_witness :
  optimize stable_argsort no_rows [] (λ _, calm_draws) = None.
Proof.
  apply (optimize_no_rows stable_argsort no_rows eggholder).
  - apply myfun_pointwise.
  - reflexivity.
  - simpl. lia.
Defined.

(** X14.  Crossover pairs up [2 * lambdaa] parents and selection
    delivers [mu]: a solver with [mu < 2 * lambdaa] cannot complete a run
    of one or more iterations, whatever the objective and the draws. *)
Theorem optimize_few_parents argsort self rand0 gens :
  (mu self < 2 * lambdaa self)%nat →
  (0 < numIters self)%nat →
  optimize argsort self rand0 gens = None.
Proof.
  intros Hmu Hn. apply optimize_first_fails; [done|].
  by apply generation_few_parents.
Qed.

Lemma optimize_few_parents_witness :
  optimize stable_argsort few_parents (replicate 100 (0.5, 0.5))
    (λ _, calm_draws) = None.
Proof.
  apply (optimize_few_parents stable_argsort few_parents); simpl; lia.
Defined.

(** ** How far mutation moves a row *)





(** ** The demonstration objective is bounded on the domain *)




(** ** Progress lines of a bounded objective *)




(** ** The shipped configuration *)



(** ** The grid of the plots *)

Lemma lookup_concat_uniform {A} (c : nat) (bs : list (list A)) i j b :
  Forall (λ b, length b = c) bs →
  bs !! i = Some b → (j < c)%nat →
  concat bs !! (i * c + j)%nat = b !! j.
Proof.
  intros Hall. revert i.
  induction Hall as [|b0 bs Hb0 Hall IH]; intros i Hb Hj.
  - by rewrite lookup_nil in Hb.
  - destruct i as [|i]; simpl in *.
    + injection Hb as ->. by rewrite lookup_app_l by lia.
    + rewrite lookup_app_r by lia. rewrite Hb0.
      replace (c + i * c + j - c)%nat with (i * c + j)%nat by lia.
      by apply IH.
Qed.

Lemma length_concat_uniform {A} (c : nat) (bs : list (list A)) :
  Forall (λ b, length b = c) bs → length (concat bs) = (length bs * c)%nat.
Proof.
  induction 1 as [|b bs Hb Hall IH]; [done|].
  simpl. rewrite length_app, IH, Hb. lia.
Qed.

Lemma grid_uniform (g : nat → nat → R) (r c : nat) :
  Forall (λ b, length b = c) (map (λ i, map (λ j, g i j) (seq 0 c)) (seq 0 r)).
Proof.
  apply Forall_map, Forall_forall. intros i _. simpl.
  by rewrite length_map, length_seq.
Qed.

Lemma grid_lookup (g : nat → nat → R) (r c a b : nat) :
  (a < r)%nat → (b < c)%nat →
  concat (map (λ i, map (λ j, g i j) (seq 0 c)) (seq 0 r)) !! (a * c + b)%nat
  = Some (g a b).
Proof.
  intros Ha Hb.
  rewrite (lookup_concat_uniform c _ a b (map (λ j, g a j) (seq 0 c))).
  - by rewrite list_lookup_fmap, lookup_seq_lt.
  - apply grid_uniform.
  - by rewrite list_lookup_fmap, lookup_seq_lt.
  - done.
Qed.

Lemma grid_length (g : nat → nat → R) (r c : nat) :
  length (concat (map (λ i, map (λ j, g i j) (seq 0 c)) (seq 0 r)))
  = (r * c)%nat.
Proof.
  rewrite (length_concat_uniform c) by apply grid_uniform.
  by rewrite length_map, length_seq.
Qed.

Lemma np_ceil_INR n : np_ceil (INR n) = Z.of_nat n.
Proof.
  unfold np_ceil.
  assert (up (- INR n) = (1 - Z.of_nat n)%Z) as ->; [|lia].
  symmetry. apply tech_up; rewrite minus_IZR, <- INR_IZR_INZ; lra.
Qed.

(** On a bound that is a whole number of steps, [np.arange] stops one
    step short of the bound. *)
Lemma np_arange_exact step n :
  0 < step →
  np_arange (INR n * step) step = map (λ i, INR i * step) (seq 0 n).
Proof.
  intros Hs. unfold np_arange.
  replace (INR n * step / step) with (INR n) by (field; lra).
  by rewrite np_ceil_INR, Nat2Z.id.
Qed.

Lemma meshgrid_X_at (x : list R) i j :
  (i < length x)%nat → (j < length x)%nat →
  at2 (np_meshgrid x x).1 i j = x !!! j.
Proof.
  intros Hi Hj. unfold at2. simpl. apply list_lookup_total_correct.
  rewrite (lookup_concat_uniform (length x) _ i j x).
  - by apply list_lookup_lookup_total_lt.
  - apply Forall_map, Forall_forall. by intros.
  - rewrite list_lookup_fmap.
    by destruct (lookup_lt_is_Some_2 x i Hi) as [xi ->].
  - done.
Qed.

Lemma meshgrid_Y_at (x : list R) i j :
  (i < length x)%nat → (j < length x)%nat →
  at2 (np_meshgrid x x).2 i j = x !!! i.
Proof.
  intros Hi Hj. unfold at2. simpl. apply list_lookup_total_correct.
  rewrite (lookup_concat_uniform (length x) _ i j
             (replicate (length x) (x !!! i))).
  - by apply lookup_replicate_2.
  - apply Forall_map, Forall_forall. intros y _. simpl.
    apply length_replicate.
  - by rewrite list_lookup_fmap, (list_lookup_lookup_total_lt x i Hi).
  - done.
Qed.

Lemma flatten_F_lookup (A : array2) a b :
  (a < ncols A)%nat → (b < nrows A)%nat →
  flatten_F A !! (a * nrows A + b)%nat = Some (at2 A b a).
Proof. intros Ha Hb. unfold flatten_F. by rewrite grid_lookup. Qed.

Lemma flatten_F_length (A : array2) :
  length (flatten_F A) = (ncols A * nrows A)%nat.
Proof. unfold flatten_F. by rewrite grid_length. Qed.

(** The three arrays of the grid: [X[i, j] = x[j]] and [Y[i, j] = y[i]]
    as [np.meshgrid] lays them out, and [Z[i, j]] the objective at
    [(x[i], y[j])]. *)
Lemma landscape_spec bound step :
  let x := np_arange bound step in
  let n := length x in
  ∃ X Y Z,
    landscape bound step = Some (X, Y, Z)
    ∧ (nrows X = n ∧ ncols X = n)
    ∧ (nrows Y = n ∧ ncols Y = n)
    ∧ (nrows Z = n ∧ ncols Z = n)
    ∧ length (elems Z) = (n * n)%nat
    ∧ ∀ i j, (i < n)%nat → (j < n)%nat →
        at2 X i j = x !!! j
        ∧ at2 Y i j = x !!! i
        ∧ at2 Z i j = eggholder (x !!! i, x !!! j).
Proof.
  intros x n. unfold landscape. fold x.
  destruct (np_meshgrid x x) as [X Y] eqn:Hmesh.
  assert (X = (np_meshgrid x x).1) as HX by (by rewrite Hmesh).
  assert (Y = (np_meshgrid x x).2) as HY by (by rewrite Hmesh).
  assert (nrows X = n ∧ ncols X = n) as [HXr HXc] by (by rewrite HX).
  assert (nrows Y = n ∧ ncols Y = n) as [HYr HYc] by (by rewrite HY).
  assert (length (flatten_F X) = (n * n)%nat) as HfX
    by (by rewrite flatten_F_length, HXr, HXc).
  assert (length (flatten_F Y) = (n * n)%nat) as HfY
    by (by rewrite flatten_F_length, HYr, HYc).
  assert (length (map eggholder (zip (flatten_F X) (flatten_F Y)))
          = (n * n)%nat) as HZ.
  { rewrite length_map, length_zip_with, HfX, HfY. lia. }
  unfold np_vstack_T. rewrite option_guard_True by lia.
  cbn [mbind option_bind]. rewrite myfun_Rows. cbn [mbind option_bind].
  unfold np_reshape. fold n.
  rewrite option_guard_True by exact HZ.
  cbn [mbind option_bind].
  eexists X, Y, _. split; [reflexivity|].
  split_and!; [done..|].
  intros i j Hi Hj. split_and!.
  - rewrite HX. by apply meshgrid_X_at.
  - rewrite HY. by apply meshgrid_Y_at.
  - unfold at2. simpl. apply list_lookup_total_correct.
    rewrite list_lookup_fmap.
    assert (zip (flatten_F X) (flatten_F Y) !! (i * n + j)%nat
            = Some (x !!! i, x !!! j)) as Hk;
      [|exact (f_equal (fmap eggholder) Hk)].
    apply lookup_zip_Some. split.
    + rewrite <- HXr at 1. rewrite flatten_F_lookup by lia.
      rewrite HX. f_equal. by apply meshgrid_X_at.
    + rewrite <- HYr at 1. rewrite flatten_F_lookup by lia.
      rewrite HY. f_equal. by apply meshgrid_Y_at.
Qed.

Lemma np_min_tabulate (g : nat → R) n :
  (0 < n)%nat →
  ∃ m, np_min (map g (seq 0 n)) = Some m
       ∧ (∃ i, (i < n)%nat ∧ g i = m)
       ∧ ∀ i, (i < n)%nat → m <= g i.
Proof.
  intros Hn. destruct (np_min_is_Some (map g (seq 0 n))) as [m Hm].
  { destruct n; [lia | done]. }
  exists m. split; [done|].
  destruct (np_min_spec _ _ Hm) as [Hin Hle]. split.
  - apply list_elem_of_fmap in Hin as (i & -> & Hi%elem_of_seq).
    exists i. split; [lia | done].
  - intros i Hi. apply Hle, list_elem_of_fmap_2, elem_of_seq. lia.
Qed.

Lemma np_argmin_tabulate (g : nat → R) n :
  (0 < n)%nat →
  ∃ k, np_argmin (map g (seq 0 n)) = Some k
       ∧ (k < n)%nat
       ∧ (∀ i, (i < n)%nat → g k <= g i)
       ∧ (∀ i, (i < k)%nat → g k < g i).
Proof.
  intros Hn.
  destruct (np_argmin_spec (map g (seq 0 n))) as (k & m & Hk & Hm & Hle & Hlt).
  { destruct n; [lia | done]. }
  assert ((k < n)%nat) as Hkn.
  { apply lookup_lt_Some in Hm. by rewrite length_map, length_seq in Hm. }
  rewrite list_lookup_fmap, lookup_seq_lt in Hm by done.
  simpl in Hm. injection Hm as <-.
  exists k. split_and!; [done | done | |].
  - intros i Hi. apply (Hle i). by rewrite list_lookup_fmap, lookup_seq_lt.
  - intros i Hi. apply (Hlt i); [done|].
    rewrite list_lookup_fmap, lookup_seq_lt by lia. done.
Qed.

(** Where the star goes: [mini] is the first row of [Z] that holds the
    least value of the whole array, and [minj] the first column that holds
    it. *)
Lemma min_location_spec (Z : array2) :
  (0 < nrows Z)%nat →
  (0 < ncols Z)%nat →
  ∃ mini minj gmin,
    min_location Z = Some (mini, minj)
    ∧ (mini < nrows Z)%nat
    ∧ (minj < ncols Z)%nat
    ∧ (∀ a b, (a < nrows Z)%nat → (b < ncols Z)%nat → gmin <= at2 Z a b)
    ∧ (∃ b, (b < ncols Z)%nat ∧ at2 Z mini b = gmin)
    ∧ (∃ a, (a < nrows Z)%nat ∧ at2 Z a minj = gmin)
    ∧ (∀ a b, (a < nrows Z)%nat → (b < ncols Z)%nat → at2 Z a b = gmin →
         (mini <= a)%nat ∧ (minj <= b)%nat)
    ∧ ((∀ a b a' b', (a < nrows Z)%nat → (b < ncols Z)%nat →
          (a' < nrows Z)%nat → (b' < ncols Z)%nat →
          at2 Z a b = gmin → at2 Z a' b' = gmin → a = a' ∧ b = b') →
       at2 Z mini minj = gmin).
Proof.
  intros Hr Hc.
  set (cm := λ j, default 0 (np_min (map (λ i, at2 Z i j) (seq 0 (nrows Z))))).
  set (rm := λ i, default 0 (np_min (map (λ j, at2 Z i j) (seq 0 (ncols Z))))).
  assert (∀ j, np_min (map (λ i, at2 Z i j) (seq 0 (nrows Z))) = Some (cm j)
               ∧ (∃ i, (i < nrows Z)%nat ∧ at2 Z i j = cm j)
               ∧ ∀ i, (i < nrows Z)%nat → cm j <= at2 Z i j) as Hcm.
  { intros j.
    destruct (np_min_tabulate (λ i, at2 Z i j) (nrows Z) Hr)
      as (m & Hm & Hatt & Hle).
    unfold cm. rewrite Hm. by split_and!. }
  assert (∀ i, np_min (map (λ j, at2 Z i j) (seq 0 (ncols Z))) = Some (rm i)
               ∧ (∃ j, (j < ncols Z)%nat ∧ at2 Z i j = rm i)
               ∧ ∀ j, (j < ncols Z)%nat → rm i <= at2 Z i j) as Hrm.
  { intros i.
    destruct (np_min_tabulate (λ j, at2 Z i j) (ncols Z) Hc)
      as (m & Hm & Hatt & Hle).
    unfold rm. rewrite Hm. by split_and!. }
  assert (np_min_axis0 Z = Some (map cm (seq 0 (ncols Z)))) as H0.
  { unfold np_min_axis0. rewrite option_guard_True by done.
    apply mapM_lookup_Some. intros j _. apply Hcm. }
  assert (np_min_axis1 Z = Some (map rm (seq 0 (nrows Z)))) as H1.
  { unfold np_min_axis1. rewrite option_guard_True by done.
    apply mapM_lookup_Some. intros i _. apply Hrm. }
  destruct (np_argmin_tabulate cm (ncols Z) Hc)
    as (minj & Hminj & Hjlt & Hjle & Hjfirst).
  destruct (np_argmin_tabulate rm (nrows Z) Hr)
    as (mini & Hmini & Hilt & Hile & Hifirst).
  assert (rm mini = cm minj) as Heq.
  { destruct (Hcm minj) as (_ & (a & Ha & Haeq) & _).
    destruct (Hrm mini) as (_ & (b & Hb & Hbeq) & _).
    apply Rle_antisym.
    - pose proof (Hile a Ha).
      pose proof (proj2 (proj2 (Hrm a)) minj Hjlt). lra.
    - pose proof (Hjle b Hb).
      pose proof (proj2 (proj2 (Hcm b)) mini Hilt). lra. }
  exists mini, minj, (cm minj). split_and!.
  - unfold min_location. rewrite H0. cbn [mbind option_bind].
    rewrite Hminj. cbn [mbind option_bind]. rewrite H1.
    cbn [mbind option_bind]. by rewrite Hmini.
  - done.
  - done.
  - intros a b Ha Hb. pose proof (Hjle b Hb).
    pose proof (proj2 (proj2 (Hcm b)) a Ha). lra.
  - destruct (Hrm mini) as (_ & (b & Hb & Hbeq) & _).
    exists b. split; [done | lra].
  - destruct (Hcm minj) as (_ & Hatt & _). exact Hatt.
  - intros a b Ha Hb Hab. split.
    + destruct (decide (mini <= a)%nat) as [|Hn]; [done|]. exfalso.
      pose proof (Hifirst a ltac:(lia)).
      pose proof (proj2 (proj2 (Hrm a)) b Hb). lra.
    + destruct (decide (minj <= b)%nat) as [|Hn]; [done|]. exfalso.
      pose proof (Hjfirst b ltac:(lia)).
      pose proof (proj2 (proj2 (Hcm b)) a Ha). lra.
  - intros Huniq.
    destruct (Hrm mini) as (_ & (b & Hb & Hbeq) & _).
    destruct (Hcm minj) as (_ & (a & Ha & Haeq) & _).
    destruct (Huniq mini b a minj Hilt Hb Ha Hjlt) as [-> ->]; [lra | done |].
    done.
Qed.

(** The grid for a bound of [n] whole steps. *)
Lemma landscape_steps (step : R) (n : nat) :
  0 < step →
  ∃ X Y Z,
    landscape (INR n * step) step = Some (X, Y, Z)
    ∧ (nrows X = n ∧ ncols X = n)
    ∧ (nrows Y = n ∧ ncols Y = n)
    ∧ (nrows Z = n ∧ ncols Z = n)
    ∧ length (elems Z) = (n * n)%nat
    ∧ ∀ i j, (i < n)%nat → (j < n)%nat →
        at2 X i j = INR j * step
        ∧ at2 Y i j = INR i * step
        ∧ at2 Z i j = eggholder (INR i * step, INR j * step)
        ∧ at2 Z i j = eggholder (at2 Y i j, at2 X i j).
Proof.
  intros Hs.
  destruct (landscape_spec (INR n * step) step)
    as (X & Y & Z & Hrun & HX & HY & HZ & Hlen & Hat).
  rewrite np_arange_exact, length_map, length_seq in * by done.
  exists X, Y, Z. split; [done|]. do 4 (split; [done|]).
  intros i j Hi Hj. destruct (Hat i j Hi Hj) as (H1 & H2 & H3).
  assert (∀ a, (a < n)%nat →
            map (λ i, INR i * step) (seq 0 n) !!! a = INR a * step) as Hx.
  { intros a Ha. apply list_lookup_total_correct.
    by rewrite list_lookup_fmap, lookup_seq_lt. }
  rewrite (Hx j Hj) in H1. rewrite (Hx i Hi) in H2.
  rewrite (Hx i Hi), (Hx j Hj) in H3.
  split_and!; [done | done | done |]. by rewrite H1, H2.
Qed.

(** X19.  The grid both plotting functions build, for a bound of [n]
    whole steps: [X], [Y] and [Z] are [n] by [n]; [X[i, j]] is the [j]-th
    grid value and [Y[i, j]] the [i]-th, as [np.meshgrid] lays them out,
    while [Z[i, j]] is the objective at [(x[i], y[j])]: [Z] is indexed by
    the [x] index first, the transpose of the layout of [X] and [Y]. *)
Theorem landscape_grid (step : R) (n : nat) :
  0 < step →
  ∃ X Y Z,
    landscape (INR n * step) step = Some (X, Y, Z)
    ∧ (nrows X = n ∧ ncols X = n)
    ∧ (nrows Y = n ∧ ncols Y = n)
    ∧ (nrows Z = n ∧ ncols Z = n)
    ∧ length (elems Z) = (n * n)%nat
    ∧ ∀ i j, (i < n)%nat → (j < n)%nat →
        at2 X i j = INR j * step
        ∧ at2 Y i j = INR i * step
        ∧ at2 Z i j = eggholder (INR i * step, INR j * step)
        ∧ at2 Z i j = eggholder (at2 Y i j, at2 X i j).
Proof. apply landscape_steps. Qed.

Lemma landscape_grid_witness :
  ∃ X Y Z,
    landscape 500 1 = Some (X, Y, Z)
    ∧ nrows Z = 500%nat ∧ ncols Z = 500%nat.
Proof.
  destruct (landscape_grid 1 500 Rlt_0_1)
    as (X & Y & Z & Hrun & _ & _ & [Hr Hc] & _).
  exists X, Y, Z. split_and!; [|done..].
  replace 500 with (INR 500 * 1); [done|].
  rewrite INR_IZR_INZ. change (Z.of_nat 500) with 500%Z. lra.
Defined.

(** X20.  The star of the 2-D plot.  For an array with at least one row
    and one column, [mini] is the first row that holds the least value of
    the whole array and [minj] the first column that holds it.  Every cell
    with the least value lies at or beyond [(mini, minj)] in both indices;
    if only one cell has the least value, the star is on it, but when
    several do, [(mini, minj)] need not be one of them. *)
Theorem min_location_first (Z : array2) :
  (0 < nrows Z)%nat →
  (0 < ncols Z)%nat →
  ∃ mini minj gmin,
    min_location Z = Some (mini, minj)
    ∧ (mini < nrows Z)%nat
    ∧ (minj < ncols Z)%nat
    ∧ (∀ a b, (a < nrows Z)%nat → (b < ncols Z)%nat → gmin <= at2 Z a b)
    ∧ (∃ b, (b < ncols Z)%nat ∧ at2 Z mini b = gmin)
    ∧ (∃ a, (a < nrows Z)%nat ∧ at2 Z a minj = gmin)
    ∧ (∀ a b, (a < nrows Z)%nat → (b < ncols Z)%nat → at2 Z a b = gmin →
         (mini <= a)%nat ∧ (minj <= b)%nat)
    ∧ ((∀ a b a' b', (a < nrows Z)%nat → (b < ncols Z)%nat →
          (a' < nrows Z)%nat → (b' < ncols Z)%nat →
          at2 Z a b = gmin → at2 Z a' b' = gmin → a = a' ∧ b = b') →
       at2 Z mini minj = gmin).
Proof. apply min_location_spec. Qed.

Lemma min_location_first_witness :
  min_location two_minima = Some (0%nat, 0%nat)
  ∧ at2 two_minima 0 0 = 1
  ∧ at2 two_minima 0 1 = 0.
Proof.
  destruct (min_location_first two_minima)
    as (mini & minj & gmin & Hrun & Hi & Hj & Hle & (b & Hb & Hrow) & _
        & Hfirst & _);
    [simpl; lia | simpl; lia |].
  assert (at2 two_minima 0 1 = 0) as H01 by reflexivity.
  assert (at2 two_minima 1 0 = 0) as H10 by reflexivity.
  assert (gmin = 0) as ->.
  { pose proof (Hle 0%nat 1%nat ltac:(simpl; lia) ltac:(simpl; lia)) as Hg.
    rewrite H01 in Hg. simpl in Hi, Hb.
    assert (0 <= gmin); [|lra]. rewrite <- Hrow.
    destruct mini as [|[|?]], b as [|[|?]]; try lia;
      unfold at2; simpl; lra. }
  destruct (Hfirst 0%nat 1%nat ltac:(simpl; lia) ltac:(simpl; lia) H01)
    as [Hm0 _].
  destruct (Hfirst 1%nat 0%nat ltac:(simpl; lia) ltac:(simpl; lia) H10)
    as [_ Hm1].
  assert (mini = 0%nat) as -> by lia. assert (minj = 0%nat) as -> by lia.
  split_and!; [done | reflexivity | done].
Defined.

(** ** The two figures *)

Lemma np_arange_nonpos bound step : bound / step <= 0 → np_arange bound step = [].
Proof.
  intros Hb. unfold np_arange, np_ceil.
  destruct (archimed (- (bound / step))) as [Hup _].
  assert (0 < up (- (bound / step)))%Z as Hpos by (apply lt_IZR; lra).
  by replace (Z.to_nat (1 - up (- (bound / step)))) with 0%nat by lia.
Qed.

Lemma np_transpose_at (Z : array2) a b :
  (a < nrows Z)%nat → (b < ncols Z)%nat →
  at2 (np_transpose Z) b a = at2 Z a b.
Proof.
  intros Ha Hb. unfold at2 at 1. simpl.
  apply list_lookup_total_correct. by apply flatten_F_lookup.
Qed.

Lemma zip_with_map_r {A B C} (f : A → B → C) (g : A → B) (l : list A) :
  zip_with f l (map g l) = map (λ a, f a (g a)) l.
Proof. induction l as [|a l IH]; [done|]. simpl. by rewrite IH. Qed.

(** The 2-D figure for a bound of [n >= 1] whole units: the image and
    the star do not depend on the population. *)
Lemma plotPopulation2D_spec (n : nat) :
  (0 < n)%nat →
  ∃ Z mini minj gmin,
    (∀ population,
       plotPopulation2D (population, INR n)
       = Some {| image := np_transpose Z; dots := population;
                 star := (mini, minj) |})
    ∧ nrows Z = n
    ∧ ncols Z = n
    ∧ (∀ a b, (a < n)%nat → (b < n)%nat →
         at2 Z a b = eggholder (INR a, INR b))
    ∧ (mini < n)%nat
    ∧ (minj < n)%nat
    ∧ (∀ a b, (a < n)%nat → (b < n)%nat → gmin <= at2 Z a b)
    ∧ (∃ b, (b < n)%nat ∧ at2 Z mini b = gmin)
    ∧ (∃ a, (a < n)%nat ∧ at2 Z a minj = gmin)
    ∧ (∀ a b, (a < n)%nat → (b < n)%nat → at2 Z a b = gmin →
         (mini <= a)%nat ∧ (minj <= b)%nat).
Proof.
  intros Hn.
  destruct (landscape_steps 1 n Rlt_0_1)
    as (X & Y & Z & Hrun & _ & _ & [HZr HZc] & _ & Hat).
  rewrite Rmult_1_r in Hrun.
  assert (∀ a b, (a < n)%nat → (b < n)%nat →
            at2 Z a b = eggholder (INR a, INR b)) as HZ.
  { intros a b Ha Hb. destruct (Hat a b Ha Hb) as (_ & _ & H3 & _).
    by rewrite !Rmult_1_r in H3. }
  destruct (min_location_spec Z)
    as (mini & minj & gmin & Hloc & Hi & Hj & Hle & (b0 & Hb0 & Hrow)
        & (a0 & Ha0 & Hcol) & Hfirst & _); [lia | lia |].
  rewrite HZr in Hi, Ha0. rewrite HZc in Hj, Hb0.
  exists Z, mini, minj, gmin. split_and!; [|done..| | | |].
  - intros population. unfold plotPopulation2D. cbn [fst snd]. rewrite Hrun.
    cbn [mbind option_bind snd]. by rewrite Hloc.
  - intros a b Ha Hb. apply Hle; lia.
  - by exists b0.
  - by exists a0.
  - intros a b Ha Hb Hab. apply Hfirst; [lia | lia | done].
Qed.

(** X21.  The 2-D figure for a bound of [n >= 1] whole units.  The
    population is drawn as given; the image is [n] by [n] and its entry in
    row [b], column [a] is the objective at the grid point [(a, b)]; the
    star is at grid indices [(mini, minj)], where [mini] is the least [a]
    and [minj] the least [b] for which some grid point with that
    coordinate has the least objective value of the grid. *)
Theorem plotPopulation2D_figure (population : list point) (n : nat) :
  (0 < n)%nat →
  ∃ fig gmin,
    plotPopulation2D (population, INR n) = Some fig
    ∧ dots fig = population
    ∧ nrows (image fig) = n
    ∧ ncols (image fig) = n
    ∧ (∀ a b, (a < n)%nat → (b < n)%nat →
         at2 (image fig) b a = eggholder (INR a, INR b))
    ∧ ((star fig).1 < n)%nat
    ∧ ((star fig).2 < n)%nat
    ∧ (∀ a b, (a < n)%nat → (b < n)%nat → gmin <= eggholder (INR a, INR b))
    ∧ (∃ b, (b < n)%nat ∧ eggholder (INR (star fig).1, INR b) = gmin)
    ∧ (∃ a, (a < n)%nat ∧ eggholder (INR a, INR (star fig).2) = gmin)
    ∧ (∀ a b, (a < n)%nat → (b < n)%nat →
         eggholder (INR a, INR b) = gmin →
         ((star fig).1 <= a)%nat ∧ ((star fig).2 <= b)%nat).
Proof.
  intros Hn.
  destruct (plotPopulation2D_spec n Hn)
    as (Z & mini & minj & gmin & Hrun & HZr & HZc & HZ & Hi & Hj & Hle
        & (b0 & Hb0 & Hrow) & (a0 & Ha0 & Hcol) & Hfirst).
  eexists _, gmin. split; [apply Hrun|].
  cbn [image dots star fst snd nrows ncols np_transpose]. split_and!.
  - done.
  - done.
  - done.
  - intros a b Ha Hb. rewrite np_transpose_at by lia. by apply HZ.
  - done.
  - done.
  - intros a b Ha Hb. rewrite <- HZ by done. by apply Hle.
  - exists b0. split; [done|]. by rewrite <- HZ.
  - exists a0. split; [done|]. by rewrite <- HZ.
  - intros a b Ha Hb Hab. apply Hfirst; [done | done |]. by rewrite HZ.
Qed.

Lemma plotPopulation2D_figure_witness :
  ∃ fig,
    plotPopulation2D ([(1, 2)], 500) = Some fig
    ∧ nrows (image fig) = 500%nat
    ∧ dots fig = [(1, 2)].
Proof.
  destruct (plotPopulation2D_figure [(1, 2)] 500)
    as (fig & gmin & Hrun & Hdots & Hr & _); [lia|].
  exists fig. split_and!; [|done..].
  replace 500 with (INR 500); [done|].
  rewrite INR_IZR_INZ. by change (Z.of_nat 500) with 500%Z.
Defined.

(** X22.  With a bound that is not positive the grid is empty, and the
    2-D plot fails: the minimum of an empty array is asked for. *)
Theorem plotPopulation2D_empty_grid (population : list point) (bound : R) :
  bound <= 0 →
  plotPopulation2D (population, bound) = None.
Proof.
  intros Hb. unfold plotPopulation2D, landscape. cbn [fst snd].
  rewrite np_arange_nonpos by (unfold Rdiv; lra).
  reflexivity.
Qed.

Lemma plotPopulation2D_empty_grid_witness :
  plotPopulation2D ([(1, 2)], 0) = None.
Proof. apply plotPopulation2D_empty_grid. lra. Defined.

Lemma eggholder_not_symmetric : eggholder (0.5, 1) < eggholder (1, 0.5).
Proof.
  unfold eggholder. cbn [fst snd].
  replace (Rabs (0.5 + 1)) with 1.5
    by (unfold Rabs; destruct (Rcase_abs _); lra).
  replace (Rabs (1 + 0.5)) with 1.5
    by (unfold Rabs; destruct (Rcase_abs _); lra).
  replace (Rabs (0.5 - 1)) with 0.5
    by (unfold Rabs; destruct (Rcase_abs _); lra).
  replace (Rabs (1 - 0.5)) with 0.5
    by (unfold Rabs; destruct (Rcase_abs _); lra).
  assert (sin (sqrt 0.5) < sin (sqrt 1.5)) as Hsin; [|lra].
  pose proof PI2_3_2. pose proof (sqrt_pos 0.5). pose proof (sqrt_pos 1.5).
  assert (sqrt 1.5 < 1.5) by (apply sqrt_less; lra).
  assert (sqrt 0.5 < sqrt 1.5) by (apply sqrt_lt_1_alt; lra).
  apply sin_increasing_1; lra.
Qed.

(** X23.  The arrays of the 3-D figure for a bound of [n] half units.
    Each population row is drawn one unit above its objective value.  The
    surface vertex [[i, j]] stands at [(X[i, j], Y[i, j])], which is
    [(j/2, i/2)], and its height [Z[i, j]] is the objective at [(i/2, j/2)]:
    the height above [(x, y)] is the objective at [(y, x)].  The objective
    is not symmetric, so at vertex [[2, 1]] the height differs from the
    objective at the place the vertex stands on. *)
Theorem plotPopulation3D_surface (population : list point) (n : nat) :
  (0 < n)%nat →
  ∃ fig X Y Z,
    plotPopulation3D (population, INR n * 0.5) = Some fig
    ∧ surface fig = (X, Y, Z)
    ∧ dots3 fig = map (λ p, (p.1, p.2, eggholder p + 1)) population
    ∧ (∀ i j, (i < n)%nat → (j < n)%nat →
         at2 X i j = INR j * 0.5
         ∧ at2 Y i j = INR i * 0.5
         ∧ at2 Z i j = eggholder (at2 Y i j, at2 X i j))
    ∧ ((2 < n)%nat →
       at2 Z 2 1 ≠ eggholder (at2 X 2 1, at2 Y 2 1)).
Proof.
  intros Hn.
  assert (0 < 0.5) as Hs by lra.
  destruct (landscape_steps 0.5 n Hs)
    as (X & Y & Z & Hrun & _ & _ & _ & _ & Hat).
  eexists _, X, Y, Z. split.
  { unfold plotPopulation3D. cbn [fst snd]. rewrite Hrun.
    cbn [mbind option_bind]. rewrite myfun_Rows. reflexivity. }
  cbn [surface dots3]. split_and!.
  - done.
  - apply (zip_with_map_r (λ (p : point) z, (p.1, p.2, z + 1))).
  - intros i j Hi Hj. destruct (Hat i j Hi Hj) as (H1 & H2 & _ & H4).
    by split_and!.
  - intros H2.
    destruct (Hat 2%nat 1%nat ltac:(lia) ltac:(lia)) as (H1 & H2' & H3 & _).
    rewrite H1, H2', H3.
    replace (INR 2 * 0.5) with 1 by (simpl; lra).
    replace (INR 1 * 0.5) with 0.5 by (simpl; lra).
    pose proof eggholder_not_symmetric. lra.
Qed.

Lemma plotPopulation3D_surface_witness :
  ∃ fig X Y Z,
    plotPopulation3D ([(1, 2)], 500) = Some fig
    ∧ surface fig = (X, Y, Z)
    ∧ at2 Z 2 1 ≠ eggholder (at2 X 2 1, at2 Y 2 1).
Proof.
  destruct (plotPopulation3D_surface [(1, 2)] 1000)
    as (fig & X & Y & Z & Hrun & Hsurf & _ & _ & Hasym); [lia|].
  exists fig, X, Y, Z. split_and!; [|done|apply Hasym; lia].
  replace 500 with (INR 1000 * 0.5); [done|].
  rewrite INR_IZR_INZ. change (Z.of_nat 1000) with 1000%Z. lra.
Defined.

(** ** Crowding and its absence *)

Lemma np_sum_lookup2_le v x y a b :
  Forall (λ t, 0 <= t) v → x ≠ y →
  v !! x = Some a → v !! y = Some b → a + b <= np_sum v.
Proof.
  intros Hv. revert x y.
  induction Hv as [|c v Hc Hv IH]; intros x y Hxy Hx Hy.
  - by rewrite lookup_nil in Hx.
  - change (np_sum (c :: v)) with (c + np_sum v).
    destruct x as [|x], y as [|y]; simpl in Hx, Hy.
    + done.
    + injection Hx as ->. pose proof (np_sum_lookup_le v y b Hv Hy). lra.
    + injection Hy as ->. pose proof (np_sum_lookup_le v x a Hv Hx). lra.
    + assert (a + b <= np_sum v) by (apply (IH x y); [lia | done | done]). lra.
Qed.

(** X24.  A clone is penalised.  With [sigma > 0], an individual that
    occurs twice in the reference population has a niche count of at least
    [2]: a positive objective value is at least doubled by sharing, and a
    negative one is at least halved. *)
Theorem wrap_fitness_clone self x y population ind f rest :
  0 < sigma self →
  x ≠ y →
  population !! x = Some ind →
  population !! y = Some ind →
  objf self (Row ind) = Some (f :: rest) →
  ∃ beta g,
    calc_beta self x population = Some beta
    ∧ wrap_fitness self x population = Some g
    ∧ 2 <= beta
    ∧ (0 < f → 2 * f <= g)
    ∧ (f < 0 → f / 2 <= g).
Proof.
  intros Hs Hxy Hx Hy Hf.
  set (beta := niche_count self ind population).
  assert (2 <= beta) as Hb.
  { unfold beta, niche_count.
    replace 2 with (1 + 1) by lra.
    apply (np_sum_lookup2_le _ x y); [by apply niche_terms_nonneg | done | |].
    - rewrite list_lookup_fmap, Hx. simpl.
      rewrite dist_self, decide_True by done. by rewrite sh_0.
    - rewrite list_lookup_fmap, Hy. simpl.
      rewrite dist_self, decide_True by done. by rewrite sh_0. }
  exists beta, (f * sign_power beta f). split_and!.
  - by apply calc_beta_niche_count.
  - rewrite (wrap_fitness_eq self x population ind f rest) by done.
    fold beta. by rewrite np_power_sign by lra.
  - done.
  - intros Hpos. unfold sign_power. rewrite decide_True by done. nra.
  - intros Hneg. unfold sign_power.
    rewrite decide_False, decide_True by lra.
    assert (0 < / beta) by (apply Rinv_0_lt_compat; lra).
    assert (/ beta <= / 2) by (apply Rinv_le_contravar; lra).
    unfold Rdiv. nra.
Qed.

Lemma wrap_fitness_clone_witness :
  ∃ beta g,
    calc_beta (init myfun) 0 [(0, 0); (0, 0)] = Some beta
    ∧ wrap_fitness (init myfun) 0 [(0, 0); (0, 0)] = Some g
    ∧ 2 <= beta.
Proof.
  assert (0 < sigma (init myfun)) as Hs by (simpl; lra).
  destruct (wrap_fitness_clone (init myfun) 0 1 [(0, 0); (0, 0)] (0, 0)
              (eggholder (0, 0)) [] Hs ltac:(lia) eq_refl eq_refl eq_refl)
    as (beta & g & Hb & Hg & Hle & _).
  by exists beta, g.
Defined.

Lemma score_far self f survivors i c :
  0 < sigma self →
  (∀ o, o ∈ take i survivors → sigma self <= dist c o) →
  score self f survivors i c = f c.
Proof.
  intros Hs Hfar. unfold score. case_decide; [done|].
  unfold shared_fitness.
  change (c :: take i survivors) with ([c] ++ take i survivors).
  rewrite niche_count_app, (niche_count_far self c _ Hfar).
  assert (niche_count self c [c] = 1) as ->.
  { unfold niche_count. simpl.
    rewrite dist_self, decide_True, sh_0 by done. lra. }
  rewrite Rplus_0_r, np_power_1_l. lra.
Qed.

Lemma dist_ge_abs_fst p q : Rabs (p.1 - q.1) <= dist p q.
Proof.
  unfold dist. rewrite <- sqrt_Rsqr_abs. apply sqrt_le_1_alt.
  pose proof (Rle_0_sqr (p.2 - q.2)). lra.
Qed.

(** X25.  Without crowding, elimination is truncation by raw value.  When
    any two rows of the pool are at least [sigma] apart, the survivors come
    out in ascending order of their objective values, and no row left
    behind has a smaller objective value than a survivor. *)
Theorem elimination_truncation argsort self f pool keep :
  argsort_ok argsort →
  pointwise (objf self) f →
  0 < sigma self →
  (keep <= length pool)%nat →
  (∀ s s' p p', s ≠ s' → pool !! s = Some p → pool !! s' = Some p' →
     sigma self <= dist p p') →
  ∃ survivors,
    elimination argsort self pool keep = Some survivors
    ∧ length survivors = keep
    ∧ (∀ i j p q, (i <= j)%nat →
         survivors !! i = Some p → survivors !! j = Some q → f p <= f q)
    ∧ (∀ p q, p ∈ survivors → q ∈ pool → q ∉ survivors → f p <= f q).
Proof.
  intros Hok Hf Hs Hkeep Hfar.
  destruct (elimination_spec argsort self f pool keep Hok Hf Hkeep)
    as (survivors & slots & Hrun & Hlen & Hslots & Hnd & Hopt).
  assert (∀ i s s' row', slots !! i = Some s → pool !! s' = Some row' →
            s' ∉ take i slots →
            ∀ o, o ∈ take i survivors → sigma self <= dist row' o) as Haway.
  { intros i s s' row' Hi Hs' Hnotin o [j Hj]%list_elem_of_lookup.
    apply lookup_take_Some in Hj as [Hj Hji].
    destruct (lookup_lt_is_Some_2 slots j) as [sj Hsj].
    { apply lookup_lt_Some in Hi. lia. }
    destruct (Hopt j sj Hsj) as (rowj & Hrowj & Hsurvj & _).
    pose proof (eq_trans (eq_sym Hj) Hsurvj) as Heq. injection Heq as ->.
    apply (Hfar s' sj); [|done|done].
    intros ->. apply Hnotin. apply list_elem_of_lookup. exists j.
    by rewrite lookup_take_lt. }
  assert (∀ i s s' row row', slots !! i = Some s → pool !! s = Some row →
            survivors !! i = Some row → pool !! s' = Some row' →
            s' ∉ take i slots → f row <= f row') as Hraw.
  { intros i s s' row row' Hi Hrow Hsurv Hs' Hnotin.
    destruct (Hopt i s Hi) as (row0 & Hrow0 & _ & Hbest).
    pose proof (eq_trans (eq_sym Hrow) Hrow0) as Heq. injection Heq as <-.
    specialize (Hbest s' row' Hs' Hnotin).
    rewrite (score_far self f survivors i row) in Hbest; [|done|].
    - rewrite (score_far self f survivors i row') in Hbest; [done | done |].
      by eapply Haway.
    - eapply (Haway i s s row Hi Hrow).
      intros [j Hj]%list_elem_of_lookup.
      apply lookup_take_Some in Hj as [Hj Hji].
      pose proof (NoDup_lookup _ _ _ _ Hnd Hi Hj). lia. }
  exists survivors. split_and!; [done | done | |].
  - intros i j p q Hij Hp Hq.
    destruct (decide (i = j)) as [->|Hne].
    { pose proof (eq_trans (eq_sym Hp) Hq) as Heq. injection Heq as ->. lra. }
    destruct (lookup_lt_is_Some_2 slots i) as [si Hsi].
    { apply lookup_lt_Some in Hp. lia. }
    destruct (lookup_lt_is_Some_2 slots j) as [sj Hsj].
    { apply lookup_lt_Some in Hq. lia. }
    destruct (Hopt i si Hsi) as (rowi & Hrowi & Hsurvi & _).
    destruct (Hopt j sj Hsj) as (rowj & Hrowj & Hsurvj & _).
    pose proof (eq_trans (eq_sym Hp) Hsurvi) as Heq. injection Heq as ->.
    pose proof (eq_trans (eq_sym Hq) Hsurvj) as Heq. injection Heq as ->.
    apply (Hraw i si sj); [done..|].
    intros [j' Hj']%list_elem_of_lookup.
    apply lookup_take_Some in Hj' as [Hj' Hlt].
    pose proof (NoDup_lookup _ _ _ _ Hnd Hsj Hj'). lia.
  - intros p q [i Hp]%list_elem_of_lookup [s' Hq]%list_elem_of_lookup Hnot.
    destruct (lookup_lt_is_Some_2 slots i) as [si Hsi].
    { apply lookup_lt_Some in Hp. lia. }
    destruct (Hopt i si Hsi) as (rowi & Hrowi & Hsurvi & _).
    pose proof (eq_trans (eq_sym Hp) Hsurvi) as Heq. injection Heq as ->.
    apply (Hraw i si s'); [done..|].
    intros [j Hj]%list_elem_of_lookup.
    apply lookup_take_Some in Hj as [Hj Hlt].
    destruct (Hopt j s' Hj) as (rowj & Hrowj & Hsurvj & _).
    apply Hnot. apply list_elem_of_lookup. exists j.
    pose proof (eq_trans (eq_sym Hq) Hrowj) as Heq. injection Heq as ->.
    done.
Qed.

Lemma elimination_truncation_witness :
  ∃ survivors,
    elimination stable_argsort (init myfun) [(0, 0); (200, 0); (400, 0)] 2
    = Some survivors
    ∧ length survivors = 2%nat.
Proof.
  assert (0 < sigma (init myfun)) as Hs by (simpl; lra).
  destruct (elimination_truncation stable_argsort (init myfun) eggholder
              [(0, 0); (200, 0); (400, 0)] 2 stable_argsort_ok
              myfun_pointwise Hs)
    as (survivors & Hrun & Hlen & _).
  - simpl. lia.
  - intros s s' p p' Hne Hp Hp'.
    etrans; [|apply dist_ge_abs_fst].
    destruct s as [|[|[|s]]], s' as [|[|[|s']]]; simplify_eq/=;
      unfold Rabs; destruct (Rcase_abs _); lra.
  - by exists survivors.
Defined.

(** ** The script *)

Lemma plot_inputs_app e1 e2 :
  plot_inputs (e1 ++ e2) = plot_inputs e1 ++ plot_inputs e2.
Proof. apply omap_app. Qed.

(** Every call of [plotFun] gets the bound [intMax] beside the
    population. *)
Lemma optimize_plot_inputs argsort self rand0 gens events :
  optimize argsort self rand0 gens = Some events →
  plot_inputs events = map (λ population, (population, intMax self))
                           (plotted events).
Proof.
  intros Hrun.
  destruct (optimize_Some_inv argsort self rand0 gens events Hrun)
    as (st & Hloop & ->).
  rewrite plot_inputs_app, plotted_app. simpl. rewrite !app_nil_r.
  revert Hloop.
  apply (for_each_inv
           (λ st : list point * list event,
              plot_inputs st.2
              = map (λ population, (population, intMax self)) (plotted st.2)));
    [|reflexivity].
  intros i s s' _ Hs Hbody. cbv beta in Hbody.
  destruct (generation argsort self (gens i) s.1) as [r|] eqn:Hgen; [|done].
  injection Hbody as <-. cbn [fst snd].
  destruct (generation_report argsort self (gens i) s.1 r Hgen)
    as (m & b & -> & _).
  by rewrite plot_inputs_app, plotted_app, map_app, Hs.
Qed.

(** X26.  The script as shipped, with draws of the shapes and ranges the
    generators give and an [np.argsort] that returns a sorting
    permutation: the run and all of its [21] plots succeed.  Every figure
    shows a [500] by [500] image, [100] dots inside [[0, 500]] x [[0, 500]]
    and a star inside the image; image and star are the same on every
    figure. *)
Theorem script_figures argsort rand0 gens :
  argsort_ok argsort →
  rand2_ok 100 rand0 →
  (∀ i, (i < 20)%nat → draws_ok (init myfun) (gens i)) →
  ∃ figs,
    script argsort rand0 gens = Some figs
    ∧ length figs = 21%nat
    ∧ Forall (λ fig,
                nrows (image fig) = 500%nat
                ∧ ncols (image fig) = 500%nat
                ∧ length (dots fig) = 100%nat
                ∧ Forall (in_box 500) (dots fig)
                ∧ ((star fig).1 < 500)%nat
                ∧ ((star fig).2 < 500)%nat)
             figs
    ∧ ∀ fig fig', fig ∈ figs → fig' ∈ figs →
        image fig = image fig' ∧ star fig = star fig'.
Proof.
  intros Hok [Hlen Hu] Hd.
  assert (0 <= intMax (init myfun)) as HB by (simpl; lra).
  destruct (optimize_total argsort (init myfun) eggholder rand0 gens Hok
              myfun_pointwise)
    as (events & Hrun & Hcount & Hrows);
    [simpl; lia | simpl; lia | reflexivity | done | done |].
  pose proof (optimize_in_box argsort (init myfun) rand0 gens events HB Hu Hrun)
    as Hbox.
  pose proof (optimize_plot_inputs argsort (init myfun) rand0 gens events Hrun)
    as Hin.
  destruct (plotPopulation2D_spec 500 ltac:(lia))
    as (Z & mini & minj & gmin & Hplot & HZr & HZc & _ & Hi & Hj & _).
  assert (INR 500 = intMax (init myfun)) as H500.
  { rewrite INR_IZR_INZ. by change (Z.of_nat 500) with 500%Z. }
  rewrite H500 in Hplot.
  set (draw := λ population : list point,
         {| image := np_transpose Z; dots := population;
            star := (mini, minj) |}).
  exists (map draw (plotted events)). split_and!.
  - unfold script. cbv zeta. rewrite Hrun. cbn [mbind option_bind].
    rewrite Hin. apply mapM_Some, Forall2_fmap, Forall_Forall2_diag.
    apply Forall_forall. intros population _. apply Hplot.
  - by rewrite length_map.
  - apply Forall_map. apply Forall_forall. intros population Hp.
    cbn [draw image dots star fst snd nrows ncols np_transpose].
    split_and!; [done | done | | | done | done].
    + exact (proj1 (Forall_forall _ _) Hrows population Hp).
    + exact (proj1 (Forall_forall _ _) Hbox population Hp).
  - intros fig fig' (p & -> & _)%list_elem_of_fmap
      (p' & -> & _)%list_elem_of_fmap.
    by split.
Qed.

Lemma script_figures_witness :
  ∃ figs,
    script stable_argsort (replicate 100 (0.5, 0.5)) (λ _, calm_draws)
    = Some figs
    ∧ length figs = 21%nat.
Proof.
  destruct (script_figures stable_argsort (replicate 100 (0.5, 0.5))
              (λ _, calm_draws))
    as (figs & Hrun & Hn & _).
  - apply stable_argsort_ok.
  - split; [apply length_replicate|].
    apply Forall_replicate. split; apply half_unit.
  - intros i _. apply calm_draws_ok.
  - by exists figs.
Defined.
